(** * momepy.elements: tessellation, street snapping and blocks

    A shallow embedding of [momepy/elements.py].  The module drives three
    external libraries (shapely/GEOS/OGR for geometry, rtree for spatial
    indexing, scipy/libpysal for Voronoi diagrams and contiguity graphs);
    their operations are collected in one interface, [GeometryKernel], and
    every function of the module is written against that interface.
    Floating-point coordinates are idealised as rationals.  Where the
    outcome of the code depends on the rounding of a float operation, the
    operation is a parameter: the double [a - b + 0.000001] that
    [getExtrapoledLine] divides by, and the square [x ** 2] of
    [get_network_id].  NaN is [None] where the code produces it
    ([_get_centre] on a frame without rows). *)

From Stdlib Require Import QArith Qabs Sorted.
From stdpp Require Import gmap strings list.
From Stdlib Require Import Lia Lqa.
From Equations Require Import Equations.

(** ** Python exceptions *)

Inductive exn : Type :=
| Exception (msg : string)
| IndexError
| KeyError
| ValueError
| ZeroDivisionError
| NotImplementedError
| AttributeError
| TypeError.

Inductive result (A : Type) : Type :=
| Ok (a : A)
| Raise (e : exn).
Arguments Ok {A} a.
Arguments Raise {A} e.

#[global] Instance result_ret : MRet result := λ A a, Ok a.
#[global] Instance result_bind : MBind result := λ A B k m,
  match m with
  | Ok a => k a
  | Raise e => Raise e
  end.

(** [for x in xs: acc = body acc x], stopping at the first exception. *)
Fixpoint for_each {A S} (body : S → A → result S) (xs : list A) (s : S)
  : result S :=
  match xs with
  | [] => Ok s
  | x :: xs' => s' ← body s x; for_each body xs' s'
  end.

(** ** Geometry values (shapely) *)

Definition coord : Type := (Q * Q)%type.

Record polygon : Type := mkPolygon {
  shell : list coord;
  holes : list (list coord)
}.

Inductive geom : Type :=
| Point (c : coord)
| LineString (cs : list coord)
| LinearRing (cs : list coord)
| Polygon (p : polygon)
| MultiPoint (ps : list coord)
| MultiLineString (ls : list (list coord))
| MultiPolygon (ps : list polygon)
| GeometryCollection (gs : list geom).

(** [geom.type] *)
Definition geom_type (g : geom) : string :=
  match g with
  | Point _ => "Point"%string
  | LineString _ => "LineString"
  | LinearRing _ => "LinearRing"
  | Polygon _ => "Polygon"
  | MultiPoint _ => "MultiPoint"
  | MultiLineString _ => "MultiLineString"
  | MultiPolygon _ => "MultiPolygon"
  | GeometryCollection _ => "GeometryCollection"
  end.

(** [geom.coords]; multi-part geometries and polygons have none. *)
Definition coords (g : geom) : result (list coord) :=
  match g with
  | Point c => Ok [c]
  | LineString cs => Ok cs
  | LinearRing cs => Ok cs
  | _ => Raise NotImplementedError
  end.

(** Truth value of a geometry: [bool(g)] is [not g.is_empty]. *)
Fixpoint is_empty (g : geom) : bool :=
  match g with
  | Point _ => false
  | LineString cs => match cs with [] => true | _ => false end
  | LinearRing cs => match cs with [] => true | _ => false end
  | Polygon p => match shell p with [] => true | _ => false end
  | MultiPoint ps => match ps with [] => true | _ => false end
  | MultiLineString ls => forallb (λ l, match l with [] => true | _ => false end) ls
  | MultiPolygon ps => forallb (λ p, match shell p with [] => true | _ => false end) ps
  | GeometryCollection gs => forallb is_empty gs
  end.

(** Bounding boxes [(minx, miny, maxx, maxy)]. *)
Definition bbox : Type := (Q * Q * Q * Q)%type.

Definition bbox_intersects (a b : bbox) : bool :=
  let '(aminx, aminy, amaxx, amaxy) := a in
  let '(bminx, bminy, bmaxx, bmaxy) := b in
  Qle_bool aminx bmaxx && Qle_bool bminx amaxx &&
  Qle_bool aminy bmaxy && Qle_bool bminy amaxy.

(** shapely's buffer styles: [CAP_STYLE] and [JOIN_STYLE] number their
    members 1, 2, 3. *)
Inductive CAP_STYLE : Type := cap_round | cap_flat | cap_square.
Inductive JOIN_STYLE : Type := join_round | join_mitre | join_bevel.

Definition CAP_STYLE_of (code : Z) : option CAP_STYLE :=
  if decide (code = 1%Z) then Some cap_round
  else if decide (code = 2%Z) then Some cap_flat
  else if decide (code = 3%Z) then Some cap_square
  else None.

Definition JOIN_STYLE_of (code : Z) : option JOIN_STYLE :=
  if decide (code = 1%Z) then Some join_round
  else if decide (code = 2%Z) then Some join_mitre
  else if decide (code = 3%Z) then Some join_bevel
  else None.

(** Arguments of [geom.buffer(distance, cap_style=..., join_style=...)];
    both styles default to round. *)
Record buffer_args : Type := mkBufferArgs {
  distance_arg : Q;
  cap_style : Z;
  join_style : Z
}.

Definition default_buffer (d : Q) : buffer_args :=
  {| distance_arg := d; cap_style := 1; join_style := 1 |}.

(** Result of [scipy.spatial.Voronoi]. *)
Record voronoi_diagram : Type := mkVoronoi {
  point_region : list nat;
  regions : list (list Z);
  vertices : list coord
}.

(** A float that may be NaN; NaN is [None]. *)
Definition pyfloat : Type := option Q.

(** [-x] *)
Definition py_neg (x : pyfloat) : pyfloat := option_map Qopp x.

(** ** The external libraries *)

Class GeometryKernel : Type := {
  (* shapely *)
  bounds : geom → bbox;
  (* [geom.boundary]: shapely raises for a geometry that has none (a
     GeometryCollection: ValueError) *)
  boundary : geom → result (option geom);
  (* [translate(xoff, yoff)]; the offsets may be NaN *)
  translate : geom → pyfloat → pyfloat → geom;
  buffer : geom → buffer_args → geom;
  convex_hull : geom → geom;
  area : geom → Q;
  length_of : geom → Q;
  distance : geom → geom → Q;
  intersection : geom → geom → geom;
  difference : geom → geom → geom;
  unary_union : list geom → geom;
  intersects : geom → geom → bool;
  within : geom → geom → bool;
  representative_point : geom → geom;
  exterior : geom → geom;
  (* ogr: Segmentize, CloseRings and the WKT round trip; [None] when the
     exported WKT does not load *)
  ogr_segmentize : geom → Q → option geom;
  (* scipy *)
  Voronoi : list coord → voronoi_diagram;
  (* libpysal: [Queen.from_dataframe(...).neighbors] *)
  Queen_neighbors : list geom → gmap nat (list nat);
  (* math *)
  math_cos : Q → Q;
  math_sin : Q → Q;
  math_atan : Q → Q;
  (* binary64 arithmetic: the value that [a - b + 0.000001] has as a
     double, which need not be the rational [a - b + 1/1000000] *)
  float_skew : Q → Q → Q
}.

(** ** Data frames *)

(** A row of a GeoDataFrame: its index label, the unique-id column, the
    geometry column and the remaining columns. *)
Record row : Type := mkRow {
  ix : Z;
  uID : Z;
  geometry : geom;
  columns : list (string * Z)
}.

Abbreviation frame := (list row).

Definition set_geometry (g : geom) (r : row) : row :=
  {| ix := ix r; uID := uID r; geometry := g; columns := columns r |}.

(** [df.loc[idx, 'geometry'] = g] *)
Definition loc_set (idx : Z) (g : geom) (df : frame) : frame :=
  map (λ r, if decide (ix r = idx) then set_geometry g r else r) df.

(** [df.loc[labels]] *)
Definition loc_rows (df : frame) (labels : list Z) : frame :=
  flat_map (λ l, List.filter (λ r, bool_decide (ix r = l)) df) labels.

(** [df.iloc[positions]] *)
Definition iloc (df : frame) (positions : list nat) : frame :=
  omap (λ i, df !! i) positions.

(** [df.reset_index(drop=True)] *)
Definition reset_index (df : frame) : frame :=
  imap (λ i r, {| ix := Z.of_nat i; uID := uID r; geometry := geometry r;
                  columns := columns r |}) df.

(** [df.drop_duplicates(subset=[unique_id])]: the first row of every id
    is kept. *)
Fixpoint drop_duplicates_from (seen : list Z) (df : frame) : frame :=
  match df with
  | [] => []
  | r :: df' =>
      if decide (uID r ∈ seen) then drop_duplicates_from seen df'
      else r :: drop_duplicates_from (uID r :: seen) df'
  end.

Definition drop_duplicates (df : frame) : frame := drop_duplicates_from [] df.

(** ** Spatial index (rtree) *)

(** [df.sindex]: the bounding boxes of the geometries at the time the
    index is built, by position.  A query lists the positions whose box
    meets the query box; the model lists them in increasing order. *)
Definition sindex_of `{K : GeometryKernel} (df : frame) : list bbox :=
  map (λ r, bounds (geometry r)) df.

Definition sindex_intersection (sindex : list bbox) (q : bbox) : list nat :=
  omap (λ '(i, b), if bbox_intersects b q then Some i else None)
       (imap (λ i b, (i, b)) sindex).

(** The attribute [df.sindex] of a frame that may have no rows: geopandas
    builds no index for an empty frame and the attribute is [None], so
    that a query on it is an AttributeError. *)
Definition sindex_attribute `{K : GeometryKernel} (df : frame)
  : option (list bbox) :=
  match df with
  | [] => None
  | _ => Some (sindex_of df)
  end.

(** ** The object store *)

(** The GeoDataFrames live in a store of objects; a name of the program
    is a reference into it.  [edges.copy()] allocates a new object. *)
Record snap_state : Type := mkSnapState {
  heap : gmap nat frame;
  l_coords : list coord
}.

Definition snapM (A : Type) : Type := snap_state → snap_state * result A.

#[global] Instance snapM_ret : MRet snapM := λ A a s, (s, Ok a).
#[global] Instance snapM_bind : MBind snapM := λ A B k m s,
  match m s with
  | (s', Ok a) => k a s'
  | (s', Raise e) => (s', Raise e)
  end.

Definition lift {A} (r : result A) : snapM A := λ s, (s, r).

Definition get_l_coords : snapM (list coord) := λ s, (s, Ok (l_coords s)).

Definition set_l_coords (l : list coord) : snapM unit :=
  λ s, ({| heap := heap s; l_coords := l |}, Ok ()).

Definition read_frame (ref : nat) : snapM frame :=
  λ s, (s, match heap s !! ref with
           | Some df => Ok df
           | None => Raise AttributeError
           end).

(** [df.loc[idx, 'geometry'] = g] on the object [ref]. *)
Definition write_geometry (ref : nat) (idx : Z) (g : geom) : snapM unit :=
  λ s, ({| heap := alter (loc_set idx g) ref (heap s); l_coords := l_coords s |},
        Ok ()).

(** [df.copy()]: a new object with the rows of [df]. *)
Definition copy_frame (df : frame) : snapM nat :=
  λ s, let ref := fresh (dom (heap s)) in
       ({| heap := <[ref := df]> (heap s); l_coords := l_coords s |}, Ok ref).

(** ** Connected components of the contiguity graph *)

(** Total degree of the fragments that are not yet in [to_join]: every
    fragment is appended to [to_join] at most once and extends
    [neighbours] by its own neighbour list only then. *)
Definition unvisited_weight (nbrs : gmap nat (list nat)) (to_join : list nat)
  : nat :=
  sum_list (map (λ e : nat * list nat,
                   if decide (e.1 ∈ to_join) then 0 else length e.2)
                (map_to_list nbrs)).

Lemma unvisited_weight_mono (l : list (nat * list nat)) (to_join : list nat) n :
  sum_list (map (λ e : nat * list nat,
                   if decide (e.1 ∈ to_join ++ [n]) then 0 else length e.2) l)
  ≤ sum_list (map (λ e : nat * list nat,
                     if decide (e.1 ∈ to_join) then 0 else length e.2) l).
Proof.
  induction l as [|[k v] l IH]; simpl; [lia|].
  repeat case_decide; try lia. set_solver.
Qed.

Lemma unvisited_weight_visit nbrs to_join n ws :
  n ∉ to_join → nbrs !! n = Some ws →
  unvisited_weight nbrs (to_join ++ [n]) + length ws
  ≤ unvisited_weight nbrs to_join.
Proof.
  intros Hn Hws. unfold unvisited_weight.
  apply elem_of_map_to_list in Hws.
  induction (map_to_list nbrs) as [|[k v] l IH]; [by apply elem_of_nil in Hws|].
  apply elem_of_cons in Hws as [Heq|Hin]; simpl.
  - inversion Heq; subst k v.
    rewrite decide_True by set_solver. rewrite (decide_False _ _ Hn).
    pose proof (unvisited_weight_mono l to_join n). lia.
  - specialize (IH Hin). repeat case_decide; try lia. set_solver.
Qed.

Definition inspect {A} (a : A) : {b | a = b} := exist _ a eq_refl.

(** The loop [for n in neighbours: while n not in to_join: ...] of
    [blocks].  [neighbours] grows while it is traversed; [k] is the
    position of the iterator.  The body of the [while] makes its own
    condition false, so it runs at most once for every [n]. *)
Equations? expand (nbrs : gmap nat (list nat)) (to_join neighbours : list nat)
    (k : nat) : result (list nat)
  by wf (length neighbours - k + unvisited_weight nbrs to_join) lt :=
expand nbrs to_join neighbours k with inspect (neighbours !! k) := {
  | exist _ None _ => Ok to_join
  | exist _ (Some n) Hn with decide (n ∈ to_join) := {
     | left _ => expand nbrs to_join neighbours (S k)
     | right Hnin with inspect (nbrs !! n) := {
        | exist _ None _ => Raise KeyError
        | exist _ (Some weights) Hws =>
            expand nbrs (to_join ++ [n]) (neighbours ++ weights) (S k) } } }.
Proof.
  - apply lookup_lt_Some in Hn. lia.
  - apply lookup_lt_Some in Hn.
    pose proof (unvisited_weight_visit nbrs to_join n weights Hnin Hws).
    rewrite length_app. lia.
Qed.

(** The indices to be joined with [idx]. *)
Definition to_join_of (nbrs : gmap nat (list nat)) (idx : nat)
  : result (list nat) :=
  match nbrs !! idx with
  | None => Raise KeyError
  | Some weights => expand nbrs [idx] weights 0
  end.

(** One iteration of the loop over [blocks_gdf.iterrows()]; the state is
    the dictionary [patches] and the counter [jID]. *)
Definition patches_step (nbrs : gmap nat (list nat)) (st : gmap nat Z * Z)
    (idx : nat) : result (gmap nat Z * Z) :=
  let '(patches, jID) := st in
  match patches !! idx with
  | Some _ => Ok st
  | None =>
      to_join ← to_join_of nbrs idx;
      Ok (foldl (λ p b, <[b := jID]> p) patches to_join, (jID + 1)%Z)
  end.

Definition patches_of (nbrs : gmap nat (list nat)) (n : nat)
  : result (gmap nat Z) :=
  st ← for_each (patches_step nbrs) (seq 0 n) (∅, 1%Z);
  Ok st.1.

Section Elements.
Context `{K : GeometryKernel}.

(** ** Seed generation *)

(** [_get_centre]: half the sum of the largest [maxx] and the smallest
    [minx], and the same for y.  For a frame without rows pandas gives NaN
    for both [max()] and [min()], and the centre is [(nan, nan)]. *)
Definition Qmax_list (d : Q) (l : list Q) : Q :=
  fold_left (λ m x, if Qle_bool m x then x else m) l d.
Definition Qmin_list (d : Q) (l : list Q) : Q :=
  fold_left (λ m x, if Qle_bool x m then x else m) l d.

Definition _get_centre (gdf : frame) : pyfloat * pyfloat :=
  match map (λ r, bounds (geometry r)) gdf with
  | [] => (None, None)
  | (minx, miny, maxx, maxy) :: bs =>
      let centre_x :=
        ((Qmax_list maxx (map (λ b, b.1.2) bs)
          + Qmin_list minx (map (λ b, b.1.1.1) bs)) / 2)%Q in
      let centre_y :=
        ((Qmax_list maxy (map (λ b, b.2) bs)
          + Qmin_list miny (map (λ b, b.1.1.2) bs)) / 2)%Q in
      (Some centre_x, Some centre_y)
  end.

(** [_densify]: the original geometry is returned when the densified WKT
    cannot be loaded. *)
Definition _densify (g : geom) (segment : Q) : geom :=
  match ogr_segmentize g segment with
  | Some new => new
  | None => g
  end.

(** One iteration of the loop of [_point_array]: the boundary vertices of
    the row are appended to [points], with the row's id in [ids]. *)
Definition append_seeds (uid : Z) (acc : list coord * list Z)
    (row_array : list coord) : list coord * list Z :=
  fold_left (λ a c, (a.1 ++ [c], a.2 ++ [uid])) row_array acc.

Definition _point_array_row (acc : list coord * list Z) (r : row)
  : result (list coord * list Z) :=
  poly_ext ← boundary (geometry r);
  match poly_ext with
  | None => Ok acc
  | Some (MultiLineString ls) => Ok (fold_left (append_seeds (uID r)) ls acc)
  | Some (LineString cs) => Ok (append_seeds (uID r) acc cs)
  | Some poly_ext => Raise (Exception (String.append "Boundary type is " (geom_type poly_ext)))
  end.

Definition _point_array (objects : frame) : result (list coord * list Z) :=
  for_each _point_array_row objects ([], []).

(** The erosion step of [tessellation]:
    [g.buffer(-shrink, cap_style=2, join_style=2)]. *)
Definition erosion_args (shrink : Q) : buffer_args :=
  {| distance_arg := (- shrink)%Q; cap_style := 2; join_style := 2 |}.

Definition erode (shrink : Q) (objects : frame) : frame :=
  map (λ r, set_geometry (buffer (geometry r) (erosion_args shrink)) r) objects.

(** ** Voronoi regions *)

(** Python indexing [l[i]]: negative positions count from the end. *)
Definition py_index {A} (l : list A) (i : Z) : result A :=
  let n := Z.of_nat (length l) in
  let j := if decide (0 ≤ i)%Z then i else (n + i)%Z in
  if decide (0 ≤ j)%Z then
    match l !! Z.to_nat j with
    | Some x => Ok x
    | None => Raise IndexError
    end
  else Raise IndexError.

Definition coord_eqb (a b : coord) : bool :=
  Qeq_bool a.1 b.1 && Qeq_bool a.2 b.2.

(** [Polygon(coordinates)]: a shell needs three coordinates and is closed
    by repeating its first one. *)
Definition Polygon_from_coords (cs : list coord) : result geom :=
  match cs with
  | c0 :: _ :: _ :: _ =>
      let closed :=
        match last cs with
        | Some cn => if coord_eqb c0 cn then cs else cs ++ [c0]
        | None => cs
        end in
      Ok (Polygon {| shell := closed; holes := [] |})
  | _ => Raise ValueError
  end.

(** [DataFrame.dropna()] on the regions table: rows without a polygon go. *)
Definition dropna (rows : list (Z * Z * option geom)) : frame :=
  omap (λ '(i, uid, og),
          g ← og; Some {| ix := i; uID := uid; geometry := g; columns := [] |})
       rows.

Definition _regions (voronoi_diagram : voronoi_diagram) (ids : list Z)
  : result frame :=
  if decide (length ids = length (point_region voronoi_diagram)) then
    region_vertices ← mapM (λ region,
                       match regions voronoi_diagram !! region with
                       | Some v => Ok v
                       | None => Raise IndexError
                       end) (point_region voronoi_diagram);
    polygons ← mapM (λ region : list Z,
                       if decide ((-1)%Z ∈ region) then Ok None
                       else cs ← mapM (py_index (vertices voronoi_diagram)) region;
                            p ← Polygon_from_coords cs;
                            Ok (Some p)) region_vertices;
    let regions := imap (λ i '(uid, p), (Z.of_nat i, uid, p)) (zip ids polygons) in
    let regions_gdf := dropna regions in
    (* delete errors *)
    let regions_gdf :=
      List.filter (λ r, negb (Qle_bool 1000000 (length_of (geometry r))))
                  regions_gdf in
    (* delete hull-based cells *)
    let regions_gdf :=
      List.filter (λ r, negb (bool_decide (uID r = (-1)%Z))) regions_gdf in
    Ok regions_gdf
  else Raise ValueError.

(** ** Dissolve *)

(** [groupby]: groups are kept in increasing key order and every group
    lists its geometries in row order; rows without a key are dropped. *)
Fixpoint group_insert (k : Z) (g : geom) (groups : list (Z * list geom))
  : list (Z * list geom) :=
  match groups with
  | [] => [(k, [g])]
  | (k', gs) :: rest =>
      if decide (k = k') then (k', gs ++ [g]) :: rest
      else if decide (k < k')%Z then (k, [g]) :: groups
      else (k', gs) :: group_insert k g rest
  end.

Definition groupby {A} (key : A → option Z) (geom_of : A → geom) (df : list A)
  : list (Z * list geom) :=
  fold_left (λ groups r,
               match key r with
               | Some k => group_insert k (geom_of r) groups
               | None => groups
               end) df [].

(** [df[[unique_id, 'geometry']].dissolve(by=unique_id, as_index=False)] *)
Definition dissolve (df : frame) : frame :=
  imap (λ i '(k, gs), {| ix := Z.of_nat i; uID := k;
                         geometry := unary_union gs; columns := [] |})
       (groupby (λ r, Some (uID r)) geometry df).

(** ** Clipping by the limit *)

(** [_pair]: consecutive pairs of a coordinate list. *)
Fixpoint _pair (coords : list coord) : list (coord * coord) :=
  match coords with
  | a :: (b :: _) as rest => (a, b) :: _pair rest
  | _ => []
  end.

Definition _split_lines (polygon : geom) (distance : Q) : result (list geom) :=
  let dense := _densify polygon distance in
  boundary ← boundary dense;
  match boundary with
  | None => Raise AttributeError
  | Some (LineString cs) =>
      Ok (map (λ '(seg_start, seg_end), LineString [seg_start; seg_end]) (_pair cs))
  | Some (MultiLineString ls) =>
      Ok (flat_map (λ cs, map (λ '(seg_start, seg_end),
                                 LineString [seg_start; seg_end]) (_pair cs)) ls)
  | Some _ => Ok []
  end.

(** [max(d.items(), key=operator.itemgetter(1))[0]] over the dictionary
    [{0: key x0, 1: key x1, ...}]: the first position of a maximal value;
    an empty dictionary raises. *)
Definition py_max_index (values : list Q) : result nat :=
  match values with
  | [] => Raise ValueError
  | v0 :: vs =>
      Ok (fold_left (λ (best : nat * Q) (item : nat * Q),
                       if Qle_bool item.2 best.2 then best else item)
                    (imap (λ i v, (S i, v)) vs) (0, v0)).1
  end.

(** [min(d.items(), key=operator.itemgetter(1))[0]] *)
Definition py_min_index (values : list Q) : result nat :=
  match values with
  | [] => Raise ValueError
  | v0 :: vs =>
      Ok (fold_left (λ (best : nat * Q) (item : nat * Q),
                       if Qle_bool best.2 item.2 then best else item)
                    (imap (λ i v, (S i, v)) vs) (0, v0)).1
  end.

(** The rows that cross a chord of the densified limit boundary. *)
Definition cut_candidates (tessellation : frame) (geometry_cut : list geom)
  : frame :=
  let sindex := sindex_of tessellation in
  flat_map (λ poly,
              let possible_matches_index :=
                sindex_intersection sindex (bounds poly) in
              let possible_matches := iloc tessellation possible_matches_index in
              List.filter (λ r, intersects (geometry r) poly) possible_matches)
           geometry_cut.

(** Body of the cutting loop for the row [row] (as it was when the loop
    started) with index label [idx]. *)
Definition _cut_row (limit : geom) (tessellation : frame) (r : row)
  : result frame :=
  let idx := ix r in
  match intersection (geometry r) limit with
  | MultiPolygon ps =>
      maximal ← py_max_index (map (λ p, area (Polygon p)) ps);
      match ps !! maximal with
      | Some p => Ok (loc_set idx (Polygon p) tessellation)
      | None => Raise IndexError
      end
  | GeometryCollection gs =>
      Ok (fold_left (λ t g, match g with
                           | Polygon _ => loc_set idx g t
                           | _ => t
                           end) gs tessellation)
  | i => Ok (loc_set idx i tessellation)
  end.

Definition _cut (tessellation : frame) (limit : geom) : result frame :=
  geometry_cut ← _split_lines limit 100;
  let to_cut := cut_candidates tessellation geometry_cut in
  (* delete duplicates *)
  let to_cut := drop_duplicates to_cut in
  let subselection := map ix to_cut in
  for_each (_cut_row limit) (loc_rows tessellation subselection) tessellation.

(** ** Corner regularisation (experimental) *)

(** [_queen_corners] writes [tessellation.loc[ix, 'geometry'] = newgeom]
    for the rows whose ring it changes and touches nothing else.  How the
    ring is rebuilt (shapely.ops.polygonize over the snapped coordinates)
    is left to [corner_ring], which sees the frame the pass started from. *)
Definition _queen_corners (corner_ring : frame → Q → row → option geom)
    (tessellation : frame) (sensitivity : Q) : frame :=
  fold_left (λ t r, match corner_ring tessellation sensitivity r with
                    | Some newgeom => loc_set (ix r) newgeom t
                    | None => t
                    end) tessellation tessellation.

(** ** tessellation *)

(** [GeoDataFrame.explode]: one row per part of a multi-part geometry. *)
Definition parts (g : geom) : list geom :=
  match g with
  | MultiPoint ps => map Point ps
  | MultiLineString ls => map LineString ls
  | MultiPolygon ps => map Polygon ps
  | GeometryCollection gs => gs
  | _ => [g]
  end.

Definition explode (df : frame) : frame :=
  flat_map (λ r, map (λ g, set_geometry g r) (parts (geometry r))) df.

Definition translate_frame (xoff yoff : pyfloat) (df : frame) : frame :=
  map (λ r, set_geometry (translate (geometry r) xoff yoff) r) df.

(** The first half of [tessellation]: from the buildings to the table of
    Voronoi regions returned by [_regions]. *)
Definition tessellation_regions (gdf : frame) (limit : geom)
    (shrink segment : Q) : result (pyfloat * pyfloat * frame) :=
  let objects := gdf in
  let centre := _get_centre objects in
  let objects :=
    translate_frame (py_neg centre.1) (py_neg centre.2) objects in
  let objects := erode shrink objects in
  let objects := reset_index (explode objects) in
  let objects := map (λ r, set_geometry (_densify (geometry r) segment) r) objects in
  pi ← _point_array objects;
  let '(points, ids) := pi in
  (* add convex hull buffered large distance to eliminate infinity issues *)
  let series := translate limit (py_neg centre.1) (py_neg centre.2) in
  let hull := buffer (convex_hull series) (default_buffer 300) in
  let hull := _densify hull 20 in
  hull_boundary ← boundary hull;
  hull_boundary ← match hull_boundary with
                  | Some b => Ok b
                  | None => Raise AttributeError
                  end;
  hull_array ← coords hull_boundary;
  let points := points ++ hull_array in
  let ids := ids ++ replicate (length hull_array) (-1)%Z in
  let voronoi_diagram := Voronoi points in
  regions_gdf ← _regions voronoi_diagram ids;
  Ok (centre, regions_gdf).

(** The second half: dissolve, translate back, cut, regularise. *)
Definition tessellation_cells (corner_ring : frame → Q → row → option geom)
    (centre : pyfloat * pyfloat) (regions_gdf : frame) (limit : geom)
    (queen_corners : bool) (sensitivity : Q) : result frame :=
  let morphological_tessellation := dissolve regions_gdf in
  let morphological_tessellation :=
    translate_frame centre.1 centre.2 morphological_tessellation in
  morphological_tessellation ← _cut morphological_tessellation limit;
  let morphological_tessellation :=
    if queen_corners
    then _queen_corners corner_ring morphological_tessellation sensitivity
    else morphological_tessellation in
  Ok morphological_tessellation.

Definition tessellation (corner_ring : frame → Q → row → option geom)
    (gdf : frame) (limit : geom) (shrink segment : Q)
    (queen_corners : bool) (sensitivity : Q) : result frame :=
  cr ← tessellation_regions gdf limit shrink segment;
  tessellation_cells corner_ring cr.1 cr.2 limit queen_corners sensitivity.

(** ** Street snapping *)

(** What the closures [extend_line] and [extend_line_edge] see. *)
Record snap_env : Type := mkSnapEnv {
  network : nat;
  buildings : nat;
  sindex : list bbox;
  bindex : list bbox;
  tessellation_boundary : option geom
}.

(** A Python function that ends in [return False] or falls off its end. *)
Inductive py_return : Type := ReturnFalse | ReturnNone.

(** [df.drop(idx, axis=0)] *)
Definition drop_label (idx : Z) (df : frame) : result frame :=
  if existsb (λ r, bool_decide (ix r = idx)) df
  then Ok (List.filter (λ r, negb (bool_decide (ix r = idx))) df)
  else Raise KeyError.

(** [series[label]] for a label of the series' own index: the element when
    the label occurs once; with a repeated label pandas yields a Series,
    whose comparison with a string has no truth value. *)
Definition series_get (series : list (Z * geom)) (label : Z) : result geom :=
  match List.filter (λ e, bool_decide (e.1 = label)) series with
  | [e] => Ok e.2
  | [] => Raise KeyError
  | _ => Raise ValueError
  end.

(** [l[-2:]] and [l[-3:-1]] *)
Definition slice_last_two {A} (l : list A) : list A :=
  drop (length l - 2) l.
Definition slice_m3_m1 {A} (l : list A) : list A :=
  take (length l - 1 - (length l - 3)) (drop (length l - 3) l).

Definition py_div (a b : Q) : result Q :=
  if Qeq_bool b 0 then Raise ZeroDivisionError else Ok (a / b)%Q.

(** [getExtrapoledLine]: a line of length [tolerance] from [p2] in the
    direction [p1 -> p2]. *)
Definition getExtrapoledLine (p1 p2 : coord) (tolerance : Q) : result geom :=
  let EXTRAPOL_RATIO := tolerance in
  let a := p2 in
  ratio ← py_div (Qabs (float_skew p1.2 p2.2))
                 (Qabs (float_skew p1.1 p2.1));
  let dx := (EXTRAPOL_RATIO * math_cos (math_atan ratio))%Q in
  let dy := (EXTRAPOL_RATIO * math_sin (math_atan ratio))%Q in
  let b :=
    if Qle_bool p2.1 p1.1 && Qle_bool p2.2 p1.2 then (p2.1 - dx, p2.2 - dy)%Q
    else if Qle_bool p1.1 p2.1 && Qle_bool p2.2 p1.2 then (p2.1 + dx, p2.2 - dy)%Q
    else if Qle_bool p1.1 p2.1 && Qle_bool p1.2 p2.2 then (p2.1 + dx, p2.2 + dy)%Q
    else (p2.1 - dx, p2.2 + dy)%Q in
  Ok (LineString [a; b]).

(** The vertices the ray is extrapolated from: the last two, or the two
    before the last when the last segment is degenerate; [None] is the
    early [return False]. *)
Definition extrapolation_base (l : list coord) : result (option (list coord)) :=
  p ← py_index l (-2);
  q ← py_index l (-1);
  if Qle_bool (distance (Point p) (Point q)) (1 # 1000) then
    if decide (2 < length l) then Ok (Some (slice_m3_m1 l)) else Ok None
  else Ok (Some (slice_last_two l)).

Definition extrapolate (extra : list coord) (tolerance : Q) : result geom :=
  match extra with
  | [p1; p2] => getExtrapoledLine p1 p2 tolerance
  | _ => Raise TypeError
  end.

(** The points kept from the intersections of the ray: a [Point] as it
    is, the members 0 and 1 of a [MultiPoint]. *)
Definition true_int_of (g : geom) : result (list coord) :=
  match g with
  | Point c => Ok [c]
  | MultiPoint ps =>
      p0 ← py_index ps 0;
      p1 ← py_index ps 1;
      Ok [p0; p1]
  | _ => Ok []
  end.

Definition collect_true_int (possible_intersections : list (Z * geom))
  : result (list coord) :=
  for_each (λ true_int one,
              g ← series_get possible_intersections one;
              pts ← true_int_of g;
              Ok (true_int ++ pts))
           (map fst possible_intersections) [].

(** The point that is appended: the one of [true_int] closest to the end
    of the line. *)
Definition new_point (true_int : list coord) (l : list coord) : result coord :=
  if decide (1 < length true_int) then
    endpoint ← py_index l (-1);
    minimal ← py_min_index (map (λ p, distance (Point p) (Point endpoint)) true_int);
    py_index true_int (Z.of_nat minimal)
  else py_index true_int 0.

(** The end of both closures: append the point, build the extended line,
    and write it to the network unless it goes through a building. *)
Definition commit_extension (env : snap_env) (idx : Z) (true_int : list coord)
  : snapM unit :=
  if decide (1 ≤ length true_int) then
    l ← get_l_coords;
    new_point_coords ← lift (new_point true_int l);
    _ ← set_l_coords (l ++ [new_point_coords]);
    l ← get_l_coords;
    let new_extended_line := LineString l in
    (* check whether the line goes through buildings. if so, ignore it *)
    buildings_df ← read_frame (buildings env);
    let possible_buildings_index :=
      sindex_intersection (bindex env) (bounds new_extended_line) in
    let possible_buildings := iloc buildings_df possible_buildings_index in
    let possible_intersections :=
      map (λ r, intersection (geometry r) new_extended_line) possible_buildings in
    if existsb (λ g, negb (is_empty g)) possible_intersections
    then mret ()
    else write_geometry (network env) idx new_extended_line
  else mret ().

Definition extend_line (env : snap_env) (tolerance : Q) (idx : Z)
  : snapM py_return :=
  l ← get_l_coords;
  base ← lift (extrapolation_base l);
  match base with
  | None => mret ReturnFalse
  | Some extra =>
      extrapolation ← lift (extrapolate extra tolerance);
      network_df ← read_frame (network env);
      let possible_intersections_index :=
        sindex_intersection (sindex env) (bounds extrapolation) in
      let possible_intersections_lines := iloc network_df possible_intersections_index in
      possible_intersections_clean ← lift (drop_label idx possible_intersections_lines);
      let possible_intersections :=
        map (λ r, (ix r, intersection (geometry r) extrapolation))
            possible_intersections_clean in
      if existsb (λ e, negb (is_empty e.2)) possible_intersections then
        true_int ← lift (collect_true_int possible_intersections);
        _ ← commit_extension env idx true_int;
        mret ReturnNone
      else mret ReturnFalse
  end.

Definition extend_line_edge (env : snap_env) (tolerance : Q) (idx : Z)
  : snapM py_return :=
  l ← get_l_coords;
  base ← lift (extrapolation_base l);
  match base with
  | None => mret ReturnFalse
  | Some extra =>
      extrapolation ← lift (extrapolate extra tolerance);
      geometry ← lift (match tessellation_boundary env with
                       | Some g => Ok g
                       | None => Raise AttributeError
                       end);
      let possible_intersections := intersection geometry extrapolation in
      match possible_intersections with
      | GeometryCollection _ => mret ReturnNone
      | _ =>
          true_int ← lift (true_int_of possible_intersections);
          _ ← commit_extension env idx true_int;
          mret ReturnNone
      end
  end.

(** [if extend_line(tolerance_street, idx) is False:
         extend_line_edge(tolerance_edge, idx)] *)
Definition extend_end (env : snap_env) (tolerance_street tolerance_edge : Q)
    (idx : Z) : snapM unit :=
  r ← extend_line env tolerance_street idx;
  match r with
  | ReturnFalse => _ ← extend_line_edge env tolerance_edge idx; mret ()
  | ReturnNone => mret ()
  end.

(** Is the point [p] touched by an edge other than [idx]? *)
Definition connected (env : snap_env) (idx : Z) (p : geom) : snapM bool :=
  network_df ← read_frame (network env);
  let possible_index := sindex_intersection (sindex env) (bounds p) in
  let possible_matches := iloc network_df possible_index in
  possible_matches_clean ← lift (drop_label idx possible_matches);
  mret (existsb (λ r, intersects (geometry r) p) possible_matches_clean).

(** Body of the snapping loop for one row of [network.iterrows()]. *)
Definition snap_row (env : snap_env) (tolerance_street tolerance_edge : Q)
    (r : row) : snapM unit :=
  let idx := ix r in
  let line := geometry r in
  cs ← lift (coords line);
  _ ← set_l_coords cs;
  start ← lift (py_index cs 0);
  end_ ← lift (py_index cs (-1));
  first ← connected env idx (Point start);
  second ← connected env idx (Point end_);
  if first && second then mret ()
  else if first && negb second then
    extend_end env tolerance_street tolerance_edge idx
  else if negb first && second then
    l ← get_l_coords;
    _ ← set_l_coords (reverse l);
    extend_end env tolerance_street tolerance_edge idx
  else
    _ ← extend_end env tolerance_street tolerance_edge idx;
    l ← get_l_coords;
    _ ← set_l_coords (reverse l);
    extend_end env tolerance_street tolerance_edge idx.

Fixpoint snap_loop (env : snap_env) (tolerance_street tolerance_edge : Q)
    (rows : list row) : snapM unit :=
  match rows with
  | [] => mret ()
  | r :: rows' =>
      _ ← snap_row env tolerance_street tolerance_edge r;
      snap_loop env tolerance_street tolerance_edge rows'
  end.

(** [snap_street_network_edge]: the arguments are references to the three
    frames; the result is the reference of the new network. *)
Definition snap_street_network_edge (edges buildings tessellation : nat)
    (tolerance_street tolerance_edge : Q) : snapM nat :=
  edges_df ← read_frame edges;
  buildings_df ← read_frame buildings;
  tessellation_df ← read_frame tessellation;
  network ← copy_frame edges_df;
  geometry ← lift (boundary (unary_union (map geometry tessellation_df)));
  let env := {| network := network;
                buildings := buildings;
                sindex := sindex_of edges_df;
                bindex := sindex_of buildings_df;
                tessellation_boundary := geometry |} in
  _ ← snap_loop env tolerance_street tolerance_edge edges_df;
  mret network.

(** ** Blocks *)

(** Rows of the frames that carry the block id column [id_name]; a
    missing value (NaN) is [None]. *)
Record block_row : Type := mkBlockRow {
  b_ix : Z;
  bID : option Z;
  b_geometry : geom
}.

(** [gpd.sjoin(left, right, how='left', op='intersects')] restricted to
    the columns used afterwards: every left row is paired with the block
    id of every right row it intersects, or with NaN when there is none. *)
Definition sjoin (left : frame) (right : list block_row)
  : list (row * option Z) :=
  let right_index := map (λ b, bounds (b_geometry b)) right in
  flat_map (λ l,
              let candidates :=
                omap (λ i, right !! i)
                     (sindex_intersection right_index (bounds (geometry l))) in
              match List.filter (λ b, intersects (geometry l) (b_geometry b))
                                candidates with
              | [] => [(l, None)]
              | matches => map (λ b, (l, bID b)) matches
              end) left.

(** [left.merge(table, on=unique_id)] for a table with the columns
    [unique_id] and [id_name]: an inner join in the order of the left
    rows, with a new index. *)
Definition merge (left : frame) (table : list (Z * option Z))
  : list (row * option Z) :=
  imap (λ i e, ({| ix := Z.of_nat i; uID := uID e.1; geometry := geometry e.1;
                   columns := columns e.1 |}, e.2))
       (flat_map (λ l, map (λ t, (l, t.2))
                           (List.filter (λ t, bool_decide (t.1 = uID l)) table))
                 left).

(** [Polygon(ring)] *)
Definition Polygon_from_ring (ring : geom) : result geom :=
  cs ← coords ring;
  Polygon_from_coords cs.

(** [l.remove(x)]: the first occurrence goes; none is an error. *)
Fixpoint py_remove (x : nat) (l : list nat) : result (list nat) :=
  match l with
  | [] => Raise ValueError
  | y :: l' =>
      if decide (y = x) then Ok l'
      else l'' ← py_remove x l'; Ok (y :: l'')
  end.

(** The scan that marks a block lying within another one. *)
Definition within_another (blocks : list block_row) (sindex : list bbox)
    (idx : nat) (r : block_row) : result bool :=
  let possible_matches := sindex_intersection sindex (bounds (b_geometry r)) in
  possible_matches ← py_remove idx possible_matches;
  let possible := omap (λ i, blocks !! i) possible_matches in
  Ok (existsb (λ row2, within (b_geometry r) (b_geometry row2)) possible).

(** The street-based blocks: fragments of the cells, grouped by the
    connected components of their contiguity graph. *)
Definition blocks_single_of (tessellation edges : frame)
  : result (list block_row) :=
  (* Buffering streets *)
  let street_buff :=
    map (λ r, set_geometry (buffer (geometry r) (default_buffer (1 # 10))) r)
        edges in
  let streets_index := sindex_attribute street_buff in
  (* Difference *)
  new_geom ←
    mapM (λ cell,
            streets_index ← match streets_index with
                            | Some index => Ok index
                            | None => Raise AttributeError
                            end;
            let possible_matches_index :=
              sindex_intersection streets_index (bounds cell) in
            let possible_matches := iloc street_buff possible_matches_index in
            Ok (difference cell (unary_union (map geometry possible_matches))))
         (map geometry tessellation);
  (* Defining adjacency *)
  let single_geom :=
    flat_map (λ p, match p with
                   | MultiPolygon ps => map Polygon ps
                   | _ => [p]
                   end) new_geom in
  let spatial_weights := Queen_neighbors single_geom in
  patches ← patches_of spatial_weights (length single_geom);
  (* Defining street-based blocks *)
  let blocks_single :=
    groupby (λ e : nat * geom, patches !! e.1) snd
            (imap (λ i g, (i, g)) single_geom) in
  Ok (imap (λ i '(patch, gs),
              {| b_ix := patch;
                 bID := Some (Z.of_nat (S i));
                 b_geometry := buffer (unary_union gs) (default_buffer (1 # 10)) |})
           blocks_single).

(** The final blocks: cells dissolved by block id, exploded, rebuilt from
    their exterior rings, renumbered, and without the nested ones. *)
Definition blocks_save_of (tessellation buildings_c : frame)
    (blocks_single : list block_row) : result (list block_row) :=
  (* Spatial join *)
  let centroids_tempID := sjoin buildings_c blocks_single in
  let tempID_to_uID := map (λ e, (uID e.1, e.2)) centroids_tempID in
  (* Attribute join (tesselation) *)
  let cells_copy := merge tessellation tempID_to_uID in
  (* Generating blocks *)
  let blocks :=
    map (λ '(k, gs), unary_union gs)
        (groupby snd (λ e : row * option Z, geometry e.1) cells_copy) in
  (* Multipart to singlepart *)
  let blocks := flat_map parts blocks in
  let blocks := map exterior blocks in
  blocks ← mapM (λ e : nat * geom,
                   g ← Polygon_from_ring e.2;
                   Ok {| b_ix := Z.of_nat e.1;
                         bID := Some (Z.of_nat (S e.1));
                         b_geometry := g |})
                (imap (λ i g, (i, g)) blocks);
  (* if polygon is within another one, delete it *)
  let sindex := map (λ b, bounds (b_geometry b)) blocks in
  delete ← mapM (λ e : nat * block_row, within_another blocks sindex e.1 e.2)
                (imap (λ i b, (i, b)) blocks);
  Ok (omap (λ e : block_row * bool, if e.2 then None else Some e.1)
           (zip blocks delete)).

(** [blocks]: buildings and cells with their block id, and the blocks. *)
Definition blocks (tessellation edges buildings : frame)
  : result (list (row * option Z) * list (row * option Z) * list block_row) :=
  blocks_single ← blocks_single_of tessellation edges;
  (* Generating centroids *)
  let buildings_c :=
    map (λ r, set_geometry (representative_point (geometry r)) r) buildings in
  blocks_save ← blocks_save_of tessellation buildings_c blocks_single;
  let centroids_w_bl_ID2 := sjoin buildings_c blocks_save in
  let bl_ID_to_uID := map (λ e, (uID e.1, e.2)) centroids_w_bl_ID2 in
  (* Attribute join (buildings) *)
  let buildings := merge buildings bl_ID_to_uID in
  (* Attribute join (tesselation) *)
  let cells := merge tessellation bl_ID_to_uID in
  Ok (buildings, cells, blocks_save).

End Elements.

(** ** Checking the result of tessellation *)

(** [_check_result] raises nothing and returns nothing; it issues up to
    two warnings. *)
Inductive warning : Type :=
| Collapsed (diff : gset Z)
| HasMultiPolygons (uids : list Z).

Definition _check_result (tesselation orig_gdf : frame) : list warning :=
  (* check against input layer *)
  let ids_original := map uID orig_gdf in
  let ids_generated := map uID tesselation in
  let first_ :=
    if decide (length ids_original ≠ length ids_generated) then
      let diff : gset Z := list_to_set ids_original ∖ list_to_set ids_generated in
      [Collapsed diff]
    else [] in
  (* check MultiPolygons - usually caused by error in input geometry *)
  let uids :=
    map uID (List.filter (λ r, bool_decide (geom_type (geometry r)
                                            = "MultiPolygon"%string))
                         tesselation) in
  let second_ :=
    if decide (0 < length uids) then [HasMultiPolygons uids] else [] in
  first_ ++ second_.

(** ** get_node_id *)

(** The rows of the three frames, restricted to the columns that
    [get_node_id] reads: the geometry and the edge id of an object (NaN
    is [None]), the id and the two end nodes of an edge, the id and the
    geometry of a node. *)
Record object_row : Type := mkObject {
  o_geometry : geom;
  o_edge : option Z
}.

Record edge_row : Type := mkEdge {
  edge_id : Z;
  node_start : Z;
  node_end : Z
}.

Record node_row : Type := mkNode {
  node_id : Z;
  n_geometry : geom
}.

(** [df.loc[df[column] == value].iloc[0]]: the first row that matches;
    none is an IndexError. *)
Definition first_where {A} (P : A → bool) (df : list A) : result A :=
  match List.filter P df with
  | x :: _ => Ok x
  | [] => Raise IndexError
  end.

Section NodeId.
Context `{K : GeometryKernel}.

(** [geom.centroid] (shapely). *)
Variable centroid : geom → geom.

(** Body of the loop over [objects.iterrows()]. *)
Definition get_node_id_row (nodes : list node_row) (edges : list edge_row)
    (results_list : list (option Z)) (row : object_row)
  : result (list (option Z)) :=
  match o_edge row with
  | None => Ok (results_list ++ [None])
  | Some eid =>
      let centroid := centroid (o_geometry row) in
      edge ← first_where (λ e, bool_decide (edge_id e = eid)) edges;
      let startID := node_start edge in
      start ← first_where (λ n, bool_decide (node_id n = startID)) nodes;
      let sd := distance centroid (n_geometry start) in
      let endID := node_end edge in
      end_ ← first_where (λ n, bool_decide (node_id n = endID)) nodes;
      let ed := distance centroid (n_geometry end_) in
      if negb (Qle_bool sd ed) then Ok (results_list ++ [Some endID])
      else Ok (results_list ++ [Some startID])
  end.

Definition get_node_id (objects : list object_row) (nodes : list node_row)
    (edges : list edge_row) : result (list (option Z)) :=
  for_each (get_node_id_row nodes edges) objects [].

End NodeId.

(** ** get_network_id: the nearest segment *)

(** The closures of [get_network_id] that find, for a point, the nearest
    segment of the street network.  [math.sqrt] is a parameter, and so is
    the square [x ** 2] of a float: it raises OverflowError when the
    square is too large for a double, and the square of a small number
    may be 0.0. *)
Module NetworkId.
Section Closures.
Variable math_sqrt : Q → Q.
Variable float_pow2 : Q → result Q.

Definition INFTY : Q := 1000000000000.

Definition segment : Type := (coord * coord)%type.

(** [distance(a, b)] *)
Definition distance (a b : coord) : result Q :=
  dx2 ← float_pow2 (a.1 - b.1)%Q;
  dy2 ← float_pow2 (a.2 - b.2)%Q;
  Ok (math_sqrt (dx2 + dy2)%Q).

(** [get_distance(apoint, segment)]: the nearest point of the segment
    and its distance. *)
Definition get_distance (apoint : coord) (segment : segment)
  : result (coord * Q) :=
  let a := apoint in
  let '(b, c) := segment in
  let t := ((a.1 - b.1) * (c.1 - b.1) + (a.2 - b.2) * (c.2 - b.2))%Q in
  dx2 ← float_pow2 (c.1 - b.1)%Q;
  dy2 ← float_pow2 (c.2 - b.2)%Q;
  t ← py_div t (dx2 + dy2)%Q;
  if negb (Qle_bool t 0) && negb (Qle_bool 1 t) then
    let pcoords := (t * (c.1 - b.1) + b.1, t * (c.2 - b.2) + b.2)%Q in
    dmin ← distance a pcoords;
    Ok (pcoords, dmin)
  else if Qle_bool t 0 then d ← distance a b; Ok (b, d)
  else d ← distance a c; Ok (c, d).

(** Python's [min(a, c)] and [max(a, c)]: the first argument on a tie. *)
Definition py_min (a c : Q) : Q := if negb (Qle_bool a c) then c else a.
Definition py_max (a c : Q) : Q := if negb (Qle_bool c a) then c else a.

(** [get_rtree(lines)]: the items of the index, one for every pair of
    consecutive coordinates of every line, numbered by position. *)
Definition get_rtree (lines : list (Z * list coord))
  : list (bbox * (segment * Z)) :=
  flat_map (λ '(nid, l),
              map (λ '((a, b), (c, d)),
                     let segment := ((a, b), (c, d)) in
                     let box := (py_min a c, py_min b d, py_max a c, py_max b d) in
                     (box, (segment, nid)))
                  (_pair l))
           lines.

(** [idx.intersection(pbox, objects='raw')] *)
Definition hits_of (idx : list (bbox * (segment * Z))) (pbox : bbox)
  : list (segment * Z) :=
  map snd (List.filter (λ item, bbox_intersects item.1 pbox) idx).

(** The loop over the hits of one point: the state is [(d, s)]. *)
Definition nearest_step (p : coord) (st : Q * option (segment * Z))
    (h : segment * Z) : result (Q * option (segment * Z)) :=
  let '(d, s) := st in
  r ← get_distance p h.1;
  let new_d := r.2 in
  if Qle_bool new_d d then Ok (new_d, Some h) else Ok (d, s).

(** [result[p] = s] on a dictionary kept as the list of its items in
    insertion order. *)
Fixpoint dict_set {V} (key : coord) (value : V) (d : list (coord * V))
  : list (coord * V) :=
  match d with
  | [] => [(key, value)]
  | (k, v) :: d' =>
      if coord_eqb k key then (k, value) :: d'
      else (k, v) :: dict_set key value d'
  end.

(** [get_solution(idx, points)]; the value [None] stands for the
    placeholder [(0, 0)] of a point without a solution. *)
Definition get_solution (MIN_SIZE : Q) (idx : list (bbox * (segment * Z)))
    (points : list coord) : result (list (coord * option (segment * Z))) :=
  for_each (λ result p,
              let pbox := (p.1 - MIN_SIZE, p.2 - MIN_SIZE,
                           p.1 + MIN_SIZE, p.2 + MIN_SIZE)%Q in
              let hits := hits_of idx pbox in
              st ← for_each (nearest_step p) hits (INFTY, None);
              Ok (dict_set p st.2 result))
           points [].

End Closures.

End NetworkId.

(** * Properties *)

(** ** Generic facts *)

Lemma for_each_app {A S} (body : S → A → result S) xs ys s :
  for_each body (xs ++ ys) s = (s' ← for_each body xs s; for_each body ys s').
Proof.
  revert s. induction xs as [|x xs IH]; intros s; simpl; [done|].
  destruct (body s x); simpl; [apply IH|done].
Qed.

Lemma for_each_raise {A S} (body : S → A → result S) xs x ys s s' e :
  for_each body xs s = Ok s' → body s' x = Raise e →
  for_each body (xs ++ x :: ys) s = Raise e.
Proof.
  intros Hxs Hx. rewrite for_each_app, Hxs. simpl. by rewrite Hx.
Qed.

Lemma lookup_map {A B} (f : A → B) (l : list A) (i : nat) :
  map f l !! i = f <$> l !! i.
Proof. revert i. induction l as [|x l IH]; intros [|i]; simpl; auto. Qed.

Section SeedProperties.
Context `{K : GeometryKernel}.

(** A boundary that [_point_array] accepts: none, a LineString or a
    MultiLineString. *)
Definition boundary_accepted (r : row) : Prop :=
  match boundary (geometry r) with
  | Ok None | Ok (Some (LineString _)) | Ok (Some (MultiLineString _)) => True
  | _ => False
  end.

(** The exception that ends the loop at a row: the one that [.boundary]
    raises, or "Boundary type is ..." for a boundary of another type. *)
Definition rejected_with (r : row) (e : exn) : Prop :=
  boundary (geometry r) = Raise e
  ∨ ∃ g, boundary (geometry r) = Ok (Some g)
         ∧ e = Exception (String.append "Boundary type is " (geom_type g)).

#[local] Instance boundary_accepted_dec r : Decision (boundary_accepted r).
Proof.
  unfold boundary_accepted.
  destruct (boundary (geometry r)) as [[[]|]|]; apply _.
Defined.

Lemma _point_array_row_accepted acc r :
  boundary_accepted r → ∃ acc', _point_array_row acc r = Ok acc'.
Proof.
  unfold boundary_accepted, _point_array_row.
  destruct (boundary (geometry r)) as [[[]|]|]; intros H; try done;
    cbn [mbind result_bind]; eauto.
Qed.

Lemma _point_array_row_rejected acc r :
  ¬ boundary_accepted r →
  ∃ e, rejected_with r e ∧ _point_array_row acc r = Raise e.
Proof.
  unfold boundary_accepted, rejected_with, _point_array_row.
  destruct (boundary (geometry r)) as [[[]|]|e]; intros H;
    try (by destruct H); cbn [mbind result_bind]; eauto 6.
Qed.

Lemma for_each_point_array_raises objects acc bad :
  bad ∈ objects → ¬ boundary_accepted bad →
  ∃ pre first post e,
    objects = pre ++ first :: post
    ∧ Forall boundary_accepted pre
    ∧ ¬ boundary_accepted first
    ∧ rejected_with first e
    ∧ for_each _point_array_row objects acc = Raise e.
Proof.
  revert acc. induction objects as [|r objects IH]; intros acc Hin Hbad.
  - by apply elem_of_nil in Hin.
  - destruct (decide (boundary_accepted r)) as [Hr|Hr].
    + apply elem_of_cons in Hin as [->|Hin]; [done|].
      destruct (_point_array_row_accepted acc r Hr) as [acc' Hacc].
      destruct (IH acc' Hin Hbad)
        as (pre & first & post & e & -> & Hpre & Hfirst & He & Hraise).
      exists (r :: pre), first, post, e.
      split; [done|]. split; [by constructor|]. split; [done|].
      split; [done|]. simpl. rewrite Hacc. simpl. exact Hraise.
    + destruct (_point_array_row_rejected acc r Hr) as (e & He & Hraise).
      exists [], r, objects, e.
      split; [done|]. split; [by constructor|]. split; [done|].
      split; [done|]. simpl. by rewrite Hraise.
Qed.

(** C3: when some footprint has a boundary that [_point_array] does not
    accept, the call as a whole ends at the first such footprint of the
    frame, with the exception of that footprint: the one that its
    [.boundary] raises, or "Boundary type is ..." when the boundary is
    neither a LineString nor a MultiLineString.  No points or ids are
    returned, for any footprint. *)
Theorem point_array_rejects_whole_call (objects : frame) (bad : row) :
  bad ∈ objects → ¬ boundary_accepted bad →
  ∃ pre first post e,
    objects = pre ++ first :: post
    ∧ Forall boundary_accepted pre
    ∧ ¬ boundary_accepted first
    ∧ rejected_with first e
    ∧ _point_array objects = Raise e.
Proof. apply for_each_point_array_raises. Qed.

(** C4: the erosion step buffers every footprint by [-shrink]
    with cap style 2 and join style 2, which shapely reads as flat caps
    and mitred joins. *)
Theorem erosion_is_flat_and_mitred (shrink : Q) (objects : frame) :
  erode shrink objects
  = map (λ r, set_geometry (buffer (geometry r) (erosion_args shrink)) r) objects
  ∧ distance_arg (erosion_args shrink) = (- shrink)%Q
  ∧ CAP_STYLE_of (cap_style (erosion_args shrink)) = Some cap_flat
  ∧ JOIN_STYLE_of (join_style (erosion_args shrink)) = Some join_mitre.
Proof. done. Qed.

End SeedProperties.

(** ** Selecting an extremal item *)

Section Extremal.
Variable le : Q → Q → bool.
Hypothesis le_trans : ∀ a b c, le a b = true → le b c = true → le a c = true.
Hypothesis le_total : ∀ a b, le a b = false → le b a = true.

Definition keep_first (best item : nat * Q) : nat * Q :=
  if le item.2 best.2 then best else item.

Lemma le_refl a : le a a = true.
Proof.
  destruct (le a a) eqn:E; [done|]. apply le_total in E as E'. congruence.
Qed.

Lemma keep_first_fold (all pre vs : list Q) (best : nat * Q) :
  all = pre ++ vs →
  all !! best.1 = Some best.2 →
  (∀ j v, j < length pre → all !! j = Some v → le v best.2 = true) →
  (∀ j v, j < best.1 → all !! j = Some v → le best.2 v = false) →
  let r := fold_left keep_first (imap (λ i v, (length pre + i, v)) vs) best in
  all !! r.1 = Some r.2 ∧
  (∀ j v, all !! j = Some v → le v r.2 = true) ∧
  (∀ j v, j < r.1 → all !! j = Some v → le r.2 v = false).
Proof.
  revert pre best. induction vs as [|x vs IH]; intros pre best Hall Hbest Hle Hlt.
  - simpl. split; [done|]. split; [|done].
    intros j v Hj. apply (Hle j); [|done].
    apply lookup_lt_Some in Hj. rewrite Hall, length_app in Hj. simpl in Hj. lia.
  - simpl. rewrite Nat.add_0_r.
    assert (Hx : all !! length pre = Some x).
    { rewrite Hall. by rewrite list_lookup_middle. }
    assert (Hall' : all = (pre ++ [x]) ++ vs) by (by rewrite <- app_assoc).
    assert (Heq : imap ((λ i v, (length pre + i, v)) ∘ S) vs
                  = imap (λ i v, (length (pre ++ [x]) + i, v)) vs).
    { apply imap_ext. intros i v _. simpl. rewrite length_app. simpl.
      f_equal. lia. }
    rewrite Heq. apply IH; [done|..]; unfold keep_first; simpl;
      destruct (le x best.2) eqn:E; simpl; try done.
    + intros j v Hj Hv. rewrite length_app in Hj. simpl in Hj.
      destruct (decide (j = length pre)) as [->|].
      * rewrite Hx in Hv. by inversion Hv; subst.
      * apply (Hle j); [lia|done].
    + intros j v Hj Hv. rewrite length_app in Hj. simpl in Hj.
      destruct (decide (j = length pre)) as [->|].
      * rewrite Hx in Hv. inversion Hv; subst. apply le_refl.
      * apply le_trans with best.2; [apply (Hle j); [lia|done]|by apply le_total].
    + intros j v Hj Hv.
      destruct (le x v) eqn:E'; [|done].
      assert (le v best.2 = true) by (apply (Hle j); [lia|done]).
      rewrite (le_trans x v best.2) in E; done.
Qed.

Lemma keep_first_spec (v0 : Q) (vs : list Q) :
  let r := fold_left keep_first (imap (λ i v, (S i, v)) vs) (0, v0) in
  (v0 :: vs) !! r.1 = Some r.2 ∧
  (∀ j v, (v0 :: vs) !! j = Some v → le v r.2 = true) ∧
  (∀ j v, j < r.1 → (v0 :: vs) !! j = Some v → le r.2 v = false).
Proof.
  apply (keep_first_fold (v0 :: vs) [v0] vs (0, v0)); simpl; try done.
  - intros j v Hj Hv. assert (j = 0) as -> by lia.
    simpl in Hv. inversion Hv; subst. apply le_refl.
  - intros; lia.
Qed.

End Extremal.

(** [py_max_index] returns the first position of a greatest value. *)
Lemma py_max_index_spec (values : list Q) (m : nat) :
  py_max_index values = Ok m →
  ∃ vm, values !! m = Some vm ∧
        (∀ j v, values !! j = Some v → (v <= vm)%Q) ∧
        (∀ j v, j < m → values !! j = Some v → (v < vm)%Q).
Proof.
  destruct values as [|v0 vs]; [done|]. intros Hm. inversion Hm as [Hm']. clear Hm.
  destruct (keep_first_spec Qle_bool) with (v0 := v0) (vs := vs) as (H1 & H2 & H3).
  - intros a b c Hab Hbc. apply Qle_bool_iff. apply Qle_bool_iff in Hab, Hbc.
    by apply Qle_trans with b.
  - intros a b Hab. apply Qle_bool_iff. apply Qlt_le_weak, Qnot_le_lt.
    intros H. apply Qle_bool_iff in H. congruence.
  - unfold keep_first in *. eexists. split; [exact H1|]. split.
    + intros j v Hv. apply Qle_bool_iff. by apply (H2 j).
    + intros j v Hj Hv. apply Qnot_le_lt. intros H. apply Qle_bool_iff in H.
      by rewrite (H3 j v Hj Hv) in H.
Qed.

(** [py_min_index] returns the first position of a least value. *)
Lemma py_min_index_spec (values : list Q) (m : nat) :
  py_min_index values = Ok m →
  ∃ vm, values !! m = Some vm ∧
        (∀ j v, values !! j = Some v → (vm <= v)%Q) ∧
        (∀ j v, j < m → values !! j = Some v → (vm < v)%Q).
Proof.
  destruct values as [|v0 vs]; [done|]. intros Hm. inversion Hm as [Hm']. clear Hm.
  destruct (keep_first_spec (λ a b, Qle_bool b a)) with (v0 := v0) (vs := vs)
    as (H1 & H2 & H3).
  - intros a b c Hab Hbc. apply Qle_bool_iff. apply Qle_bool_iff in Hab, Hbc.
    by apply Qle_trans with b.
  - intros a b Hab. apply Qle_bool_iff. apply Qlt_le_weak, Qnot_le_lt.
    intros H. apply Qle_bool_iff in H. congruence.
  - unfold keep_first in *. eexists. split; [exact H1|]. split.
    + intros j v Hv. apply Qle_bool_iff. by apply (H2 j).
    + intros j v Hj Hv. apply Qnot_le_lt. intros H. apply Qle_bool_iff in H.
      by rewrite (H3 j v Hj Hv) in H.
Qed.

(** ** Clipping *)

Section CutProperties.
Context `{K : GeometryKernel}.

(** The polygonal member of a collection that is assigned last. *)
Definition last_polygon (gs : list geom) : option geom :=
  fold_left (λ acc g, match g with Polygon _ => Some g | _ => acc end) gs None.

(** What the cutting loop assigns to a row with geometry [g]; [None]
    when it assigns nothing. *)
Definition clip_resolution (limit g : geom) : result (option geom) :=
  match intersection g limit with
  | MultiPolygon ps =>
      maximal ← py_max_index (map (λ p, area (Polygon p)) ps);
      match ps !! maximal with
      | Some p => Ok (Some (Polygon p))
      | None => Raise IndexError
      end
  | GeometryCollection gs => Ok (last_polygon gs)
  | i => Ok (Some i)
  end.

Definition assign (idx : Z) (og : option geom) (t : frame) : frame :=
  match og with
  | Some g => loc_set idx g t
  | None => t
  end.

(** The row [r] after the cut, when it is one of the selected rows. *)
Definition clipped (limit : geom) (r : row) : row :=
  match clip_resolution limit (geometry r) with
  | Ok (Some g) => set_geometry g r
  | _ => r
  end.

(** The index labels selected for cutting. *)
Definition cut_subselection (tessellation : frame) (geometry_cut : list geom)
  : list Z :=
  map ix (drop_duplicates (cut_candidates tessellation geometry_cut)).

Lemma loc_set_loc_set idx g1 g2 t :
  loc_set idx g2 (loc_set idx g1 t) = loc_set idx g2 t.
Proof.
  unfold loc_set. rewrite map_map. apply map_ext. intros r.
  destruct (decide (ix r = idx)); simpl; [|by rewrite decide_False].
  by rewrite decide_True.
Qed.

Lemma assign_collection idx gs og t :
  fold_left (λ t g, match g with
                    | Polygon _ => loc_set idx g t
                    | _ => t
                    end) gs (assign idx og t)
  = assign idx (fold_left (λ acc g, match g with
                                    | Polygon _ => Some g
                                    | _ => acc
                                    end) gs og) t.
Proof.
  revert og. induction gs as [|g gs IH]; intros og; [done|].
  simpl. destruct g; try apply IH.
  rewrite <- IH. f_equal. destruct og; simpl; [apply loc_set_loc_set|done].
Qed.

Lemma _cut_row_resolution limit t r :
  _cut_row limit t r
  = (og ← clip_resolution limit (geometry r); Ok (assign (ix r) og t)).
Proof.
  unfold _cut_row, clip_resolution.
  destruct (intersection (geometry r) limit) eqn:E; try done.
  - destruct (py_max_index _); simpl; [|done]. by destruct (ps !! a).
  - simpl. unfold last_polygon. by rewrite <- assign_collection.
Qed.

Lemma ix_injective (t0 : frame) r r' :
  NoDup (map ix t0) → r ∈ t0 → r' ∈ t0 → ix r = ix r' → r = r'.
Proof.
  induction t0 as [|x t0 IH]; intros Hnd Hr Hr' Hix.
  - by apply elem_of_nil in Hr.
  - simpl in Hnd. apply NoDup_cons in Hnd as [Hx Hnd].
    apply elem_of_cons in Hr as [->|Hr]; apply elem_of_cons in Hr' as [->|Hr'].
    + done.
    + exfalso. apply Hx. rewrite Hix. by apply list_elem_of_In, in_map, list_elem_of_In.
    + exfalso. apply Hx. rewrite <- Hix. by apply list_elem_of_In, in_map, list_elem_of_In.
    + by apply IH.
Qed.

Lemma clipped_keeps limit r :
  ix (clipped limit r) = ix r ∧ uID (clipped limit r) = uID r
  ∧ columns (clipped limit r) = columns r.
Proof. unfold clipped. by destruct (clip_resolution _ _) as [[]|]. Qed.

Lemma assign_step limit (t0 : frame) (done : list Z) r og :
  NoDup (map ix t0) → r ∈ t0 →
  clip_resolution limit (geometry r) = Ok og →
  assign (ix r) og
         (map (λ r', if decide (ix r' ∈ done) then clipped limit r' else r') t0)
  = map (λ r', if decide (ix r' ∈ ix r :: done) then clipped limit r' else r') t0.
Proof.
  intros Hnd Hr Hog.
  assert (Hclip : clipped limit r = match og with
                                    | Some g => set_geometry g r
                                    | None => r
                                    end).
  { unfold clipped. by rewrite Hog. }
  assert (Hkeep : ∀ r' : row, ix r' ≠ ix r →
            (if decide (ix r' ∈ ix r :: done) then clipped limit r' else r')
            = (if decide (ix r' ∈ done) then clipped limit r' else r')).
  { intros r' Hne. destruct (decide (ix r' ∈ done)).
    - rewrite decide_True; [done|by right].
    - rewrite decide_False; [done|]. intros [?|?]%elem_of_cons; done. }
  assert (Hhead : (if decide (ix r ∈ ix r :: done) then clipped limit r else r)
                  = clipped limit r).
  { rewrite decide_True; [done|by left]. }
  destruct og as [g|]; simpl.
  - unfold loc_set. rewrite map_map. apply map_ext_in. intros r' Hr'.
    apply list_elem_of_In in Hr'.
    assert (Hix : ix (if decide (ix r' ∈ done) then clipped limit r' else r')
                  = ix r').
    { destruct (decide (ix r' ∈ done)); [apply clipped_keeps|done]. }
    rewrite Hix. destruct (decide (ix r' = ix r)) as [Heq|Hne].
    + assert (r' = r) as -> by (by apply (ix_injective t0)).
      rewrite Hhead, Hclip.
      by destruct (decide (ix r ∈ done)).
    + by rewrite Hkeep.
  - apply map_ext_in. intros r' Hr'. apply list_elem_of_In in Hr'.
    destruct (decide (ix r' = ix r)) as [Heq|Hne].
    + assert (r' = r) as -> by (by apply (ix_injective t0)).
      rewrite Hhead, Hclip.
      by destruct (decide (ix r ∈ done)).
    + by rewrite Hkeep.
Qed.

Lemma for_each_cut limit (t0 rows : frame) (done : list Z) t' :
  NoDup (map ix t0) → (∀ r, r ∈ rows → r ∈ t0) →
  for_each (_cut_row limit) rows
    (map (λ r', if decide (ix r' ∈ done) then clipped limit r' else r') t0)
  = Ok t' →
  t' = map (λ r', if decide (ix r' ∈ rev (map ix rows) ++ done)
                  then clipped limit r' else r') t0
  ∧ ∀ r, r ∈ rows → ∃ og, clip_resolution limit (geometry r) = Ok og.
Proof.
  intros Hnd. revert done. induction rows as [|r rows IH]; intros done Hsub Hfor.
  - simpl in *. inversion Hfor. split; [done|]. intros r Hr.
    by apply elem_of_nil in Hr.
  - simpl in Hfor. rewrite _cut_row_resolution in Hfor.
    destruct (clip_resolution limit (geometry r)) as [og|] eqn:Hog; [|done].
    simpl in Hfor. rewrite (assign_step limit t0 done r og) in Hfor;
      [|done|apply Hsub; by left|done].
    apply IH in Hfor as [-> Hall]; [|intros; apply Hsub; by right].
    split.
    + simpl. by rewrite <- app_assoc.
    + intros r' [->|Hr']%elem_of_cons; eauto.
Qed.

Lemma loc_rows_sub (t0 : frame) labels r :
  r ∈ loc_rows t0 labels → r ∈ t0 ∧ ix r ∈ labels.
Proof.
  unfold loc_rows. intros H. apply list_elem_of_In, in_flat_map in H.
  destruct H as (l & Hl & Hr). apply filter_In in Hr as [Hr Hix].
  apply bool_decide_eq_true in Hix. subst l.
  by rewrite !list_elem_of_In.
Qed.

Lemma loc_rows_in (t0 : frame) labels r :
  r ∈ t0 → ix r ∈ labels → r ∈ loc_rows t0 labels.
Proof.
  intros Hr Hl. unfold loc_rows. apply list_elem_of_In, in_flat_map.
  exists (ix r). split; [by apply list_elem_of_In|].
  apply filter_In. split; [by apply list_elem_of_In|].
  by apply bool_decide_eq_true.
Qed.

(** The cut as a whole: with distinct index labels, it replaces every
    selected row by its clipped version and leaves the others alone. *)
Lemma _cut_spec (t0 : frame) (limit : geom) (t' : frame) :
  NoDup (map ix t0) → _cut t0 limit = Ok t' →
  ∃ geometry_cut,
    _split_lines limit 100 = Ok geometry_cut ∧
    t' = map (λ r, if decide (ix r ∈ cut_subselection t0 geometry_cut)
                   then clipped limit r else r) t0 ∧
    ∀ r, r ∈ t0 → ix r ∈ cut_subselection t0 geometry_cut →
         ∃ og, clip_resolution limit (geometry r) = Ok og.
Proof.
  intros Hnd Hcut. unfold _cut in Hcut.
  destruct (_split_lines limit 100) as [geometry_cut|] eqn:Hsplit; [|done].
  simpl in Hcut. exists geometry_cut. split; [done|].
  fold (cut_subselection t0 geometry_cut) in Hcut.
  assert (Ht0 : t0 = map (λ r', if decide (ix r' ∈ @nil Z)
                                then clipped limit r' else r') t0).
  { rewrite <- (map_id t0) at 1. apply map_ext. intros r.
    rewrite decide_False; [done|]. apply not_elem_of_nil. }
  assert (Hcut' : for_each (_cut_row limit)
                    (loc_rows t0 (cut_subselection t0 geometry_cut))
                    (map (λ r', if decide (ix r' ∈ @nil Z)
                                then clipped limit r' else r') t0) = Ok t').
  { by rewrite <- Ht0. }
  clear Hcut. apply for_each_cut in Hcut' as [-> Hall]; [|done|].
  - split.
    + apply map_ext_in. intros r Hr. apply list_elem_of_In in Hr.
      rewrite app_nil_r.
      destruct (decide (ix r ∈ cut_subselection t0 geometry_cut)) as [Hin|Hnin].
      * rewrite decide_True; [done|].
        apply list_elem_of_In. rewrite <- in_rev.
        apply in_map, list_elem_of_In. by apply loc_rows_in.
      * rewrite decide_False; [done|].
        rewrite list_elem_of_In, <- in_rev, in_map_iff.
        intros (r' & Hix & Hr'). apply list_elem_of_In in Hr'.
        apply loc_rows_sub in Hr' as [_ Hr']. by rewrite Hix in Hr'.
    + intros r Hr Hin. apply Hall. by apply loc_rows_in.
  - intros r Hr. by apply loc_rows_sub in Hr as [? _].
Qed.

Lemma for_each_cut_ok limit (t0 rows : frame) (done : list Z) :
  NoDup (map ix t0) → (∀ r, r ∈ rows → r ∈ t0) →
  (∀ r, r ∈ rows → ∃ og, clip_resolution limit (geometry r) = Ok og) →
  ∃ t', for_each (_cut_row limit) rows
          (map (λ r', if decide (ix r' ∈ done) then clipped limit r' else r') t0)
        = Ok t'.
Proof.
  intros Hnd. revert done. induction rows as [|r rows IH]; intros done Hsub Hok.
  - simpl. eauto.
  - simpl. rewrite _cut_row_resolution.
    destruct (Hok r) as [og Hog]; [by left|]. rewrite Hog. simpl.
    rewrite (assign_step limit t0 done r og); [|done|apply Hsub; by left|done].
    apply IH; intros; [apply Hsub|apply Hok]; by right.
Qed.

Lemma _cut_ok (t0 : frame) (limit : geom) (geometry_cut : list geom) :
  NoDup (map ix t0) → _split_lines limit 100 = Ok geometry_cut →
  (∀ r, r ∈ t0 → ix r ∈ cut_subselection t0 geometry_cut →
        ∃ og, clip_resolution limit (geometry r) = Ok og) →
  _cut t0 limit
  = Ok (map (λ r, if decide (ix r ∈ cut_subselection t0 geometry_cut)
                  then clipped limit r else r) t0).
Proof.
  intros Hnd Hsplit Hok.
  destruct (for_each_cut_ok limit t0
              (loc_rows t0 (cut_subselection t0 geometry_cut)) [] Hnd)
    as [t' Ht'].
  - intros r Hr. by apply loc_rows_sub in Hr as [? _].
  - intros r Hr. apply loc_rows_sub in Hr as [? ?]. by apply Hok.
  - assert (Ht0 : t0 = map (λ r', if decide (ix r' ∈ @nil Z)
                                  then clipped limit r' else r') t0).
    { rewrite <- (map_id t0) at 1. apply map_ext. intros r.
      rewrite decide_False; [done|]. apply not_elem_of_nil. }
    rewrite <- Ht0 in Ht'.
    assert (Hcut : _cut t0 limit = Ok t').
    { unfold _cut. rewrite Hsplit. simpl. exact Ht'. }
    rewrite Hcut. destruct (_cut_spec t0 limit t' Hnd Hcut) as (gc & Hgc & -> & _).
    rewrite Hsplit in Hgc. by inversion Hgc.
Qed.

(** *** Which rows are selected *)

Lemma sindex_intersection_spec (sindex : list bbox) (q : bbox) (i : nat) :
  i ∈ sindex_intersection sindex q
  ↔ ∃ b, sindex !! i = Some b ∧ bbox_intersects b q = true.
Proof.
  unfold sindex_intersection. rewrite list_elem_of_omap. split.
  - intros ([j b] & Hin & Hb). apply elem_of_lookup_imap in Hin as (k & b' & Heq & Hk).
    inversion Heq; subst. destruct (bbox_intersects b' q) eqn:E; [|done].
    inversion Hb; subst. eauto.
  - intros (b & Hb & Hq). exists (i, b). split.
    + apply elem_of_lookup_imap. eauto.
    + by rewrite Hq.
Qed.

Lemma iloc_spec (df : frame) (positions : list nat) (r : row) :
  r ∈ iloc df positions ↔ ∃ i, i ∈ positions ∧ df !! i = Some r.
Proof. unfold iloc. apply list_elem_of_omap. Qed.

(** A row crosses the limit boundary when it meets one of its chords:
    first by bounding box in the index, then by the exact predicate. *)
Definition crosses_boundary (geometry_cut : list geom) (r : row) : Prop :=
  ∃ poly, poly ∈ geometry_cut ∧
          bbox_intersects (bounds (geometry r)) (bounds poly) = true ∧
          intersects (geometry r) poly = true.

Lemma cut_candidates_spec (t0 : frame) (geometry_cut : list geom) (r : row) :
  r ∈ cut_candidates t0 geometry_cut
  ↔ r ∈ t0 ∧ crosses_boundary geometry_cut r.
Proof.
  unfold cut_candidates, crosses_boundary.
  rewrite list_elem_of_In, in_flat_map. split.
  - intros (poly & Hpoly & Hr). apply filter_In in Hr as [Hr Hint].
    apply list_elem_of_In, iloc_spec in Hr as (i & Hi & Hri).
    apply sindex_intersection_spec in Hi as (b & Hb & Hq).
    unfold sindex_of in Hb. rewrite lookup_map, Hri in Hb.
    inversion Hb; subst. split; [by eapply list_elem_of_lookup_2|].
    exists poly. by rewrite list_elem_of_In.
  - intros (Hr & poly & Hpoly & Hq & Hint). exists poly.
    split; [by apply list_elem_of_In|]. apply filter_In. split; [|done].
    apply list_elem_of_In, iloc_spec.
    apply list_elem_of_lookup_1 in Hr as [i Hi]. exists i. split; [|done].
    apply sindex_intersection_spec. exists (bounds (geometry r)).
    split; [|done]. unfold sindex_of. by rewrite lookup_map, Hi.
Qed.

Lemma drop_duplicates_from_sub seen (df : frame) r :
  r ∈ drop_duplicates_from seen df → r ∈ df.
Proof.
  revert seen. induction df as [|x df IH]; intros seen; simpl; [done|].
  case_decide.
  - intros H'. right. by eapply IH.
  - intros [->|H']%elem_of_cons; [by left|]. right. by eapply IH.
Qed.

Lemma drop_duplicates_from_covers seen (df : frame) r :
  r ∈ df → uID r ∉ seen →
  ∃ r', r' ∈ drop_duplicates_from seen df ∧ uID r' = uID r.
Proof.
  revert seen. induction df as [|x df IH]; intros seen Hr Hseen.
  - by apply elem_of_nil in Hr.
  - simpl. destruct (decide (uID x = uID r)) as [Heq|Hne].
    + rewrite decide_False by (by rewrite Heq). exists x. split; [by left|done].
    + apply elem_of_cons in Hr as [->|Hr]; [done|].
      case_decide.
      * by apply IH.
      * destruct (IH (uID x :: seen) Hr) as (r' & ? & ?).
        { intros [?|?]%elem_of_cons; [congruence|done]. }
        exists r'. split; [by right|done].
Qed.

Lemma NoDup_map_injective {B} (f : row → B) (t0 : frame) r r' :
  NoDup (map f t0) → r ∈ t0 → r' ∈ t0 → f r = f r' → r = r'.
Proof.
  induction t0 as [|x t0 IH]; intros Hnd Hr Hr' Hf.
  - by apply elem_of_nil in Hr.
  - simpl in Hnd. apply NoDup_cons in Hnd as [Hx Hnd].
    apply elem_of_cons in Hr as [->|Hr]; apply elem_of_cons in Hr' as [->|Hr'].
    + done.
    + exfalso. apply Hx. rewrite Hf. by apply list_elem_of_In, in_map, list_elem_of_In.
    + exfalso. apply Hx. rewrite <- Hf. by apply list_elem_of_In, in_map, list_elem_of_In.
    + by apply IH.
Qed.

Lemma cut_subselection_spec (t0 : frame) (geometry_cut : list geom) (r : row) :
  NoDup (map ix t0) → NoDup (map uID t0) → r ∈ t0 →
  ix r ∈ cut_subselection t0 geometry_cut ↔ crosses_boundary geometry_cut r.
Proof.
  intros Hix Huid Hr. unfold cut_subselection, drop_duplicates. split.
  - intros Hin. apply list_elem_of_In, in_map_iff in Hin as (r' & Heq & Hr').
    apply list_elem_of_In, drop_duplicates_from_sub, cut_candidates_spec in Hr'
      as [Hr' Hcross].
    by rewrite <- (NoDup_map_injective ix t0 r' r).
  - intros Hcross.
    destruct (drop_duplicates_from_covers [] (cut_candidates t0 geometry_cut) r)
      as (r' & Hr' & Heq).
    { by apply cut_candidates_spec. }
    { apply not_elem_of_nil. }
    assert (r' = r) as ->.
    { apply (NoDup_map_injective uID t0); [done| |done|done].
      apply drop_duplicates_from_sub in Hr'.
      by apply cut_candidates_spec in Hr' as [? _]. }
    by apply list_elem_of_In, in_map, list_elem_of_In.
Qed.

(** *** The three resolutions *)

Definition not_polygon (g : geom) : Prop := geom_type g ≠ "Polygon"%string.

Lemma last_polygon_skip (post : list geom) (acc : option geom) :
  Forall not_polygon post →
  fold_left (λ acc g, match g with Polygon _ => Some g | _ => acc end) post acc
  = acc.
Proof.
  revert acc. induction post as [|g post IH]; intros acc Hpost; [done|].
  apply Forall_cons in Hpost as [Hg Hpost]. simpl.
  destruct g; try (by apply IH). by destruct Hg.
Qed.

Lemma last_polygon_last (pre post : list geom) (p : polygon) :
  Forall not_polygon post →
  last_polygon (pre ++ Polygon p :: post) = Some (Polygon p).
Proof.
  intros Hpost. unfold last_polygon. rewrite fold_left_app. simpl.
  by apply last_polygon_skip.
Qed.

Lemma last_polygon_none (gs : list geom) :
  Forall not_polygon gs → last_polygon gs = None.
Proof. apply last_polygon_skip. Qed.

Lemma last_polygon_Some (gs : list geom) (r : geom) :
  last_polygon gs = Some r → (∃ p, r = Polygon p) ∧ r ∈ gs.
Proof.
  unfold last_polygon.
  assert (H : ∀ acc, fold_left (λ acc g, match g with
                                       | Polygon _ => Some g
                                       | _ => acc
                                       end) gs acc = Some r →
              ((∃ p, r = Polygon p) ∧ r ∈ gs) ∨ acc = Some r).
  { induction gs as [|g gs IH]; intros acc Hacc; [by right|].
    simpl in Hacc. destruct g;
      try (destruct (IH _ Hacc) as [[? ?]|?]; [left; split; [done|by right]|by right]).
    destruct (IH _ Hacc) as [[? ?]|Heq]; [left; split; [done|by right]|].
    inversion Heq; subst. left. split; [eauto|by left]. }
  intros Hr. by destruct (H None Hr).
Qed.

(** The geometry of the row [r'] is what the cut makes of the
    intersection of the row [r] with the limit: the polygon itself; the
    first part of largest area of a multi-polygon; the last polygon of a
    collection, or the old geometry when it has none; any other result as
    it is. *)
Definition replaced_by_clip (limit : geom) (r r' : row) : Prop :=
  match intersection (geometry r) limit with
  | Polygon p => geometry r' = Polygon p
  | MultiPolygon ps =>
      ∃ m p, ps !! m = Some p ∧ geometry r' = Polygon p ∧
             (∀ q, q ∈ ps → (area (Polygon q) <= area (Polygon p))%Q) ∧
             (∀ j q, j < m → ps !! j = Some q →
                     (area (Polygon q) < area (Polygon p))%Q)
  | GeometryCollection gs =>
      (∀ pre p post, gs = pre ++ Polygon p :: post →
                     Forall not_polygon post → geometry r' = Polygon p)
      ∧ (Forall not_polygon gs → geometry r' = geometry r)
  | other => geometry r' = other
  end.

(** C2: in [_cut], a cell that crosses the limit boundary is replaced by
    its intersection with the limit when that is a single polygon, by the
    (first) largest-area part when it is a multi-polygon, and by the last
    polygonal member when it is a geometry collection, the other members
    being skipped. *)
Theorem cut_clip_resolution (t0 t' : frame) (limit : geom)
    (geometry_cut : list geom) (i : nat) (r : row) :
  NoDup (map ix t0) → NoDup (map uID t0) →
  _cut t0 limit = Ok t' →
  _split_lines limit 100 = Ok geometry_cut →
  t0 !! i = Some r →
  crosses_boundary geometry_cut r →
  ∃ r', t' !! i = Some r' ∧
        ix r' = ix r ∧ uID r' = uID r ∧ columns r' = columns r ∧
        replaced_by_clip limit r r'.
Proof.
  intros Hix Huid Hcut Hsplit Hi Hcross. unfold replaced_by_clip.
  destruct (_cut_spec t0 limit t' Hix Hcut) as (gc & Hgc & -> & Hres).
  rewrite Hsplit in Hgc. inversion Hgc; subst gc. clear Hgc.
  assert (Hr : r ∈ t0) by (by eapply list_elem_of_lookup_2).
  assert (Hsel : ix r ∈ cut_subselection t0 geometry_cut).
  { by apply cut_subselection_spec. }
  exists (clipped limit r). split.
  { rewrite lookup_map, Hi. simpl. by rewrite decide_True. }
  destruct (clipped_keeps limit r) as (? & ? & ?).
  do 3 (split; [done|]).
  destruct (Hres r Hr Hsel) as [og Hog].
  unfold clipped. rewrite Hog. unfold clip_resolution in Hog.
  destruct (intersection (geometry r) limit) as [| | | | | |ps|gs] eqn:E;
    try (inversion Hog; subst; done).
  - destruct (py_max_index _) as [m|] eqn:Hm; [|done]. simpl in Hog.
    destruct (ps !! m) as [p|] eqn:Hp; [|done]. inversion Hog; subst og.
    apply py_max_index_spec in Hm as (vm & Hvm & Hmax & Hfirst).
    rewrite lookup_map, Hp in Hvm. inversion Hvm; subst vm.
    exists m, p. repeat split; [done|..].
    + intros q Hq. apply list_elem_of_lookup_1 in Hq as [j Hj].
      apply (Hmax j). by rewrite lookup_map, Hj.
    + intros j q Hj Hq. apply (Hfirst j); [done|]. by rewrite lookup_map, Hq.
  - inversion Hog; subst og. split.
    + intros pre p post -> Hpost. by rewrite last_polygon_last.
    + intros Hnone. by rewrite last_polygon_none.
Qed.

(** *** Cutting twice *)

(** The pieces of an intersection result that the cut may assign. *)
Definition clip_piece (x r : geom) : Prop :=
  match x with
  | MultiPolygon ps => ∃ p, p ∈ ps ∧ r = Polygon p
  | GeometryCollection gs => (∃ p, r = Polygon p) ∧ r ∈ gs
  | _ => r = x
  end.

(** An exact kernel: what it returns as (a piece of) an intersection
    with [limit] lies within [limit], so intersecting it with [limit]
    again returns it unchanged. *)
Definition clip_absorbing (limit : geom) : Prop :=
  ∀ g r, clip_piece (intersection g limit) r → intersection r limit = r.

Lemma clip_resolution_piece limit g r :
  clip_resolution limit g = Ok (Some r) →
  clip_piece (intersection g limit) r
  ∧ match r with MultiPolygon _ | GeometryCollection _ => False | _ => True end.
Proof.
  unfold clip_resolution, clip_piece.
  destruct (intersection g limit) as [| | | | | |ps|gs] eqn:E;
    try (intros Hr; by inversion Hr).
  - destruct (py_max_index _) as [m|]; [|done]. simpl.
    destruct (ps !! m) as [p|] eqn:Hp; [|done]. intros Hr. inversion Hr.
    split; [|done]. exists p. split; [by eapply list_elem_of_lookup_2|done].
  - intros Hr. inversion Hr as [Hlast].
    apply last_polygon_Some in Hlast as [[p ->] Hin]. split; [|done].
    split; [eauto|done].
Qed.

Lemma clip_resolution_idem limit g r :
  clip_absorbing limit →
  clip_resolution limit g = Ok (Some r) →
  clip_resolution limit r = Ok (Some r).
Proof.
  intros Habs Hr. apply clip_resolution_piece in Hr as [Hpiece Hkind].
  unfold clip_resolution. rewrite (Habs g r Hpiece). by destruct r.
Qed.

Lemma map_ix_clipped limit (sel : row → bool) (t0 : frame) :
  map ix (map (λ r, if sel r then clipped limit r else r) t0) = map ix t0
  ∧ map uID (map (λ r, if sel r then clipped limit r else r) t0) = map uID t0.
Proof.
  rewrite !map_map. split; apply map_ext; intros r;
    destruct (sel r); try done; apply clipped_keeps.
Qed.

(** C9: on an exact kernel, cutting a tessellation that was already cut
    with the same limit changes nothing. *)
Theorem cut_idempotent (t0 t1 : frame) (limit : geom) :
  clip_absorbing limit →
  NoDup (map ix t0) → NoDup (map uID t0) →
  _cut t0 limit = Ok t1 →
  _cut t1 limit = Ok t1.
Proof.
  intros Habs Hix Huid Hcut.
  destruct (_cut_spec t0 limit t1 Hix Hcut) as (gc & Hsplit & Ht1 & Hres).
  set (sel := λ r : row, bool_decide (ix r ∈ cut_subselection t0 gc)).
  assert (Ht1' : t1 = map (λ r, if sel r then clipped limit r else r) t0).
  { rewrite Ht1. apply map_ext. intros r. unfold sel.
    by destruct (decide (ix r ∈ cut_subselection t0 gc));
      [rewrite bool_decide_eq_true_2|rewrite bool_decide_eq_false_2]. }
  destruct (map_ix_clipped limit sel t0) as [Hix1 Huid1].
  rewrite <- Ht1' in Hix1, Huid1.
  assert (Hix' : NoDup (map ix t1)) by (by rewrite Hix1).
  assert (Huid' : NoDup (map uID t1)) by (by rewrite Huid1).
  assert (Hfixed : ∀ r1, r1 ∈ t1 → ix r1 ∈ cut_subselection t1 gc →
            (∃ og, clip_resolution limit (geometry r1) = Ok og)
            ∧ clipped limit r1 = r1).
  { intros r1 Hr1 Hsel1.
    assert (Hr1' := Hr1). rewrite Ht1' in Hr1'.
    apply list_elem_of_In, in_map_iff in Hr1' as (r & Heq & Hr).
    apply list_elem_of_In in Hr.
    apply (cut_subselection_spec t1 gc r1 Hix' Huid' Hr1) in Hsel1.
    unfold sel in Heq.
    destruct (decide (ix r ∈ cut_subselection t0 gc)) as [Hsel|Hnsel].
    - rewrite bool_decide_eq_true_2 in Heq by done. subst r1.
      destruct (Hres r Hr Hsel) as [og Hog].
      destruct og as [g|].
      + assert (Hr1g : clipped limit r = set_geometry g r).
        { unfold clipped. by rewrite Hog. }
        pose proof (clip_resolution_idem limit _ g Habs Hog) as Hidem.
        rewrite Hr1g. unfold clipped.
        change (geometry (set_geometry g r)) with g. rewrite Hidem.
        split; [eauto|done].
      + assert (Hr1g : clipped limit r = r).
        { unfold clipped. by rewrite Hog. }
        rewrite Hr1g. split; [eauto|]. unfold clipped. by rewrite Hog.
    - rewrite bool_decide_eq_false_2 in Heq by done. subst r1.
      exfalso. apply Hnsel. by apply cut_subselection_spec. }
  rewrite (_cut_ok t1 limit gc Hix' Hsplit).
  - f_equal. transitivity (map id t1); [|apply map_id].
    apply map_ext_in. intros r1 Hr1.
    apply list_elem_of_In in Hr1.
    destruct (decide (ix r1 ∈ cut_subselection t1 gc)); [|done].
    by apply Hfixed.
  - intros r1 Hr1 Hsel1. by apply Hfixed.
Qed.

End CutProperties.

(** ** One cell per surviving id *)

Section DissolveProperties.
Context `{K : GeometryKernel}.

Lemma group_insert_keys (k : Z) (g : geom) (groups : list (Z * list geom)) :
  StronglySorted Z.lt (map fst groups) →
  StronglySorted Z.lt (map fst (group_insert k g groups))
  ∧ ∀ u, u ∈ map fst (group_insert k g groups) ↔ u = k ∨ u ∈ map fst groups.
Proof.
  induction groups as [|[k' gs] groups IH]; intros Hs; simpl.
  - split; [repeat constructor|]. intros u. rewrite elem_of_cons.
    split; intros [?|?]; auto.
  - apply StronglySorted_inv in Hs as [Hs Hk'].
    destruct (decide (k = k')) as [->|Hne]; [|destruct (decide (k < k')%Z)]; simpl.
    + split; [by constructor|]. intros u. rewrite !elem_of_cons. tauto.
    + split.
      * constructor; [by constructor|]. constructor; [done|].
        eapply Forall_impl; [exact Hk'|]. simpl. lia.
      * intros u. rewrite !elem_of_cons. tauto.
    + destruct (IH Hs) as [Hs' Hkeys]. split.
      * constructor; [done|]. apply Forall_forall. intros u Hu.
        apply Hkeys in Hu as [->|Hu]; [lia|].
        by eapply Forall_forall in Hk'.
      * intros u. rewrite !elem_of_cons, Hkeys. tauto.
Qed.

Lemma groupby_keys {A} (key : A → option Z) (geom_of : A → geom) (df : list A) :
  StronglySorted Z.lt (map fst (groupby key geom_of df))
  ∧ ∀ u, u ∈ map fst (groupby key geom_of df) ↔ ∃ r, r ∈ df ∧ key r = Some u.
Proof.
  unfold groupby.
  assert (H : ∀ groups,
    StronglySorted Z.lt (map fst groups) →
    let out := fold_left (λ groups r, match key r with
                                      | Some k => group_insert k (geom_of r) groups
                                      | None => groups
                                      end) df groups in
    StronglySorted Z.lt (map fst out)
    ∧ ∀ u, u ∈ map fst out
           ↔ u ∈ map fst groups ∨ ∃ r, r ∈ df ∧ key r = Some u).
  { induction df as [|r df IH]; intros groups Hs; simpl.
    - split; [done|]. intros u. split; [auto|].
      intros [?|(r & Hr & _)]; [done|]. by apply elem_of_nil in Hr.
    - destruct (key r) as [k|] eqn:Hk.
      + destruct (group_insert_keys k (geom_of r) groups Hs) as [Hs' Hkeys].
        destruct (IH _ Hs') as [Hs'' Hkeys'']. split; [done|].
        intros u. rewrite Hkeys'', Hkeys. split.
        * intros [[->|?]|(r' & ? & ?)]; [right; exists r; split; [by left|done]
                                        |by left|].
          right. exists r'. split; [by right|done].
        * intros [?|(r' & [->|?]%elem_of_cons & Hr')]; [by left; right| |].
          -- left. left. congruence.
          -- right. eauto.
      + destruct (IH _ Hs) as [Hs'' Hkeys'']. split; [done|].
        intros u. rewrite Hkeys''. split.
        * intros [?|(r' & ? & ?)]; [by left|]. right. exists r'.
          split; [by right|done].
        * intros [?|(r' & [->|?]%elem_of_cons & Hr')]; [by left|congruence|].
          right. eauto. }
  destruct (H [] (SSorted_nil _)) as [Hs Hkeys]. split; [done|].
  intros u. rewrite Hkeys. split; [|auto].
  intros [Hu|?]; [|done]. by apply elem_of_nil in Hu.
Qed.

Lemma StronglySorted_lt_NoDup (l : list Z) : StronglySorted Z.lt l → NoDup l.
Proof.
  induction 1 as [|x l Hs IH Hx]; constructor; [|done].
  intros Hin. eapply Forall_forall in Hx; [|exact Hin]. lia.
Qed.

Lemma map_uID_imap (f : nat → Z * list geom → row) (groups : list (Z * list geom)) :
  (∀ i e, uID (f i e) = e.1) → map uID (imap f groups) = map fst groups.
Proof.
  revert f. induction groups as [|e groups IH]; intros f Hf; [done|].
  simpl. rewrite Hf. f_equal. apply IH. intros i e'. apply Hf.
Qed.

Lemma map_uID_dissolve (df : frame) :
  map uID (dissolve df) = map fst (groupby (λ r, Some (uID r)) geometry df).
Proof. unfold dissolve. apply map_uID_imap. by intros i [k gs]. Qed.

(** Dissolving leaves exactly one row for every id of the frame. *)
Lemma dissolve_ids (df : frame) :
  NoDup (map uID (dissolve df))
  ∧ ∀ u, u ∈ map uID (dissolve df) ↔ u ∈ map uID df.
Proof.
  rewrite map_uID_dissolve.
  destruct (groupby_keys (λ r, Some (uID r)) geometry df) as [Hs Hkeys].
  split; [by apply StronglySorted_lt_NoDup|].
  intros u. rewrite Hkeys. rewrite (list_elem_of_In _ u), in_map_iff. split.
  - intros (r & Hr & Hu). exists r. inversion Hu. by rewrite <- list_elem_of_In.
  - intros (r & Hu & Hr). exists r. rewrite list_elem_of_In. by subst.
Qed.

Lemma map_uID_loc_set idx g (t : frame) : map uID (loc_set idx g t) = map uID t.
Proof.
  unfold loc_set. rewrite map_map. apply map_ext. intros r. by case_decide.
Qed.

Lemma map_uID_cut (t t' : frame) (limit : geom) :
  _cut t limit = Ok t' → map uID t' = map uID t.
Proof.
  unfold _cut. destruct (_split_lines limit 100) as [gc|]; [|done]. simpl.
  generalize (loc_rows t (map ix (drop_duplicates (cut_candidates t gc)))).
  intros rows. revert t. induction rows as [|r rows IH]; intros t Hfor.
  - by inversion Hfor.
  - simpl in Hfor. rewrite _cut_row_resolution in Hfor.
    destruct (clip_resolution limit (geometry r)) as [og|]; [|done].
    simpl in Hfor. apply IH in Hfor. rewrite Hfor.
    destruct og; [apply map_uID_loc_set|done].
Qed.

Lemma map_uID_queen_corners corner_ring (t : frame) sensitivity :
  map uID (_queen_corners corner_ring t sensitivity) = map uID t.
Proof.
  unfold _queen_corners.
  assert (H : ∀ (rows t0 t1 : frame),
            map uID (fold_left (λ t r, match corner_ring t0 sensitivity r with
                                       | Some newgeom => loc_set (ix r) newgeom t
                                       | None => t
                                       end) rows t1) = map uID t1).
  { induction rows as [|r rows IH]; intros t0 t1; [done|].
    simpl. rewrite IH. destruct (corner_ring t0 sensitivity r); [|done].
    apply map_uID_loc_set. }
  apply H.
Qed.

Lemma map_uID_translate xoff yoff (t : frame) :
  map uID (translate_frame xoff yoff t) = map uID t.
Proof. unfold translate_frame. by rewrite map_map. Qed.

(** C1: every id that survives among the Voronoi regions of
    [tessellation] occurs in exactly one row of its result, and no other
    id occurs there. *)
Theorem tessellation_one_cell_per_id
    (corner_ring : frame → Q → row → option geom) (gdf : frame) (limit : geom)
    (shrink segment : Q) (queen_corners : bool) (sensitivity : Q)
    (cells : frame) :
  tessellation corner_ring gdf limit shrink segment queen_corners sensitivity
  = Ok cells →
  ∃ centre regions_gdf,
    tessellation_regions gdf limit shrink segment = Ok (centre, regions_gdf) ∧
    NoDup (map uID cells) ∧
    ∀ u, u ∈ map uID cells ↔ u ∈ map uID regions_gdf.
Proof.
  unfold tessellation. intros Hcells.
  destruct (tessellation_regions gdf limit shrink segment)
    as [[centre regions_gdf]|] eqn:Hregions; [|done].
  simpl in Hcells. exists centre, regions_gdf. split; [done|].
  unfold tessellation_cells in Hcells.
  destruct (_cut _ limit) as [cut|] eqn:Hcut; [|done]. simpl in Hcells.
  apply map_uID_cut in Hcut. rewrite map_uID_translate in Hcut.
  assert (Hids : map uID cells = map uID (dissolve regions_gdf)).
  { inversion Hcells. destruct queen_corners; [|done].
    by rewrite map_uID_queen_corners. }
  rewrite Hids. apply dissolve_ids.
Qed.

End DissolveProperties.

(** ** Street snapping *)

Section SnapProperties.
Context `{K : GeometryKernel}.

Lemma snap_bind_inv {A B} (m : snapM A) (k : A → snapM B) s s' r :
  (m ≫= k) s = (s', r) →
  (∃ s1 a, m s = (s1, Ok a) ∧ k a s1 = (s', r))
  ∨ (∃ e, m s = (s', Raise e) ∧ r = Raise e).
Proof.
  unfold mbind, snapM_bind. destruct (m s) as [s1 [a|e]]; intros H.
  - left. eauto.
  - right. inversion H. eauto.
Qed.

Lemma lift_inv {A} (x : result A) s s' r : lift x s = (s', r) → s' = s ∧ r = x.
Proof. unfold lift. by intros [= <- <-]. Qed.

Lemma read_frame_inv ref s s' r :
  read_frame ref s = (s', r) →
  s' = s ∧ (∀ df, r = Ok df → heap s !! ref = Some df).
Proof.
  unfold read_frame. intros [= <- <-]. split; [done|].
  intros df. destruct (heap s !! ref); by intros [= <-].
Qed.

(** Inverts the binds of a hypothesis [H : m s = (s', r)] one at a time;
    the steps that only read the state are resolved on the way. *)
Ltac snap_inv H :=
  let s1 := fresh "s" in
  let a := fresh "a" in
  let H1 := fresh "H" in
  let e := fresh "e" in
  apply snap_bind_inv in H as [(s1 & a & H1 & H)|(e & H & ->)].

Ltac snap_inv_as H a H1 :=
  let s1 := fresh "s" in
  let e := fresh "e" in
  apply snap_bind_inv in H as [(s1 & a & H1 & H)|(e & H & ->)].

Ltac snap_pure H :=
  first
    [ apply lift_inv in H as [-> H]
    | apply read_frame_inv in H as [-> H] ].

(** What committing an extension may do for the edge [idx]: nothing, or
    append one point to [l_coords] and then possibly write the extended
    line, which happens only when no candidate building meets it. *)
Definition clear_of_buildings (env : snap_env) (s : snap_state) (line : geom)
  : Prop :=
  ∃ buildings_df,
    heap s !! buildings env = Some buildings_df ∧
    Forall (λ b, is_empty (intersection (geometry b) line) = true)
           (iloc buildings_df
                 (sindex_intersection (bindex env) (bounds line))).

Definition extension_step (env : snap_env) (idx : Z) (s s' : snap_state)
  : Prop :=
  s' = s ∨
  ∃ p, l_coords s' = l_coords s ++ [p] ∧
       (heap s' = heap s ∨
        (heap s' = alter (loc_set idx (LineString (l_coords s')))
                         (network env) (heap s)
         ∧ clear_of_buildings env s (LineString (l_coords s')))).

Lemma existsb_false_Forall {A} (f : A → bool) (l : list A) :
  existsb f l = false → Forall (λ x, f x = false) l.
Proof.
  induction l as [|x l IH]; simpl; [constructor|].
  intros [? ?]%orb_false_iff. constructor; auto.
Qed.

Lemma commit_extension_step env idx true_int s s' r :
  commit_extension env idx true_int s = (s', r) → extension_step env idx s s'.
Proof.
  unfold commit_extension.
  destruct (decide (1 ≤ length true_int)) as [Hlen|Hlen];
    [|intros [= <- <-]; by left].
  intros H. unfold mbind, snapM_bind, get_l_coords, set_l_coords, lift in H.
  destruct (new_point true_int (l_coords s)) as [p|]; [|inversion H; by left].
  cbn [l_coords heap] in H. unfold read_frame in H. cbn [l_coords heap] in H.
  destruct (heap s !! buildings env) as [buildings_df|] eqn:Hb.
  - destruct (existsb _ _) eqn:Hex.
    + inversion H. right. exists p. split; [done|]. by left.
    + unfold write_geometry in H. cbn [l_coords heap] in H. inversion H.
      right. exists p. split; [done|]. right. split; [done|].
      exists buildings_df. split; [done|]. cbn [l_coords].
      apply existsb_false_Forall in Hex. apply Forall_fmap in Hex.
      eapply Forall_impl; [exact Hex|]. intros b Hbe. simpl in Hbe.
      by apply negb_false_iff in Hbe.
  - inversion H. right. exists p. split; [done|]. by left.
Qed.

Lemma extend_line_step env tolerance idx s s' r :
  extend_line env tolerance idx s = (s', r) →
  extension_step env idx s s' ∧ (r = Ok ReturnFalse → s' = s).
Proof.
  unfold extend_line. intros H.
  unfold get_l_coords at 1 in H. unfold mbind at 1, snapM_bind at 1 in H.
  snap_inv H; [|apply lift_inv in H as [-> _]; split; [by left|done]].
  apply lift_inv in H0 as [-> Hbase].
  destruct a as [extra|]; [|inversion H; split; [by left|done]].
  snap_inv H; [|apply lift_inv in H as [-> _]; split; [by left|done]].
  apply lift_inv in H0 as [-> _].
  snap_inv H; [|apply read_frame_inv in H as [-> _]; split; [by left|done]].
  apply read_frame_inv in H0 as [-> _].
  snap_inv H; [|apply lift_inv in H as [-> _]; split; [by left|done]].
  apply lift_inv in H0 as [-> _].
  destruct (existsb _ _); [|inversion H; split; [by left|done]].
  snap_inv H; [|apply lift_inv in H as [-> _]; split; [by left|done]].
  apply lift_inv in H0 as [-> _].
  snap_inv H.
  - apply commit_extension_step in H0. inversion H; subst. split; [done|].
    by inversion 1.
  - apply commit_extension_step in H. split; [done|]. by inversion 1.
Qed.

Lemma extend_line_edge_step env tolerance idx s s' r :
  extend_line_edge env tolerance idx s = (s', r) → extension_step env idx s s'.
Proof.
  unfold extend_line_edge. intros H.
  unfold get_l_coords at 1 in H. unfold mbind at 1, snapM_bind at 1 in H.
  snap_inv H; [|apply lift_inv in H as [-> _]; by left].
  apply lift_inv in H0 as [-> Hbase].
  destruct a as [extra|]; [|inversion H; by left].
  snap_inv H; [|apply lift_inv in H as [-> _]; by left].
  apply lift_inv in H0 as [-> _].
  snap_inv H; [|apply lift_inv in H as [-> _]; by left].
  apply lift_inv in H0 as [-> _].
  assert (Hgen : (true_int ← lift (true_int_of (intersection a0 a));
                  _ ← commit_extension env idx true_int;
                  mret ReturnNone) s = (s', r) → extension_step env idx s s').
  { clear H. intros H.
    snap_inv H; [|apply lift_inv in H as [-> _]; by left].
    apply lift_inv in H0 as [-> _].
    snap_inv H.
    - apply commit_extension_step in H0. by inversion H; subst.
    - by apply commit_extension_step in H. }
  destruct (intersection a0 a); try (by apply Hgen).
Qed.

Lemma extend_end_step env tolerance_street tolerance_edge idx s s' r :
  extend_end env tolerance_street tolerance_edge idx s = (s', r) →
  extension_step env idx s s'.
Proof.
  unfold extend_end. intros H. snap_inv H.
  - apply extend_line_step in H0 as [Hstep Hfalse].
    destruct a.
    + rewrite (Hfalse eq_refl) in *. snap_inv H.
      * apply extend_line_edge_step in H0. by inversion H; subst.
      * by apply extend_line_edge_step in H.
    + by inversion H; subst.
  - by apply extend_line_step in H as [? _].
Qed.

(** *** Frame effect of the snapping loop *)

(** [l] extends the coordinate list [cs] at its ends: at most one point
    before and one after, the result read in either direction. *)
Definition extension_of (cs l : list coord) : Prop :=
  ∃ pre post, length pre ≤ 1 ∧ length post ≤ 1 ∧
              (l = pre ++ cs ++ post ∨ l = reverse (pre ++ cs ++ post)).

(** The writes of one iteration: none, or one extended line for [idx]. *)
Definition row_write (env : snap_env) (idx : Z) (cs : list coord)
    (h h' : gmap nat (list row)) : Prop :=
  h' = h ∨
  ∃ l, extension_of cs l ∧
       h' = alter (loc_set idx (LineString l)) (network env) h.

Lemma alter_loc_set_twice idx g1 g2 net (h : gmap nat (list row)) :
  alter (loc_set idx g2) net (alter (loc_set idx g1) net h)
  = alter (loc_set idx g2) net h.
Proof.
  rewrite alter_alter_eq. apply alter_ext. intros t _. simpl.
  apply loc_set_loc_set.
Qed.

Lemma extension_step_cases env idx s s' :
  extension_step env idx s s' →
  (l_coords s' = l_coords s ∧ heap s' = heap s)
  ∨ ∃ p, l_coords s' = l_coords s ++ [p] ∧
         (heap s' = heap s ∨
          heap s' = alter (loc_set idx (LineString (l_coords s ++ [p])))
                          (network env) (heap s)).
Proof.
  intros [->|(p & Hl & [Hh|[Hh _]])]; [by left|right; exists p..].
  - split; [done|by left].
  - split; [done|right]. by rewrite <- Hl.
Qed.

Lemma connected_inv env idx p s s' r : connected env idx p s = (s', r) → s' = s.
Proof.
  unfold connected. intros H.
  snap_inv H; [|by apply read_frame_inv in H as [-> _]].
  apply read_frame_inv in H0 as [-> _].
  snap_inv H; [|by apply lift_inv in H as [-> _]].
  apply lift_inv in H0 as [-> _]. by inversion H.
Qed.

Lemma set_l_coords_inv l s s' r :
  set_l_coords l s = (s', r) → s' = {| heap := heap s; l_coords := l |} ∧ r = Ok ().
Proof. unfold set_l_coords. by intros [= <- <-]. Qed.

Lemma get_l_coords_inv s s' r :
  get_l_coords s = (s', r) → s' = s ∧ r = Ok (l_coords s).
Proof. unfold get_l_coords. by intros [= <- <-]. Qed.

Lemma extension_of_refl cs : extension_of cs cs.
Proof. exists [], []. simpl. rewrite app_nil_r. auto. Qed.

Lemma extension_of_snoc cs p : extension_of cs (cs ++ [p]).
Proof. exists [], [p]. simpl. auto. Qed.

Lemma extension_of_reverse cs : extension_of cs (reverse cs).
Proof. exists [], []. simpl. rewrite app_nil_r. auto. Qed.

Lemma extension_of_reverse_snoc cs p : extension_of cs (reverse cs ++ [p]).
Proof.
  exists [p], []. simpl. rewrite app_nil_r. split; [done|]. split; [lia|].
  right. by rewrite reverse_cons.
Qed.

Lemma extension_of_both cs p q : extension_of cs (reverse (cs ++ [p]) ++ [q]).
Proof.
  exists [q], [p]. simpl. split; [done|]. split; [done|].
  right. by rewrite reverse_cons.
Qed.

Lemma extension_of_reverse_after cs p : extension_of cs (reverse (cs ++ [p])).
Proof. exists [], [p]. simpl. auto. Qed.

(** One end: at most one point is appended, and the only possible write
    is the line through the new coordinate list. *)
Lemma extend_end_write env tolerance_street tolerance_edge idx s s' r :
  extend_end env tolerance_street tolerance_edge idx s = (s', r) →
  (l_coords s' = l_coords s ∧ heap s' = heap s)
  ∨ ∃ p, l_coords s' = l_coords s ++ [p] ∧
         (heap s' = heap s ∨
          heap s' = alter (loc_set idx (LineString (l_coords s ++ [p])))
                          (network env) (heap s)).
Proof. intros H. by apply extend_end_step, extension_step_cases in H. Qed.

Lemma snap_row_write env tolerance_street tolerance_edge r s s' res :
  snap_row env tolerance_street tolerance_edge r s = (s', res) →
  heap s' = heap s ∨
  ∃ cs, coords (geometry r) = Ok cs ∧ row_write env (ix r) cs (heap s) (heap s').
Proof.
  unfold snap_row. intros H.
  snap_inv H; [|apply lift_inv in H as [-> _]; by left].
  apply lift_inv in H0 as [-> Hcs]. rename a into cs. symmetry in Hcs.
  snap_inv H; [|by apply set_l_coords_inv in H as [_ ?]].
  apply set_l_coords_inv in H0 as [-> _].
  snap_inv H; [|apply lift_inv in H as [-> _]; by left].
  apply lift_inv in H0 as [-> _].
  snap_inv H; [|apply lift_inv in H as [-> _]; by left].
  apply lift_inv in H0 as [-> _].
  snap_inv_as H first_ Hfirst; [|apply connected_inv in H as ->; by left].
  apply connected_inv in Hfirst as ->.
  snap_inv_as H second_ Hsecond; [|apply connected_inv in H as ->; by left].
  apply connected_inv in Hsecond as ->.
  right. exists cs. split; [done|]. unfold row_write.
  destruct (first_ && second_); [inversion H; by left|].
  destruct (first_ && negb second_).
  { apply extend_end_write in H as [[_ ->]|(p & _ & [-> | ->])]; [by left..|].
    right. exists (cs ++ [p]). split; [apply extension_of_snoc|done]. }
  destruct (negb first_ && second_).
  { snap_inv H; [|apply get_l_coords_inv in H as [-> _]; by left].
    apply get_l_coords_inv in H0 as [-> [= ->]]. cbn [l_coords heap] in H.
    snap_inv H; [|by apply set_l_coords_inv in H as [_ ?]].
    apply set_l_coords_inv in H0 as [-> _].
    apply extend_end_write in H as [[_ ->]|(p & _ & [-> | ->])]; [by left..|].
    right. exists (reverse cs ++ [p]).
    split; [apply extension_of_reverse_snoc|done]. }
  snap_inv H.
  - apply extend_end_write in H0.
    snap_inv H; [|apply get_l_coords_inv in H as [-> _]].
    + apply get_l_coords_inv in H1 as [-> [= ->]]. cbn [l_coords heap] in H.
      snap_inv H; [|by apply set_l_coords_inv in H as [_ ?]].
      apply set_l_coords_inv in H1 as [-> _].
      apply extend_end_write in H. cbn [l_coords heap] in H.
      destruct H0 as [[Hl1 Hh1]|(p & Hl1 & Hh1)]; rewrite Hl1 in H;
        cbn [l_coords heap] in *.
      * destruct H as [[_ ->]|(q & _ & [-> | ->])]; rewrite ?Hh1; [by left..|].
        right. exists (reverse cs ++ [q]).
        split; [apply extension_of_reverse_snoc|done].
      * destruct H as [[_ ->]|(q & _ & [-> | ->])];
          (destruct Hh1 as [-> | ->]; [try (by left)|]).
        -- right. exists (cs ++ [p]). split; [apply extension_of_snoc|done].
        -- right. exists (cs ++ [p]). split; [apply extension_of_snoc|done].
        -- right. exists (reverse (cs ++ [p]) ++ [q]).
           split; [apply extension_of_both|done].
        -- right. exists (reverse (cs ++ [p]) ++ [q]).
           split; [apply extension_of_both|]. apply alter_loc_set_twice.
    + destruct H0 as [[_ ->]|(p & _ & [-> | ->])]; [by left..|].
      right. exists (cs ++ [p]). split; [apply extension_of_snoc|done].
  - apply extend_end_write in H as [[_ ->]|(p & _ & [-> | ->])]; [by left..|].
    right. exists (cs ++ [p]). split; [apply extension_of_snoc|done].
Qed.

Definition same_attributes (r r' : row) : Prop :=
  ix r' = ix r ∧ uID r' = uID r ∧ columns r' = columns r.

(** The geometry of [r'] is that of [r], or a line through an extension
    of the coordinates of [r]. *)
Definition extended (r r' : row) : Prop :=
  geometry r' = geometry r ∨
  ∃ cs l, coords (geometry r) = Ok cs ∧ extension_of cs l ∧
          geometry r' = LineString l.

(** The network [df] against the input [edges_df], row by row. *)
Definition snapped (edges_df df : list row) : Prop :=
  Forall2 (λ r r', same_attributes r r' ∧
                   (NoDup (map ix edges_df) → extended r r')) edges_df df.

Lemma snapped_refl edges_df : snapped edges_df edges_df.
Proof.
  unfold snapped. generalize edges_df at 1. intros all.
  induction edges_df as [|r l IH]; constructor; [|done].
  split; [done|]. intros _. by left.
Qed.

Lemma snapped_write (edges_df df : list row) r0 cs l :
  snapped edges_df df → r0 ∈ edges_df →
  coords (geometry r0) = Ok cs → extension_of cs l →
  snapped edges_df (loc_set (ix r0) (LineString l) df).
Proof.
  unfold snapped. intros Hsn Hr0 Hcs Hext.
  assert (H : ∀ l1 l2, (∀ r, r ∈ l1 → r ∈ edges_df) →
            Forall2 (λ r r', same_attributes r r' ∧
                             (NoDup (map ix edges_df) → extended r r')) l1 l2 →
            Forall2 (λ r r', same_attributes r r' ∧
                             (NoDup (map ix edges_df) → extended r r'))
                    l1 (loc_set (ix r0) (LineString l) l2)).
  { intros l1 l2 Hsub HF. induction HF as [|r r' l1 l2 [Hattr Hgeo] HF IH];
      [constructor|].
    simpl. constructor; [|apply IH; intros; apply Hsub; by right].
    destruct (decide (ix r' = ix r0)) as [Heq|Hne]; [|done].
    split; [done|]. intros Hnd. right. exists cs, l.
    assert (r = r0) as ->.
    { apply (NoDup_map_injective ix edges_df); [done|apply Hsub; by left|done|].
      destruct Hattr as [<- _]. done. }
    done. }
  by apply H.
Qed.

Lemma snap_loop_effect env tolerance_street tolerance_edge edges_df rows s s' res :
  snap_loop env tolerance_street tolerance_edge rows s = (s', res) →
  (∀ r, r ∈ rows → r ∈ edges_df) →
  (∀ ref, ref ≠ network env → heap s' !! ref = heap s !! ref)
  ∧ ∀ df, heap s !! network env = Some df → snapped edges_df df →
          ∃ df', heap s' !! network env = Some df' ∧ snapped edges_df df'.
Proof.
  revert s. induction rows as [|r rows IH]; intros s H Hsub.
  - inversion H. split; [done|]. eauto.
  - simpl in H.
    assert (Hrow : ∀ s1 res1,
              snap_row env tolerance_street tolerance_edge r s = (s1, res1) →
              (∀ ref, ref ≠ network env → heap s1 !! ref = heap s !! ref)
              ∧ ∀ df, heap s !! network env = Some df → snapped edges_df df →
                      ∃ df', heap s1 !! network env = Some df'
                             ∧ snapped edges_df df').
    { intros s1 res1 Hs1.
      apply snap_row_write in Hs1 as [->|(cs & Hcs & [->|(l & Hext & ->)])];
        [split; [done|eauto]..|].
      split.
      - intros ref Hne. by rewrite lookup_alter_ne.
      - intros df Hdf Hsn. rewrite lookup_alter_eq, Hdf. simpl.
        eexists. split; [done|].
        eapply snapped_write; [done|apply Hsub; by left|done|done]. }
    snap_inv H.
    + destruct (Hrow _ _ H0) as [Hother Hnet].
      destruct (IH _ H) as [Hother' Hnet']; [intros; apply Hsub; by right|].
      split.
      * intros ref Hne. by rewrite Hother', Hother.
      * intros df Hdf Hsn. destruct (Hnet df Hdf Hsn) as (df1 & Hdf1 & Hsn1).
        by apply (Hnet' df1).
    + by apply Hrow in H.
Qed.

Lemma snapped_attributes edges_df df :
  snapped edges_df df → Forall2 same_attributes edges_df df.
Proof.
  intros Hsn. eapply Forall2_impl; [exact Hsn|]. by intros r r' [? _].
Qed.

Lemma snapped_extended edges_df df :
  snapped edges_df df → NoDup (map ix edges_df) →
  Forall2 extended edges_df df.
Proof.
  intros Hsn Hnd. eapply Forall2_impl; [exact Hsn|].
  intros r r' [_ H]. by apply H.
Qed.

(** C10: [snap_street_network_edge] leaves every object of the store it
    was given as it was, its input frames included, whatever the outcome;
    the network it returns is a new object with the rows of [edges], with
    their index labels and their columns other than the geometry.  When
    the index labels of [edges] are distinct, every geometry is either the
    input geometry or the input line with at most one point added at each
    end (the coordinates possibly listed in reverse). *)
Theorem snap_network_frame_effect (edges buildings tessellation : nat)
    (tolerance_street tolerance_edge : Q) (s s' : snap_state)
    (res : result nat) :
  snap_street_network_edge edges buildings tessellation
                           tolerance_street tolerance_edge s = (s', res) →
  (∀ ref, ref ∈ dom (heap s) → heap s' !! ref = heap s !! ref)
  ∧ (∀ net, res = Ok net →
       (net ∉ dom (heap s)) ∧
       ∃ edges_df network_df,
         heap s !! edges = Some edges_df ∧
         heap s' !! edges = Some edges_df ∧
         heap s' !! net = Some network_df ∧
         Forall2 same_attributes edges_df network_df ∧
         (NoDup (map ix edges_df) → Forall2 extended edges_df network_df)).
Proof.
  unfold snap_street_network_edge. intros H.
  snap_inv_as H edges_df He;
    [|apply read_frame_inv in H as [-> _]; split; [done|by intros ? [=]]].
  apply read_frame_inv in He as [-> He]. specialize (He _ eq_refl).
  snap_inv_as H buildings_df Hb;
    [|apply read_frame_inv in H as [-> _]; split; [done|by intros ? [=]]].
  apply read_frame_inv in Hb as [-> Hb].
  snap_inv_as H tessellation_df Ht;
    [|apply read_frame_inv in H as [-> _]; split; [done|by intros ? [=]]].
  apply read_frame_inv in Ht as [-> Ht].
  snap_inv_as H net Hn; [|by inversion H].
  unfold copy_frame in Hn. inversion Hn. subst. clear Hn.
  set (net := fresh (dom (heap s))) in *.
  assert (Hfresh : net ∉ dom (heap s)) by apply is_fresh.
  assert (Hkept : ∀ ref, ref ∈ dom (heap s) →
            <[net := edges_df]> (heap s) !! ref = heap s !! ref).
  { intros ref Href. assert (ref ≠ net) by (intros ->; done).
    by rewrite lookup_insert_ne. }
  snap_inv_as H outline Hg;
    [|apply lift_inv in H as [-> _]; split; [done|by intros ? [=]]].
  apply lift_inv in Hg as [-> _].
  set (env := {| network := net; buildings := buildings;
                 sindex := sindex_of edges_df; bindex := sindex_of buildings_df;
                 tessellation_boundary := outline |}) in *.
  assert (Hloop : ∀ s1 res1,
            snap_loop env tolerance_street tolerance_edge edges_df
              {| heap := <[net := edges_df]> (heap s); l_coords := l_coords s |}
            = (s1, res1) →
            (∀ ref, ref ∈ dom (heap s) → heap s1 !! ref = heap s !! ref)
            ∧ ∃ df', heap s1 !! net = Some df' ∧ snapped edges_df df').
  { intros s1 res1 Hs1.
    destruct (snap_loop_effect env _ _ edges_df _ _ _ _ Hs1) as [Hother Hnet];
      [done|].
    split.
    - intros ref Href. assert (ref ≠ net) by (intros ->; done).
      rewrite Hother by done. simpl. by rewrite lookup_insert_ne.
    - apply (Hnet edges_df); [simpl; apply lookup_insert_eq|apply snapped_refl]. }
  snap_inv H.
  - destruct (Hloop _ _ H0) as [Hother (df' & Hdf' & Hsn)].
    inversion H; subst. split; [done|]. intros ? [= <-]. split; [done|].
    exists edges_df, df'. split; [done|]. split.
    { rewrite Hother; [done|]. apply elem_of_dom. eauto. }
    split; [done|].
    split; [by apply snapped_attributes|by apply snapped_extended].
  - destruct (Hloop _ _ H) as [Hother _]. split; [done|]. by intros ? [=].
Qed.

(** *** The building veto *)

(** The spatial index is a sound filter: geometries that meet have
    bounding boxes that meet. *)
Definition bbox_sound : Prop :=
  ∀ a b, is_empty (intersection a b) = false →
         bbox_intersects (bounds a) (bounds b) = true.

Lemma crossing_is_candidate (env : snap_env) (s : snap_state)
    (buildings_df : list row) (b : row) (line : geom) :
  bbox_sound →
  heap s !! buildings env = Some buildings_df →
  bindex env = sindex_of buildings_df →
  b ∈ buildings_df →
  is_empty (intersection (geometry b) line) = false →
  ¬ clear_of_buildings env s line.
Proof.
  intros Hsound Hheap Hindex Hb Hcross (df & Hdf & Hclear).
  rewrite Hheap in Hdf. inversion Hdf; subst df. clear Hdf.
  apply list_elem_of_lookup_1 in Hb as [i Hi].
  assert (Hin : b ∈ iloc buildings_df
                       (sindex_intersection (bindex env) (bounds line))).
  { apply iloc_spec. exists i. split; [|done].
    apply sindex_intersection_spec. exists (bounds (geometry b)). split.
    - rewrite Hindex. unfold sindex_of. by rewrite lookup_map, Hi.
    - by apply Hsound. }
  eapply Forall_forall in Hclear; [|exact Hin]. congruence.
Qed.

(** C5: when the line extended by [extend_line] (or by its fallback
    [extend_line_edge]) meets a building footprint, the call writes
    nothing: the network, and with it the edge, stays as it was. *)
Theorem extension_discarded_on_building (env : snap_env) (tolerance : Q)
    (idx : Z) (s s' : snap_state) (res : result py_return)
    (buildings_df : list row) (b : row) :
  bbox_sound →
  heap s !! buildings env = Some buildings_df →
  bindex env = sindex_of buildings_df →
  extend_line env tolerance idx s = (s', res)
  ∨ extend_line_edge env tolerance idx s = (s', res) →
  b ∈ buildings_df →
  is_empty (intersection (geometry b) (LineString (l_coords s'))) = false →
  heap s' = heap s.
Proof.
  intros Hsound Hheap Hindex Hcall Hb Hcross.
  assert (Hstep : extension_step env idx s s').
  { destruct Hcall as [H|H];
      [by apply extend_line_step in H as [? _]|by apply extend_line_edge_step in H]. }
  destruct Hstep as [->|(p & _ & [Hh|[_ Hclear]])]; [done|done|].
  exfalso. by eapply crossing_is_candidate.
Qed.

(** *** The appended point *)

Lemma py_index_nat {A} (l : list A) (n : nat) :
  py_index l (Z.of_nat n)
  = match l !! n with Some x => Ok x | None => Raise IndexError end.
Proof.
  unfold py_index. destruct (decide (0 ≤ Z.of_nat n)%Z); [|lia].
  destruct (decide (0 ≤ Z.of_nat n)%Z); [|lia]. by rewrite Nat2Z.id.
Qed.

Lemma py_index_last {A} (l : list A) :
  py_index l (-1)
  = match last l with Some x => Ok x | None => Raise IndexError end.
Proof.
  unfold py_index. destruct (decide (0 ≤ -1)%Z); [lia|].
  rewrite last_lookup. destruct l as [|x l]; [done|].
  destruct (decide (0 ≤ Z.of_nat (length (x :: l)) + -1)%Z); [|simpl in *; lia].
  replace (Z.to_nat (Z.of_nat (length (x :: l)) + -1)) with (pred (length (x :: l)))
    by (simpl; lia).
  done.
Qed.

(** X22: [new_point] picks, among the points of [true_int], the first
    one at the least distance from the end of the line. *)
Lemma new_point_nearest (true_int l : list coord) (p : coord) :
  new_point true_int l = Ok p →
  ∃ m, true_int !! m = Some p ∧
       (1 < length true_int →
        ∃ endpoint, last l = Some endpoint ∧
          (∀ q, q ∈ true_int →
                (distance (Point p) (Point endpoint)
                 <= distance (Point q) (Point endpoint))%Q) ∧
          (∀ j q, j < m → true_int !! j = Some q →
                  (distance (Point p) (Point endpoint)
                   < distance (Point q) (Point endpoint))%Q)).
Proof.
  unfold new_point. destruct (decide (1 < length true_int)) as [Hlen|Hlen].
  - rewrite py_index_last. destruct (last l) as [endpoint|] eqn:He; [|done].
    simpl. destruct (py_min_index _) as [m|] eqn:Hm; [|done]. simpl.
    rewrite py_index_nat. destruct (true_int !! m) as [p'|] eqn:Hp; [|done].
    intros [= ->]. exists m. split; [done|]. intros _. exists endpoint.
    apply py_min_index_spec in Hm as (vm & Hvm & Hmin & Hfirst).
    rewrite lookup_map, Hp in Hvm. inversion Hvm; subst vm.
    split; [done|split].
    + intros q Hq. apply list_elem_of_lookup_1 in Hq as [j Hj].
      apply (Hmin j). by rewrite lookup_map, Hj.
    + intros j q Hj Hq. apply (Hfirst j); [done|]. by rewrite lookup_map, Hq.
  - change (py_index true_int 0) with (py_index true_int (Z.of_nat 0)).
    rewrite (py_index_nat true_int 0).
    destruct (true_int !! 0) as [p'|] eqn:Hp; [|done].
    intros [= ->]. exists 0. split; [done|]. intros ?. lia.
Qed.

End SnapProperties.

(** ** Connected components *)

Section Components.
Variable nbrs : gmap nat (list nat).

Lemma expand_step_eq to_join neighbours k :
  expand nbrs to_join neighbours k =
  match neighbours !! k with
  | None => Ok to_join
  | Some n =>
      if decide (n ∈ to_join) then expand nbrs to_join neighbours (S k)
      else match nbrs !! n with
           | None => Raise KeyError
           | Some weights =>
               expand nbrs (to_join ++ [n]) (neighbours ++ weights) (S k)
           end
  end.
Proof.
  funelim (expand nbrs to_join neighbours k); clear Heqcall.
  - by rewrite e.
  - rewrite Hn. by rewrite decide_True.
  - rewrite Hn. rewrite decide_False by done. by rewrite Hws.
  - rewrite Hn. rewrite decide_False by done. by rewrite e.
Qed.

(** [j] is listed among the neighbours of [i]. *)
Definition adjacent (i j : nat) : Prop :=
  ∃ weights, nbrs !! i = Some weights ∧ j ∈ weights.

Definition reachable : nat → nat → Prop := rtc adjacent.

(** The weights are those of a contiguity graph: every listed neighbour
    has its own entry, and being neighbours is mutual. *)
Definition closed_graph : Prop :=
  ∀ i j, adjacent i j → is_Some (nbrs !! j).
Definition symmetric_graph : Prop :=
  ∀ i j, adjacent i j → adjacent j i.

Lemma reachable_sym i j : symmetric_graph → reachable i j → reachable j i.
Proof.
  intros Hsym. induction 1 as [|x y z Hxy _ IH]; [constructor|].
  eapply rtc_r; [exact IH|]. by apply Hsym.
Qed.

Lemma closed_contains_reachable (S : list nat) root :
  root ∈ S → (∀ m w, m ∈ S → adjacent m w → w ∈ S) →
  ∀ x, reachable root x → x ∈ S.
Proof.
  intros Hroot Hclosed x Hx. revert Hroot.
  induction Hx as [|x y z Hxy _ IH]; [done|].
  intros Hx. apply IH. by apply (Hclosed x).
Qed.

Lemma expand_reachable root to_join neighbours k out :
  expand nbrs to_join neighbours k = Ok out →
  root ∈ to_join →
  (∀ x, x ∈ to_join → reachable root x) →
  (∀ x, x ∈ neighbours → reachable root x) →
  (∀ m w, m ∈ to_join → adjacent m w →
          w ∈ to_join ∨ w ∈ drop k neighbours) →
  ∀ x, x ∈ out ↔ reachable root x.
Proof.
  funelim (expand nbrs to_join neighbours k); clear Heqcall.
  - intros [= <-] Hroot Hreach _ Hpending x. split; [apply Hreach|].
    apply closed_contains_reachable; [done|].
    intros m w Hm Hmw. destruct (Hpending m w Hm Hmw) as [?|Hw]; [done|].
    rewrite drop_ge in Hw; [by apply elem_of_nil in Hw|].
    by apply lookup_ge_None.
  - intros Hout Hroot Hreach Hnb Hpending. apply H; try done.
    intros m w Hm Hmw. destruct (Hpending m w Hm Hmw) as [?|Hw]; [by left|].
    rewrite (drop_S _ _ _ Hn) in Hw.
    apply elem_of_cons in Hw as [->|Hw]; [by left|by right].
  - intros Hout Hroot Hreach Hnb Hpending.
    assert (Hk : k < length neighbours) by (by eapply lookup_lt_Some).
    assert (Hrn : reachable root n).
    { apply Hnb. by eapply list_elem_of_lookup_2. }
    apply H; try done.
    + apply elem_of_app. by left.
    + intros x [Hx|Hx%list_elem_of_singleton]%elem_of_app; [by apply Hreach|].
      by subst.
    + intros x [Hx|Hx]%elem_of_app; [by apply Hnb|].
      eapply rtc_r; [exact Hrn|]. by exists weights.
    + intros m w [Hm|Hm%list_elem_of_singleton]%elem_of_app Hmw.
      * destruct (Hpending m w Hm Hmw) as [?|Hw].
        { left. apply elem_of_app. by left. }
        rewrite (drop_S _ _ _ Hn) in Hw.
        apply elem_of_cons in Hw as [->|Hw].
        { left. apply elem_of_app. right. by apply list_elem_of_singleton. }
        right. rewrite drop_app_le by lia. apply elem_of_app. by left.
      * subst m. destruct Hmw as (ws & Hws' & Hw).
        rewrite Hws in Hws'. inversion Hws'; subst ws.
        right. rewrite drop_app_le by lia. apply elem_of_app. by right.
  - done.
Qed.

Lemma expand_total to_join neighbours k :
  closed_graph →
  (∀ x, x ∈ neighbours → is_Some (nbrs !! x)) →
  ∃ out, expand nbrs to_join neighbours k = Ok out.
Proof.
  intros Hclosed.
  funelim (expand nbrs to_join neighbours k); clear Heqcall.
  - eauto.
  - intros Hnb. by apply H.
  - intros Hnb. apply H; [done|]. intros x [Hx|Hx]%elem_of_app; [by apply Hnb|].
    apply (Hclosed n). by exists weights.
  - intros Hnb. destruct (Hnb n) as [ws Hws]; [by eapply list_elem_of_lookup_2|].
    congruence.
Qed.

(** The list computed for [idx] is its connected component. *)
Lemma to_join_of_component idx :
  closed_graph → is_Some (nbrs !! idx) →
  ∃ to_join, to_join_of nbrs idx = Ok to_join ∧
             ∀ x, x ∈ to_join ↔ reachable idx x.
Proof.
  intros Hclosed [weights Hw]. unfold to_join_of. rewrite Hw.
  destruct (expand_total [idx] weights 0 Hclosed) as [out Hout].
  { intros x Hx. apply (Hclosed idx). by exists weights. }
  exists out. split; [done|].
  apply (expand_reachable idx [idx] weights 0); [done|..].
  - by apply list_elem_of_singleton.
  - intros x ->%list_elem_of_singleton. constructor.
  - intros x Hx. apply rtc_once. by exists weights.
  - intros m w ->%list_elem_of_singleton (ws & Hws & Hin).
    rewrite Hw in Hws. inversion Hws; subst. by right.
Qed.

(** [for b in to_join: patches[b] = jID] *)
Lemma lookup_assign_patch (to_join : list nat) (jID : Z) (patches : gmap nat Z)
    (x : nat) :
  foldl (λ p b, <[b := jID]> p) patches to_join !! x
  = if decide (x ∈ to_join) then Some jID else patches !! x.
Proof.
  revert patches. induction to_join as [|b to_join IH]; intros patches;
    cbn [foldl].
  - rewrite decide_False; [done|]. apply not_elem_of_nil.
  - rewrite IH. destruct (decide (x ∈ to_join)).
    + rewrite decide_True; [done|by right].
    + destruct (decide (x = b)) as [->|Hne].
      * rewrite decide_True by (by left). apply lookup_insert_eq.
      * rewrite decide_False by (intros [?|?]%elem_of_cons; done).
        by apply lookup_insert_ne.
Qed.

(** The state of the loop over the fragments: fragments with the same
    patch are connected, a patch contains whole components, and [jID] is
    above the patches given out so far. *)
Definition patches_inv (st : gmap nat Z * Z) : Prop :=
  (∀ a b j, st.1 !! a = Some j → reachable a b → st.1 !! b = Some j) ∧
  (∀ a b j, st.1 !! a = Some j → st.1 !! b = Some j → reachable a b) ∧
  (∀ a j, st.1 !! a = Some j → (j < st.2)%Z).

Lemma patches_step_inv (st : gmap nat Z * Z) (idx : nat) :
  closed_graph → symmetric_graph → is_Some (nbrs !! idx) →
  patches_inv st →
  ∃ st', patches_step nbrs st idx = Ok st' ∧ patches_inv st' ∧
         is_Some (st'.1 !! idx) ∧
         (∀ a, is_Some (st.1 !! a) → is_Some (st'.1 !! a)).
Proof.
  intros Hclosed Hsym Hidx (Hfull & Hconn & Hbelow).
  destruct st as [patches jID]. unfold patches_step. simpl in *.
  destruct (patches !! idx) as [j|] eqn:Hj.
  { exists (patches, jID). simpl. rewrite Hj. by eauto 10. }
  destruct (to_join_of_component idx Hclosed Hidx) as (to_join & -> & Hcomp).
  cbn [mbind result_bind]. eexists. split; [done|].
  unfold patches_inv. cbn [fst snd].
  split; [split; [|split]|split].
  - intros a b j. rewrite !lookup_assign_patch.
    destruct (decide (a ∈ to_join)) as [Ha|Ha].
    + intros [= <-] Hab. rewrite decide_True; [done|].
      apply Hcomp. eapply rtc_trans; [|exact Hab]. by apply Hcomp.
    + intros Hpa Hab. rewrite decide_False; [by eapply Hfull|].
      intros Hb. apply Ha, Hcomp. eapply rtc_trans; [by apply Hcomp|].
      by apply reachable_sym.
  - intros a b j. rewrite !lookup_assign_patch.
    destruct (decide (a ∈ to_join)) as [Ha|Ha];
      destruct (decide (b ∈ to_join)) as [Hb|Hb].
    + intros _ _. eapply rtc_trans; [|by apply Hcomp].
      apply reachable_sym; [done|]. by apply Hcomp.
    + intros [= <-] Hpb. apply Hbelow in Hpb. lia.
    + intros Hpa [= <-]. apply Hbelow in Hpa. lia.
    + apply Hconn.
  - intros a j. rewrite lookup_assign_patch.
    destruct (decide (a ∈ to_join)); [intros [= <-]; lia|].
    intros Hpa. apply Hbelow in Hpa. lia.
  - rewrite lookup_assign_patch. rewrite decide_True; [done|].
    apply Hcomp. constructor.
  - intros a Ha. rewrite lookup_assign_patch. by destruct (decide (a ∈ to_join)).
Qed.

Lemma patches_loop_inv (indices : list nat) (st : gmap nat Z * Z) :
  closed_graph → symmetric_graph →
  (∀ i, i ∈ indices → is_Some (nbrs !! i)) →
  patches_inv st →
  ∃ st', for_each (patches_step nbrs) indices st = Ok st' ∧ patches_inv st' ∧
         (∀ i, i ∈ indices → is_Some (st'.1 !! i)) ∧
         (∀ a, is_Some (st.1 !! a) → is_Some (st'.1 !! a)).
Proof.
  intros Hclosed Hsym. revert st.
  induction indices as [|idx indices IH]; intros st Hkeys Hinv.
  - exists st. split; [done|]. split; [done|]. split; [|done].
    intros i Hi. by apply elem_of_nil in Hi.
  - destruct (patches_step_inv st idx Hclosed Hsym) as (st1 & Hst1 & Hinv1 & Hidx & Hmono);
      [apply Hkeys; by left|done|].
    destruct (IH st1) as (st' & Hst' & Hinv' & Hall & Hmono');
      [intros; apply Hkeys; by right|done|].
    exists st'. simpl. rewrite Hst1. simpl. split; [done|]. split; [done|].
    split; [|by eauto].
    intros i [->|Hi]%elem_of_cons; [by apply Hmono'|by apply Hall].
Qed.

(** A contiguity graph over the fragments [0 .. n-1]. *)
Definition contiguity_graph (n : nat) : Prop :=
  (∀ i, is_Some (nbrs !! i) ↔ i < n) ∧
  (∀ i j, adjacent i j → j < n) ∧
  symmetric_graph.

(** The loop assigns a patch to every fragment, and two fragments get
    the same patch exactly when they are connected. *)
Lemma patches_of_components (n : nat) :
  contiguity_graph n →
  ∃ patches, patches_of nbrs n = Ok patches ∧
    (∀ i, i < n → is_Some (patches !! i)) ∧
    (∀ i j, i < n → j < n → patches !! i = patches !! j ↔ reachable i j).
Proof.
  intros (Hkeys & Hrange & Hsym).
  assert (Hclosed : closed_graph).
  { intros i j Hij. apply Hkeys. by eapply Hrange. }
  destruct (patches_loop_inv (seq 0 n) (∅, 1%Z) Hclosed Hsym)
    as (st' & Hst' & (Hfull & Hconn & _) & Hall & _).
  { intros i Hi. apply Hkeys. apply elem_of_seq in Hi. lia. }
  { split; [|split]; intros *; simpl; by rewrite lookup_empty. }
  exists st'.1. unfold patches_of. rewrite Hst'. split; [done|].
  assert (Hcov : ∀ i, i < n → is_Some (st'.1 !! i)).
  { intros i Hi. apply Hall. apply elem_of_seq. lia. }
  split; [done|]. intros i j Hi Hj. split.
  - intros Heq. destruct (Hcov i Hi) as [p Hp]. eapply Hconn; [done|].
    by rewrite <- Heq.
  - intros Hij. destruct (Hcov i Hi) as [p Hp]. rewrite Hp. symmetry.
    by eapply Hfull.
Qed.

End Components.

(** ** Block assignment and the order of the fragments *)

Section FragmentOrder.
Context `{K : GeometryKernel}.

(** Queen contiguity: the weights list, for every fragment, the other
    fragments that touch it; touching is mutual. *)
Variable touching : geom → geom → Prop.

Definition Queen_contract : Prop :=
  (∀ a b, touching a b → touching b a) ∧
  ∀ (fs : list geom) (i : nat),
    (is_Some (Queen_neighbors fs !! i) ↔ i < length fs) ∧
    ∀ j, adjacent (Queen_neighbors fs) i j
         ↔ i ≠ j ∧ ∃ a b, fs !! i = Some a ∧ fs !! j = Some b ∧ touching a b.

Lemma Queen_contiguity_graph (fs : list geom) :
  Queen_contract → contiguity_graph (Queen_neighbors fs) (length fs).
Proof.
  intros [Hsym Hq]. split; [|split].
  - intros i. apply Hq.
  - intros i j Hij. apply Hq in Hij as (_ & a & b & _ & Hb & _).
    by eapply lookup_lt_Some.
  - intros i j Hij. apply Hq in Hij as (Hne & a & b & Ha & Hb & Hab).
    apply Hq. split; [done|]. exists b, a. auto.
Qed.

(** The fragments [fs] listed in the order [order]. *)
Definition reorder (fs : list geom) (order : list nat) : list geom :=
  omap (λ k, fs !! k) order.

Lemma reorder_lookup (fs : list geom) (order : list nat) (p : nat) :
  (∀ k, k ∈ order → k < length fs) →
  reorder fs order !! p = order !! p ≫= λ k, fs !! k.
Proof.
  unfold reorder. revert p. induction order as [|k order IH]; intros p Hk; [done|].
  destruct (lookup_lt_is_Some_2 fs k) as [a Ha]; [apply Hk; by left|].
  simpl. rewrite Ha. simpl. destruct p as [|p]; simpl; [done|].
  apply IH. intros; apply Hk; by right.
Qed.

Lemma reorder_length (fs : list geom) (order : list nat) :
  (∀ k, k ∈ order → k < length fs) → length (reorder fs order) = length order.
Proof.
  unfold reorder. induction order as [|k order IH]; intros Hk; [done|].
  destruct (lookup_lt_is_Some_2 fs k) as [a Ha]; [apply Hk; by left|].
  simpl. rewrite Ha. simpl. f_equal. apply IH. intros; apply Hk; by right.
Qed.

Section Shuffled.
Variables (fs : list geom) (order : list nat).
Hypothesis Hcontract : Queen_contract.
Hypothesis Horder : order ≡ₚ seq 0 (length fs).

Lemma order_range k : k ∈ order ↔ k < length fs.
Proof. rewrite Horder, elem_of_seq. lia. Qed.

Lemma order_NoDup : NoDup order.
Proof. rewrite Horder. apply NoDup_seq. Qed.

Lemma order_inj p q i : order !! p = Some i → order !! q = Some i → p = q.
Proof. intros. by eapply NoDup_lookup; [apply order_NoDup|..]. Qed.

Lemma order_position p : p < length fs → ∃ i, order !! p = Some i.
Proof.
  intros Hp. apply lookup_lt_is_Some_2.
  rewrite Horder, length_seq. done.
Qed.

Lemma adjacent_reorder p q i j :
  order !! p = Some i → order !! q = Some j →
  adjacent (Queen_neighbors (reorder fs order)) p q
  ↔ adjacent (Queen_neighbors fs) i j.
Proof.
  intros Hp Hq. destruct Hcontract as [_ Hspec].
  rewrite (proj2 (Hspec _ _)), (proj2 (Hspec _ _)).
  rewrite !reorder_lookup by (intros; by apply order_range).
  rewrite Hp, Hq. simpl.
  assert (p ≠ q ↔ i ≠ j); [|tauto].
  split; intros Hne ->; apply Hne; [by eapply order_inj|congruence].
Qed.

Lemma reachable_reorder_1 p q :
  reachable (Queen_neighbors (reorder fs order)) p q →
  ∀ i, order !! p = Some i →
       ∃ j, order !! q = Some j ∧ reachable (Queen_neighbors fs) i j.
Proof.
  induction 1 as [p|p p1 q Hstep _ IH]; intros i Hi.
  - exists i. split; [done|constructor].
  - assert (Hp1 : p1 < length fs).
    { destruct Hcontract as [_ Hspec].
      apply Hspec in Hstep as (_ & a & b & _ & Hb & _).
      apply lookup_lt_Some in Hb.
      rewrite reorder_length in Hb by (intros; by apply order_range).
      by rewrite Horder, length_seq in Hb. }
    destruct (order_position p1 Hp1) as [i1 Hi1].
    destruct (IH i1 Hi1) as (j & Hj & Hreach). exists j. split; [done|].
    eapply rtc_l; [|exact Hreach]. by eapply adjacent_reorder.
Qed.

Lemma reachable_reorder_2 i j :
  reachable (Queen_neighbors fs) i j →
  ∀ p, order !! p = Some i →
       ∃ q, order !! q = Some j
            ∧ reachable (Queen_neighbors (reorder fs order)) p q.
Proof.
  induction 1 as [i|i i1 j Hstep _ IH]; intros p Hp.
  - exists p. split; [done|constructor].
  - assert (Hi1 : i1 ∈ order).
    { apply order_range. destruct Hcontract as [_ Hspec].
      apply Hspec in Hstep as (_ & a & b & _ & Hb & _).
      by eapply lookup_lt_Some. }
    apply list_elem_of_lookup_1 in Hi1 as [p1 Hp1].
    destruct (IH p1 Hp1) as (q & Hq & Hreach). exists q. split; [done|].
    eapply rtc_l; [|exact Hreach]. by eapply adjacent_reorder.
Qed.

End Shuffled.

(** C7: listing the fragments in another order does not change which
    fragments end up in the same block; only the block numbers may
    differ.  [order !! p = Some i] says that position [p] of the shuffled
    list holds the fragment that was at position [i]. *)
Theorem block_partition_order_invariant (fs : list geom) (order : list nat) :
  Queen_contract →
  order ≡ₚ seq 0 (length fs) →
  ∃ patches patches',
    patches_of (Queen_neighbors fs) (length fs) = Ok patches ∧
    patches_of (Queen_neighbors (reorder fs order))
               (length (reorder fs order)) = Ok patches' ∧
    ∀ p q i j, order !! p = Some i → order !! q = Some j →
               (patches' !! p = patches' !! q ↔ patches !! i = patches !! j).
Proof.
  intros Hcontract Horder.
  destruct (patches_of_components (Queen_neighbors fs) (length fs))
    as (patches & Hpatches & _ & Hsame); [by apply Queen_contiguity_graph|].
  destruct (patches_of_components (Queen_neighbors (reorder fs order))
                                  (length (reorder fs order)))
    as (patches' & Hpatches' & _ & Hsame'); [by apply Queen_contiguity_graph|].
  exists patches, patches'. split; [done|]. split; [done|].
  intros p q i j Hp Hq.
  assert (Hlen : length (reorder fs order) = length fs).
  { rewrite reorder_length by (intros; by eapply order_range).
    by rewrite Horder, length_seq. }
  assert (Hpl : p < length fs).
  { apply lookup_lt_Some in Hp. by rewrite Horder, length_seq in Hp. }
  assert (Hql : q < length fs).
  { apply lookup_lt_Some in Hq. by rewrite Horder, length_seq in Hq. }
  assert (Hil : i < length fs).
  { eapply order_range; [done|]. by eapply list_elem_of_lookup_2. }
  assert (Hjl : j < length fs).
  { eapply order_range; [done|]. by eapply list_elem_of_lookup_2. }
  rewrite Hsame' by lia. rewrite Hsame by lia. split.
  - intros Hreach.
    destruct (reachable_reorder_1 fs order Hcontract Horder p q Hreach i Hp)
      as (j' & Hj' & ?).
    by replace j with j' by congruence.
  - intros Hreach.
    destruct (reachable_reorder_2 fs order Hcontract Horder i j Hreach p Hp)
      as (q' & Hq' & ?).
    by replace q with q' by (by eapply order_inj).
Qed.

End FragmentOrder.

(** ** Block ids of buildings and cells *)

Section BlockJoin.
Context `{K : GeometryKernel}.

Lemma sindex_intersection_from (sindex : list bbox) (q : bbox) (k : nat) :
  let found :=
    omap (λ '(i, b), if bbox_intersects b q then Some i else None)
         (imap (λ i b, (k + i, b)) sindex) in
  NoDup found ∧ ∀ j, j ∈ found → k ≤ j.
Proof.
  revert k. induction sindex as [|b sindex IH]; intros k; simpl.
  - split; [constructor|]. intros j Hj. by apply elem_of_nil in Hj.
  - rewrite (imap_ext _ (λ i b, (S k + i, b))); last first.
    { intros i x _. simpl. f_equal. lia. }
    destruct (IH (S k)) as [Hnd Hge].
    destruct (bbox_intersects b q).
    + split.
      * apply NoDup_cons. split; [|done].
        intros Hin. apply Hge in Hin. lia.
      * intros j [->|Hj]%elem_of_cons; [lia|]. apply Hge in Hj. lia.
    + split; [done|]. intros j Hj. apply Hge in Hj. lia.
Qed.

Lemma NoDup_sindex_intersection (sindex : list bbox) (q : bbox) :
  NoDup (sindex_intersection sindex q).
Proof. apply (sindex_intersection_from sindex q 0). Qed.

(** The blocks that a geometry meets, as [sjoin] finds them. *)
Definition block_matches (g : geom) (right : list block_row)
  : list block_row :=
  List.filter (λ b, intersects g (b_geometry b))
    (omap (λ i, right !! i)
          (sindex_intersection (map (λ b, bounds (b_geometry b)) right)
                               (bounds g))).

(** A geometry that meets at most one block. *)
Definition single_match (g : geom) (right : list block_row) : Prop :=
  ∀ i1 i2 b1 b2,
    right !! i1 = Some b1 → right !! i2 = Some b2 →
    intersects g (b_geometry b1) = true →
    intersects g (b_geometry b2) = true → i1 = i2.

Lemma filter_none {A} (P : A → bool) (l : list A) :
  (∀ x, x ∈ l → P x = false) → List.filter P l = [].
Proof.
  induction l as [|x l IH]; intros H; [done|]. simpl.
  rewrite (H x) by by left. apply IH. intros y Hy. apply H. by right.
Qed.

Lemma single_match_positions (P : block_row → bool)
    (right : list block_row) (positions : list nat) :
  NoDup positions →
  (∀ i1 i2 b1 b2, right !! i1 = Some b1 → right !! i2 = Some b2 →
                  P b1 = true → P b2 = true → i1 = i2) →
  length (List.filter P (omap (λ i, right !! i) positions)) ≤ 1.
Proof.
  intros Hnd Hone. induction positions as [|i positions IH]; simpl; [lia|].
  apply NoDup_cons in Hnd as [Hi Hnd].
  destruct (right !! i) as [b|] eqn:Hb; [|by apply IH].
  simpl. destruct (P b) eqn:HP; [|by apply IH].
  rewrite filter_none; [simpl; lia|].
  intros b' Hb'. apply list_elem_of_omap in Hb' as (i' & Hi' & Hb').
  destruct (P b') eqn:HP'; [|done].
  exfalso. apply Hi. by rewrite (Hone i i' b b' Hb Hb' HP HP').
Qed.

Lemma single_match_length (g : geom) (right : list block_row) :
  single_match g right → length (block_matches g right) ≤ 1.
Proof.
  intros Hone. apply single_match_positions.
  - apply NoDup_sindex_intersection.
  - exact Hone.
Qed.

Lemma sjoin_elem (left : frame) (right : list block_row) l b :
  (l, b) ∈ sjoin left right →
  l ∈ left ∧
  match block_matches (geometry l) right with
  | [] => b = None
  | matches => b ∈ map bID matches
  end.
Proof.
  unfold sjoin. intros H. apply list_elem_of_In, in_flat_map in H as (l' & Hl' & H).
  apply list_elem_of_In in Hl'.
  fold (block_matches (geometry l') right) in H.
  destruct (block_matches (geometry l') right) as [|m ms] eqn:E.
  - destruct H as [[= <- <-]|[]]. rewrite E. done.
  - apply in_map_iff in H as (b' & [= <- <-] & Hb'). rewrite E.
    split; [done|]. apply list_elem_of_In, in_map. done.
Qed.

Lemma sjoin_covers (left : frame) (right : list block_row) l :
  l ∈ left → ∃ b, (l, b) ∈ sjoin left right.
Proof.
  intros Hl. unfold sjoin.
  fold (block_matches (geometry l) right).
  destruct (block_matches (geometry l) right) as [|m ms] eqn:E.
  - exists None. apply list_elem_of_In, in_flat_map. exists l.
    split; [by apply list_elem_of_In|].
    fold (block_matches (geometry l) right). rewrite E. by left.
  - exists (bID m). apply list_elem_of_In, in_flat_map. exists l.
    split; [by apply list_elem_of_In|].
    fold (block_matches (geometry l) right). rewrite E. by left.
Qed.

Lemma sjoin_functional (left : frame) (right : list block_row) l b1 b2 :
  single_match (geometry l) right →
  (l, b1) ∈ sjoin left right → (l, b2) ∈ sjoin left right → b1 = b2.
Proof.
  intros Hone%single_match_length [_ H1]%sjoin_elem [_ H2]%sjoin_elem.
  destruct (block_matches (geometry l) right) as [|m [|m' ms]].
  - congruence.
  - apply list_elem_of_singleton in H1, H2. congruence.
  - simpl in Hone. lia.
Qed.

Lemma merge_elem (left : frame) (table : list (Z * option Z)) r b :
  (r, b) ∈ merge left table →
  ∃ l, l ∈ left ∧ uID r = uID l ∧ geometry r = geometry l ∧
       columns r = columns l ∧ (uID l, b) ∈ table.
Proof.
  unfold merge. intros H.
  apply elem_of_lookup_imap in H as (i & [l b'] & [= -> ->] & H).
  apply list_elem_of_lookup_2, list_elem_of_In, in_flat_map in H as (l' & Hl' & H).
  apply in_map_iff in H as ([u b''] & [= <- <-] & H).
  apply filter_In in H as [H Hu]. apply bool_decide_eq_true in Hu.
  simpl in Hu. subst u. exists l'. simpl.
  repeat split; [by apply list_elem_of_In|by apply list_elem_of_In].
Qed.

Lemma merge_covers (left : frame) (table : list (Z * option Z)) l b :
  l ∈ left → (uID l, b) ∈ table →
  ∃ r, (r, b) ∈ merge left table ∧ uID r = uID l ∧
       geometry r = geometry l ∧ columns r = columns l.
Proof.
  intros Hl Hb.
  assert (Hin : (l, b) ∈ flat_map (λ l, map (λ t, (l, t.2))
                   (List.filter (λ t, bool_decide (t.1 = uID l)) table)) left).
  { apply list_elem_of_In, in_flat_map. exists l. split; [by apply list_elem_of_In|].
    apply in_map_iff. exists (uID l, b). split; [done|].
    apply filter_In. split; [by apply list_elem_of_In|].
    by apply bool_decide_eq_true. }
  apply list_elem_of_lookup_1 in Hin as [i Hi].
  eexists. split.
  - unfold merge. apply elem_of_lookup_imap. exists i, (l, b). split; [reflexivity|done].
  - done.
Qed.

Lemma blocks_inv tessellation edges buildings bo co bs :
  blocks tessellation edges buildings = Ok (bo, co, bs) →
  let buildings_c :=
    map (λ r, set_geometry (representative_point (geometry r)) r) buildings in
  let bl_ID_to_uID := map (λ e : row * option Z, (uID e.1, e.2))
                          (sjoin buildings_c bs) in
  bo = merge buildings bl_ID_to_uID ∧ co = merge tessellation bl_ID_to_uID.
Proof.
  unfold blocks. intros H.
  destruct (blocks_single_of tessellation edges) as [blocks_single|]; [|done].
  cbn [mbind result_bind] in H.
  destruct (blocks_save_of _ _ blocks_single) as [blocks_save|]; [|done].
  cbn [mbind result_bind] in H. by inversion H.
Qed.

Lemma table_elem (buildings : frame) (bs : list block_row) u b :
  (u, b) ∈ map (λ e : row * option Z, (uID e.1, e.2))
               (sjoin (map (λ r, set_geometry
                                   (representative_point (geometry r)) r)
                           buildings) bs) →
  ∃ l, l ∈ buildings ∧ uID l = u ∧
       (set_geometry (representative_point (geometry l)) l, b)
         ∈ sjoin (map (λ r, set_geometry
                              (representative_point (geometry r)) r)
                      buildings) bs.
Proof.
  intros H. apply list_elem_of_In, in_map_iff in H as ([lc b'] & [= <- <-] & H).
  apply list_elem_of_In in H. pose proof H as [Hlc _]%sjoin_elem.
  apply list_elem_of_In, in_map_iff in Hlc as (l & <- & Hl).
  exists l. split; [by apply list_elem_of_In|]. split; [done|]. exact H.
Qed.

(** The block id of a cell row is a block id of a building row with the
    same id: it comes from the table of the buildings, not from the
    cell's own position. *)
Lemma blocks_cells_inherit tessellation edges buildings bo co bs :
  blocks tessellation edges buildings = Ok (bo, co, bs) →
  ∀ rc bc, (rc, bc) ∈ co → ∃ rb, (rb, bc) ∈ bo ∧ uID rb = uID rc.
Proof.
  intros [-> ->]%blocks_inv rc bc Hc.
  apply merge_elem in Hc as (c & Hc & Hu & _ & _ & Ht).
  pose proof Ht as (l & Hl & Hlu & _)%table_elem.
  rewrite <- Hlu in Ht.
  destruct (merge_covers buildings _ l bc Hl Ht) as (rb & Hrb & Hrbu & _).
  exists rb. split; [done|]. congruence.
Qed.

(** C8: when the building ids are unique and the
    representative point of every building meets at most one of the
    blocks, a building row and a cell row of the output of [blocks] that
    share the same unique id carry the same block id. *)
Theorem blocks_shared_block_id tessellation edges buildings bo co bs :
  blocks tessellation edges buildings = Ok (bo, co, bs) →
  NoDup (map uID buildings) →
  (∀ r, r ∈ buildings →
        single_match (representative_point (geometry r)) bs) →
  ∀ rb bb rc bc,
    (rb, bb) ∈ bo → (rc, bc) ∈ co → uID rb = uID rc → bb = bc.
Proof.
  intros [-> ->]%blocks_inv Hnd Hone rb bb rc bc Hb Hc Hu.
  apply merge_elem in Hb as (b & _ & Hbu & _ & _ & Hbt).
  apply merge_elem in Hc as (c & _ & Hcu & _ & _ & Hct).
  apply table_elem in Hbt as (l1 & Hl1 & Hu1 & H1).
  apply table_elem in Hct as (l2 & Hl2 & Hu2 & H2).
  assert (l1 = l2) as <-.
  { apply (NoDup_map_injective uID buildings); [done..|congruence]. }
  eapply sjoin_functional; [|exact H1|exact H2].
  simpl. by apply Hone.
Qed.

End BlockJoin.

(** ** Seeds and regions *)

Section SeedFacts.
Context `{K : GeometryKernel}.

(** The boundary vertices that a row contributes as seeds. *)
Definition boundary_seeds (r : row) : list coord :=
  match boundary (geometry r) with
  | Ok (Some (LineString cs)) => cs
  | Ok (Some (MultiLineString ls)) => concat ls
  | _ => []
  end.

Lemma append_seeds_app (uid : Z) (acc : list coord * list Z) (cs : list coord) :
  append_seeds uid acc cs = (acc.1 ++ cs, acc.2 ++ replicate (length cs) uid).
Proof.
  unfold append_seeds. revert acc.
  induction cs as [|c cs IH]; intros [ps is_]; simpl.
  - by rewrite !app_nil_r.
  - rewrite IH. simpl. by rewrite <- !app_assoc.
Qed.

Lemma append_seeds_lines (uid : Z) (acc : list coord * list Z)
    (ls : list (list coord)) :
  fold_left (append_seeds uid) ls acc
  = (acc.1 ++ concat ls, acc.2 ++ replicate (length (concat ls)) uid).
Proof.
  revert acc. induction ls as [|l ls IH]; intros [ps is_]; simpl.
  - by rewrite !app_nil_r.
  - rewrite IH, append_seeds_app. simpl.
    rewrite length_app, replicate_add. by rewrite <- !app_assoc.
Qed.

Lemma _point_array_row_seeds (acc acc' : list coord * list Z) (r : row) :
  _point_array_row acc r = Ok acc' →
  acc' = (acc.1 ++ boundary_seeds r,
          acc.2 ++ replicate (length (boundary_seeds r)) (uID r)).
Proof.
  unfold _point_array_row, boundary_seeds.
  destruct (boundary (geometry r)) as [[[]|]|]; cbn [mbind result_bind];
    intros [= <-]; rewrite ?append_seeds_app, ?append_seeds_lines; try done.
  destruct acc. simpl. by rewrite !app_nil_r.
Qed.

Lemma for_each_point_array_seeds (objects : frame)
    (acc acc' : list coord * list Z) :
  for_each _point_array_row objects acc = Ok acc' →
  acc' = (acc.1 ++ flat_map boundary_seeds objects,
          acc.2 ++ flat_map (λ r, replicate (length (boundary_seeds r)) (uID r))
                            objects).
Proof.
  revert acc. induction objects as [|r objects IH]; intros acc; simpl.
  - intros [= <-]. destruct acc. simpl. by rewrite !app_nil_r.
  - destruct (_point_array_row acc r) as [acc1|] eqn:Hrow; [|done]. simpl.
    apply _point_array_row_seeds in Hrow. subst acc1.
    intros ->%IH. simpl. by rewrite <- !app_assoc.
Qed.

(** X1: when [_point_array] returns, the points are the boundary vertices
    of the rows, in row order, and [ids] names the row of every point:
    the two lists have the same length and position [k] of [ids] is the id
    of the row that point [k] comes from. *)
Theorem point_array_seeds (objects : frame) (points : list coord)
    (ids : list Z) :
  _point_array objects = Ok (points, ids) →
  points = flat_map boundary_seeds objects
  ∧ ids = flat_map (λ r, replicate (length (boundary_seeds r)) (uID r)) objects
  ∧ length points = length ids.
Proof.
  intros H%for_each_point_array_seeds. inversion H; subst. clear H.
  split; [done|]. split; [done|].
  induction objects as [|r objects IH]; [done|].
  simpl. rewrite !length_app, length_replicate. by rewrite IH.
Qed.

Lemma point_array_ids (objects : frame) (points : list coord) (ids : list Z) :
  _point_array objects = Ok (points, ids) →
  ∀ u, u ∈ ids → u ∈ map uID objects.
Proof.
  intros H%for_each_point_array_seeds. inversion H; subst. clear H.
  intros u Hu. apply list_elem_of_In, in_flat_map in Hu as (r & Hr & Hu).
  apply list_elem_of_In, elem_of_replicate in Hu as [-> _].
  by apply list_elem_of_In, in_map.
Qed.

Lemma mapM_Ok {A B} (f : A → result B) (l : list A) (out : list B) :
  mapM f l = Ok out → Forall2 (λ x y, f x = Ok y) l out.
Proof.
  revert out. induction l as [|x l IH]; intros out; simpl.
  - intros [= <-]. constructor.
  - destruct (f x) as [y|] eqn:Hx; [|done]. simpl.
    destruct (mapM f l) as [ys|]; [|done]. simpl.
    intros [= <-]. constructor; [done|]. by apply IH.
Qed.

Lemma Polygon_from_coords_Polygon (cs : list coord) (g : geom) :
  Polygon_from_coords cs = Ok g → ∃ p, g = Polygon p.
Proof.
  unfold Polygon_from_coords. destruct cs as [|? [|? [|? ?]]]; try done.
  intros [= <-]. eauto.
Qed.

Lemma _regions_rows (voronoi_diagram : voronoi_diagram) (ids : list Z)
    (regions_gdf : frame) :
  _regions voronoi_diagram ids = Ok regions_gdf →
  ∀ r, r ∈ regions_gdf →
       uID r ≠ (-1)%Z ∧ uID r ∈ ids
       ∧ (∃ p, geometry r = Polygon p)
       ∧ (length_of (geometry r) < 1000000)%Q.
Proof.
  unfold _regions. destruct (decide _) as [Hlen|]; [|done].
  destruct (mapM _ (point_region voronoi_diagram)) as [region_vertices|];
    [|done]. simpl.
  destruct (mapM _ region_vertices) as [polygons|] eqn:Hpolys; [|done]. simpl.
  intros [= <-] r Hr.
  apply list_elem_of_In, filter_In in Hr as [Hr Hid].
  apply filter_In in Hr as [Hr Hlength].
  apply negb_true_iff, bool_decide_eq_false in Hid.
  apply negb_true_iff in Hlength.
  split; [done|].
  apply list_elem_of_In, list_elem_of_omap in Hr as ([[i uid] og] & Hin & Hrow).
  apply elem_of_lookup_imap in Hin as (k & [uid' og'] & [= -> -> ->] & Hk).
  destruct og' as [g|]; [|done]. simpl in Hrow. inversion Hrow; subst r.
  simpl in *. apply lookup_zip_with_Some in Hk as (u & og & [= <- <-] & Hu & Hog).
  split; [by eapply list_elem_of_lookup_2|]. split.
  - apply mapM_Ok in Hpolys.
    eapply Forall2_lookup_r in Hpolys as (region & _ & Hregion); [|exact Hog].
    destruct (decide _); [done|].
    destruct (mapM _ region) as [cs|]; [|done]. simpl in Hregion.
    destruct (Polygon_from_coords cs) as [p|] eqn:Hp; [|done].
    simpl in Hregion. inversion Hregion; subst.
    by eapply Polygon_from_coords_Polygon.
  - destruct (Qlt_le_dec (length_of g) 1000000) as [?|Hle]; [done|].
    apply Qle_bool_iff in Hle. congruence.
Qed.

(** X2: every row that [_regions] returns has a polygon for its geometry,
    shorter than 1000000, and an id that is one of [ids] and is not -1:
    the regions of the hull points, the unbounded regions and the
    over-long ones are gone. *)
Theorem regions_rows (voronoi_diagram : voronoi_diagram) (ids : list Z)
    (regions_gdf : frame) :
  _regions voronoi_diagram ids = Ok regions_gdf →
  ∀ r, r ∈ regions_gdf →
       uID r ≠ (-1)%Z ∧ uID r ∈ ids
       ∧ (∃ p, geometry r = Polygon p)
       ∧ (length_of (geometry r) < 1000000)%Q.
Proof. apply _regions_rows. Qed.

End SeedFacts.

(** ** The limit and the cut *)

Section CutFacts.
Context `{K : GeometryKernel}.

Lemma _pair_lookup (cs : list coord) (k : nat) (a b : coord) :
  cs !! k = Some a → cs !! S k = Some b → _pair cs !! k = Some (a, b).
Proof.
  revert k. induction cs as [|c cs IH]; intros k Ha Hb; [done|].
  destruct cs as [|c' cs]; [by destruct k|].
  destruct k as [|k].
  - simpl in Ha, Hb. by inversion Ha; inversion Hb.
  - change (_pair (c' :: cs) !! k = Some (a, b)). by apply IH.
Qed.

Lemma _pair_length (cs : list coord) : length (_pair cs) = length cs - 1.
Proof.
  induction cs as [|c [|c' cs] IH]; try done.
  change (_pair (c :: c' :: cs)) with ((c, c') :: _pair (c' :: cs)).
  simpl length in *. rewrite IH. lia.
Qed.

(** X3: when the boundary of the (densified) polygon is one line of [n]
    coordinates, [_split_lines] returns its [n - 1] chords in order: chord
    [k] joins coordinate [k] to coordinate [k + 1], so every chord starts
    where the one before it ends. *)
Theorem split_lines_chords (polygon : geom) (distance : Q) (cs : list coord) :
  boundary (_densify polygon distance) = Ok (Some (LineString cs)) →
  ∃ segments, _split_lines polygon distance = Ok segments
    ∧ length segments = length cs - 1
    ∧ ∀ k a b, cs !! k = Some a → cs !! S k = Some b →
               segments !! k = Some (LineString [a; b]).
Proof.
  intros Hb. unfold _split_lines. rewrite Hb. eexists. split; [done|].
  split.
  - by rewrite length_map, _pair_length.
  - intros k a b Ha Hb'. rewrite lookup_map.
    by rewrite (_pair_lookup cs k a b Ha Hb').
Qed.

Lemma _cut_no_chords (t : frame) (limit : geom) :
  _split_lines limit 100 = Ok [] → _cut t limit = Ok t.
Proof. unfold _cut. by intros ->. Qed.

(** X4: a limit whose boundary is neither a LineString nor a
    MultiLineString (a point or a line, say) has no chords: [_cut] raises
    nothing and returns the tessellation as it was. *)
Theorem cut_by_lineless_limit (t : frame) (limit g : geom) :
  boundary (_densify limit 100) = Ok (Some g) →
  geom_type g ≠ "LineString"%string →
  geom_type g ≠ "MultiLineString"%string →
  _cut t limit = Ok t.
Proof.
  intros Hb Hl Hm. apply _cut_no_chords. unfold _split_lines. rewrite Hb.
  by destruct g.
Qed.

Lemma map_ix_loc_set idx g (t : frame) : map ix (loc_set idx g t) = map ix t.
Proof.
  unfold loc_set. rewrite map_map. apply map_ext. intros r. by case_decide.
Qed.

Lemma map_columns_loc_set idx g (t : frame) :
  map columns (loc_set idx g t) = map columns t.
Proof.
  unfold loc_set. rewrite map_map. apply map_ext. intros r. by case_decide.
Qed.

Lemma _cut_keeps {B} (f : row → B) (t t' : frame) (limit : geom) :
  (∀ idx g t, map f (loc_set idx g t) = map f t) →
  _cut t limit = Ok t' → map f t' = map f t.
Proof.
  intros Hf. unfold _cut.
  destruct (_split_lines limit 100) as [gc|]; [|done]. simpl.
  generalize (loc_rows t (map ix (drop_duplicates (cut_candidates t gc)))).
  intros rows. revert t. induction rows as [|r rows IH]; intros t Hfor.
  - by inversion Hfor.
  - simpl in Hfor. rewrite _cut_row_resolution in Hfor.
    destruct (clip_resolution limit (geometry r)) as [og|]; [|done].
    simpl in Hfor. apply IH in Hfor. rewrite Hfor.
    destruct og; [apply Hf|done].
Qed.

(** X5: [_cut] deletes and adds no row and writes to the geometry column
    only: the result has the index labels, the ids and the other columns
    of the input, row by row. *)
Theorem cut_keeps_rows (t t' : frame) (limit : geom) :
  _cut t limit = Ok t' →
  length t' = length t
  ∧ map ix t' = map ix t ∧ map uID t' = map uID t
  ∧ map columns t' = map columns t.
Proof.
  intros Hcut.
  assert (Hix : map ix t' = map ix t).
  { eapply _cut_keeps; [|done]. apply map_ix_loc_set. }
  split; [|split; [done|split]].
  - by rewrite <- (length_map ix t'), Hix, length_map.
  - eapply _cut_keeps; [|done]. apply map_uID_loc_set.
  - eapply _cut_keeps; [|done]. apply map_columns_loc_set.
Qed.

(** X6: a cell that crosses no chord of the limit boundary keeps its
    geometry, wherever it lies: cells wholly outside the limit are kept
    as they are. *)
Theorem cut_leaves_other_cells (t t' : frame) (limit : geom)
    (geometry_cut : list geom) (i : nat) (r : row) :
  NoDup (map ix t) → NoDup (map uID t) →
  _cut t limit = Ok t' →
  _split_lines limit 100 = Ok geometry_cut →
  t !! i = Some r →
  ¬ crosses_boundary geometry_cut r →
  t' !! i = Some r.
Proof.
  intros Hix Huid Hcut Hsplit Hi Hcross.
  destruct (_cut_spec t limit t' Hix Hcut) as (gc & Hgc & -> & _).
  rewrite Hsplit in Hgc. inversion Hgc; subst gc.
  rewrite lookup_map, Hi. simpl.
  rewrite decide_False; [done|].
  intros Hsel. apply Hcross.
  apply (cut_subselection_spec t geometry_cut r Hix Huid); [|done].
  by eapply list_elem_of_lookup_2.
Qed.

End CutFacts.

(** ** The result of tessellation *)

Section TessellationFacts.
Context `{K : GeometryKernel}.

Lemma explode_ids (df : frame) (u : Z) :
  u ∈ map uID (explode df) → u ∈ map uID df.
Proof.
  unfold explode. intros H.
  apply list_elem_of_In, in_map_iff in H as (r & <- & Hr).
  apply in_flat_map in Hr as (r0 & Hr0 & Hr).
  apply in_map_iff in Hr as (g & <- & _). simpl.
  by apply list_elem_of_In, in_map.
Qed.

Lemma map_uID_reset_index (df : frame) :
  map uID (reset_index df) = map uID df.
Proof.
  unfold reset_index.
  assert (H : ∀ (f : nat → row → row),
            (∀ i r, uID (f i r) = uID r) → map uID (imap f df) = map uID df).
  { induction df as [|r df IH]; intros f Hf; [done|].
    simpl. rewrite Hf. f_equal. apply IH. intros i r'. apply Hf. }
  by apply H.
Qed.

Lemma map_uID_set_geometry (f : row → geom) (df : frame) :
  map uID (map (λ r, set_geometry (f r) r) df) = map uID df.
Proof. by rewrite map_map. Qed.

Lemma tessellation_regions_ids (gdf : frame) (limit : geom)
    (shrink segment : Q) (centre : pyfloat * pyfloat) (regions_gdf : frame) :
  tessellation_regions gdf limit shrink segment = Ok (centre, regions_gdf) →
  ∀ u, u ∈ map uID regions_gdf → u ≠ (-1)%Z ∧ u ∈ map uID gdf.
Proof.
  unfold tessellation_regions.
  destruct (_point_array _) as [[points ids]|] eqn:Hpa; [|done]. simpl.
  destruct (boundary _) as [[hull_boundary|]|]; [|done|done]. simpl.
  destruct (coords hull_boundary) as [hull_array|]; [|done]. simpl.
  destruct (_regions _ _) as [regions|] eqn:Hregions; [|done]. simpl.
  intros [= <- <-] u Hu.
  apply list_elem_of_In, in_map_iff in Hu as (r & <- & Hr).
  apply list_elem_of_In in Hr.
  destruct (_regions_rows _ _ _ Hregions r Hr) as (Hne & Hin & _).
  split; [done|].
  apply elem_of_app in Hin as [Hin|Hin]; last first.
  { by apply elem_of_replicate in Hin as [? _]. }
  apply (point_array_ids _ _ _ Hpa) in Hin.
  rewrite map_uID_set_geometry, map_uID_reset_index in Hin.
  apply explode_ids in Hin. unfold erode, translate_frame in Hin.
  by rewrite !map_uID_set_geometry in Hin.
Qed.

Lemma map_ix_dissolve (df : frame) :
  map ix (dissolve df) = map Z.of_nat (seq 0 (length (dissolve df))).
Proof.
  unfold dissolve. generalize (groupby (λ r, Some (uID r)) geometry df).
  intros groups.
  assert (H : ∀ (f : nat → Z * list geom → row) (k : nat),
            (∀ i e, ix (f i e) = Z.of_nat (k + i)) →
            map ix (imap f groups)
            = map Z.of_nat (seq k (length (imap f groups)))).
  { induction groups as [|e groups IH]; intros f k Hf; [done|].
    simpl. rewrite Hf, Nat.add_0_r. f_equal.
    rewrite (IH _ (S k)); [done|].
    intros i e'. unfold compose. rewrite Hf. f_equal. lia. }
  apply H. by intros i [k gs].
Qed.

Lemma _queen_corners_keeps {B} (f : row → B) corner_ring (t : frame)
    sensitivity :
  (∀ idx g t, map f (loc_set idx g t) = map f t) →
  map f (_queen_corners corner_ring t sensitivity) = map f t.
Proof.
  intros Hf. unfold _queen_corners.
  assert (H : ∀ (rows t0 t1 : frame),
            map f (fold_left (λ t r, match corner_ring t0 sensitivity r with
                                     | Some newgeom => loc_set (ix r) newgeom t
                                     | None => t
                                     end) rows t1) = map f t1).
  { induction rows as [|r rows IH]; intros t0 t1; [done|].
    simpl. rewrite IH. destruct (corner_ring t0 sensitivity r); [|done].
    apply Hf. }
  apply H.
Qed.

Lemma tessellation_cells_frame corner_ring (centre : pyfloat * pyfloat)
    (regions_gdf : frame) (limit : geom) (queen_corners : bool)
    (sensitivity : Q) (cells : frame) :
  tessellation_cells corner_ring centre regions_gdf limit queen_corners
                     sensitivity = Ok cells →
  map uID cells = map uID (dissolve regions_gdf)
  ∧ map ix cells = map ix (dissolve regions_gdf).
Proof.
  unfold tessellation_cells.
  destruct (_cut _ limit) as [cut|] eqn:Hcut; [|done]. simpl.
  intros [= <-].
  pose proof (_cut_keeps uID _ _ _ map_uID_loc_set Hcut) as Hu.
  pose proof (_cut_keeps ix _ _ _ map_ix_loc_set Hcut) as Hi.
  unfold translate_frame in Hu, Hi. rewrite map_map in Hu, Hi. simpl in Hu, Hi.
  change (map (λ x : row, uID x) (dissolve regions_gdf))
    with (map uID (dissolve regions_gdf)) in Hu.
  change (map (λ x : row, ix x) (dissolve regions_gdf))
    with (map ix (dissolve regions_gdf)) in Hi.
  destruct queen_corners; [|done].
  rewrite (_queen_corners_keeps uID) by apply map_uID_loc_set.
  rewrite (_queen_corners_keeps ix) by apply map_ix_loc_set. done.
Qed.

Lemma tessellation_ids corner_ring (gdf : frame) (limit : geom)
    (shrink segment : Q) (queen_corners : bool) (sensitivity : Q)
    (cells : frame) :
  tessellation corner_ring gdf limit shrink segment queen_corners sensitivity
  = Ok cells →
  StronglySorted Z.lt (map uID cells)
  ∧ map ix cells = map Z.of_nat (seq 0 (length cells))
  ∧ ∀ u, u ∈ map uID cells → u ≠ (-1)%Z ∧ u ∈ map uID gdf.
Proof.
  unfold tessellation. intros Hcells.
  destruct (tessellation_regions gdf limit shrink segment)
    as [[centre regions_gdf]|] eqn:Hregions; [|done].
  simpl in Hcells. apply tessellation_cells_frame in Hcells as [Hu Hi].
  split; [|split].
  - rewrite Hu, map_uID_dissolve. apply groupby_keys.
  - rewrite Hi, map_ix_dissolve.
    by rewrite <- (length_map uID cells), Hu, length_map.
  - intros u Hin. rewrite Hu in Hin.
    destruct (dissolve_ids regions_gdf) as [_ Hd]. apply (proj1 (Hd u)) in Hin.
    by eapply tessellation_regions_ids.
Qed.

(** X7: the cells that [tessellation] returns are listed by increasing
    id, with the index labels 0, 1, 2, ...; every id is the id of an input
    building and none is -1, the mark of the hull points (so a building
    whose id is -1 gets no cell). *)
Theorem tessellation_cells_of_buildings corner_ring (gdf : frame)
    (limit : geom) (shrink segment : Q) (queen_corners : bool)
    (sensitivity : Q) (cells : frame) :
  tessellation corner_ring gdf limit shrink segment queen_corners sensitivity
  = Ok cells →
  StronglySorted Z.lt (map uID cells)
  ∧ map ix cells = map Z.of_nat (seq 0 (length cells))
  ∧ ∀ u, u ∈ map uID cells → u ≠ (-1)%Z ∧ u ∈ map uID gdf.
Proof. apply tessellation_ids. Qed.

Lemma NoDup_subset_length (l k : list Z) :
  NoDup l → NoDup k → (∀ u, u ∈ l → u ∈ k) →
  (length k ≠ length l ↔ ∃ u, u ∈ k ∧ u ∉ l).
Proof.
  intros Hl Hk Hsub.
  assert (Hms : l ⊆+ k) by (by apply NoDup_submseteq).
  split.
  - intros Hne. destruct (decide (Forall (λ u, u ∈ l) k)) as [Hkl|Hkl].
    + exfalso. apply Hne.
      assert (k ⊆+ l).
      { apply NoDup_submseteq; [done|]. by apply Forall_forall. }
      apply submseteq_length in Hms. apply submseteq_length in H. lia.
    + apply not_Forall_Exists in Hkl; [|apply _].
      apply Exists_exists in Hkl as (u & ? & ?). eauto.
  - intros (u & Hu & Hnu) Heq.
    apply Hnu. symmetry in Heq.
    pose proof (submseteq_length_Permutation _ _ Hms) as Hp.
    rewrite Hp; [done|lia].
Qed.

Lemma Collapsed_warned (tesselation orig_gdf : frame) (diff : gset Z) :
  Collapsed diff ∈ _check_result tesselation orig_gdf
  ↔ length (map uID orig_gdf) ≠ length (map uID tesselation)
    ∧ diff = list_to_set (map uID orig_gdf) ∖ list_to_set (map uID tesselation).
Proof.
  unfold _check_result. rewrite elem_of_app. split.
  - intros [H|H].
    + destruct (decide _) as [Hne|]; [|by apply elem_of_nil in H].
      apply list_elem_of_singleton in H. by inversion H.
    + destruct (decide (0 < _)); [|by apply elem_of_nil in H].
      by apply list_elem_of_singleton in H.
  - intros [Hne ->]. left. rewrite decide_True by done.
    by apply list_elem_of_singleton.
Qed.

(** X8: for buildings with distinct ids, [_check_result] warns that
    elements collapsed exactly when some building has no cell in the
    result of [tessellation], and the ids it reports are exactly the ids of
    the buildings without a cell. *)
Theorem check_result_reports_collapsed corner_ring (gdf : frame)
    (limit : geom) (shrink segment : Q) (queen_corners : bool)
    (sensitivity : Q) (cells : frame) :
  tessellation corner_ring gdf limit shrink segment queen_corners sensitivity
  = Ok cells →
  NoDup (map uID gdf) →
  ((∃ diff, Collapsed diff ∈ _check_result cells gdf)
   ↔ ∃ u, u ∈ map uID gdf ∧ u ∉ map uID cells)
  ∧ ∀ diff, Collapsed diff ∈ _check_result cells gdf →
            ∀ u, u ∈ diff ↔ u ∈ map uID gdf ∧ u ∉ map uID cells.
Proof.
  intros (Hsorted & _ & Hids)%tessellation_ids Hnd.
  apply StronglySorted_lt_NoDup in Hsorted.
  assert (Hsub : ∀ u, u ∈ map uID cells → u ∈ map uID gdf).
  { intros u Hu. by apply Hids. }
  pose proof (NoDup_subset_length _ _ Hsorted Hnd Hsub) as Hlen.
  split.
  - rewrite <- Hlen. split.
    + intros [diff [Hne _]%Collapsed_warned]. done.
    + intros Hne. eexists. apply Collapsed_warned. done.
  - intros diff [_ ->]%Collapsed_warned u.
    rewrite elem_of_difference, !elem_of_list_to_set. done.
Qed.

End TessellationFacts.

(** ** The ray of an extension *)

Section RayFacts.
Context `{K : GeometryKernel}.

Lemma Qle_bool_false_lt (x y : Q) : Qle_bool x y = false → (y < x)%Q.
Proof.
  intros H. destruct (Qlt_le_dec y x) as [?|Hle]; [done|].
  apply Qle_bool_iff in Hle. congruence.
Qed.

Lemma Qle_bool_lt_false (x y : Q) : (y < x)%Q → Qle_bool x y = false.
Proof.
  intros H. destruct (Qle_bool x y) eqn:E; [|done].
  apply Qle_bool_iff in E. lra.
Qed.

Lemma Qle_bool_lt_true (x y : Q) : (x < y)%Q → Qle_bool x y = true.
Proof. intros H. apply Qle_bool_iff. lra. Qed.

Lemma Qabs_zero (x : Q) : (Qabs x == 0)%Q ↔ (x == 0)%Q.
Proof.
  split; intros H.
  - destruct (Qlt_le_dec x 0) as [Hneg|Hpos].
    + rewrite Qabs_neg in H by lra. lra.
    + rewrite Qabs_pos in H by done. done.
  - rewrite H. reflexivity.
Qed.

(** X9: [getExtrapoledLine] divides by the double
    [|p1.x - p2.x + 0.000001|]: it raises ZeroDivisionError exactly when
    that double is zero, and raises nothing else.  Otherwise it returns a
    line that starts at [p2] and goes on, along each axis, the way the
    segment from [p1] to [p2] goes: by [tolerance * cos] along x and
    [tolerance * sin] along y of the angle whose tangent is the ratio. *)
Theorem getExtrapoledLine_direction (p1 p2 : coord) (tolerance : Q) :
  let ratio := (Qabs (float_skew p1.2 p2.2)
                / Qabs (float_skew p1.1 p2.1))%Q in
  let dx := (tolerance * math_cos (math_atan ratio))%Q in
  let dy := (tolerance * math_sin (math_atan ratio))%Q in
  ((float_skew p1.1 p2.1 == 0)%Q ↔
   getExtrapoledLine p1 p2 tolerance = Raise ZeroDivisionError)
  ∧ (∀ e, getExtrapoledLine p1 p2 tolerance = Raise e →
          e = ZeroDivisionError)
  ∧ (¬ (float_skew p1.1 p2.1 == 0)%Q →
     ∃ b, getExtrapoledLine p1 p2 tolerance = Ok (LineString [p2; b])
          ∧ ((p1.1 < p2.1)%Q → b.1 = (p2.1 + dx)%Q)
          ∧ ((p2.1 < p1.1)%Q → b.1 = (p2.1 - dx)%Q)
          ∧ ((p1.2 < p2.2)%Q → b.2 = (p2.2 + dy)%Q)
          ∧ ((p2.2 < p1.2)%Q → b.2 = (p2.2 - dy)%Q)).
Proof.
  intros ratio dx dy. unfold getExtrapoledLine, py_div.
  destruct (Qeq_bool (Qabs (float_skew p1.1 p2.1)) 0) eqn:Hz.
  - apply Qeq_bool_iff in Hz. apply (proj1 (Qabs_zero _)) in Hz.
    split; [split; [done|by intros _]|]. split; [by intros e [= <-]|].
    intros Hn. by destruct Hn.
  - apply Qeq_bool_neq in Hz. rewrite Qabs_zero in Hz.
    split; [split; [done|discriminate]|]. split; [discriminate|]. intros _.
    cbn [mbind result_bind]. fold ratio. fold dx. fold dy.
    eexists. split; [reflexivity|].
    repeat split; intros Hlt.
    + rewrite (Qle_bool_lt_false _ _ Hlt). cbn [andb].
      rewrite (Qle_bool_lt_true _ _ Hlt). cbn [andb].
      destruct (Qle_bool p2.2 p1.2) eqn:E1; [done|].
      destruct (Qle_bool p1.2 p2.2) eqn:E2; [done|].
      apply Qle_bool_false_lt in E1, E2. lra.
    + rewrite (Qle_bool_lt_true _ _ Hlt), (Qle_bool_lt_false _ _ Hlt).
      cbn [andb]. by destruct (Qle_bool p2.2 p1.2).
    + rewrite (Qle_bool_lt_false _ _ Hlt), (Qle_bool_lt_true _ _ Hlt).
      rewrite !andb_false_r, !andb_true_r.
      by destruct (Qle_bool p1.1 p2.1).
    + rewrite (Qle_bool_lt_true _ _ Hlt). rewrite !andb_true_r.
      destruct (Qle_bool p2.1 p1.1) eqn:E1; [done|].
      apply Qle_bool_false_lt in E1.
      by rewrite (Qle_bool_lt_true _ _ E1).
Qed.

(** X10: when [extend_line] returns False it has changed nothing: the
    network is as it was and no coordinate was appended to [l_coords], so
    the fallback [extend_line_edge] starts from the same line. *)
Theorem extend_line_False_changes_nothing (env : snap_env) (tolerance : Q)
    (idx : Z) (s s' : snap_state) :
  extend_line env tolerance idx s = (s', Ok ReturnFalse) → s' = s.
Proof.
  unfold extend_line, get_l_coords, lift, read_frame, mbind, snapM_bind, mret,
    snapM_ret.
  destruct (extrapolation_base (l_coords s)) as [[extra|]|]; [| |done].
  - destruct (extrapolate extra tolerance) as [extrapolation|]; [|done].
    destruct (heap s !! network env) as [network_df|]; [|done].
    destruct (drop_label idx _) as [clean|]; [|done].
    destruct (existsb _ _).
    + destruct (collect_true_int _) as [true_int|]; [|done].
      by destruct (commit_extension env idx true_int s) as [s1 [[]|]].
    + by intros [= <-].
  - by intros [= <-].
Qed.

End RayFacts.

(** ** The rows that blocks returns *)

Section BlockFacts.
Context `{K : GeometryKernel}.

Lemma table_covers (buildings : frame) (bs : list block_row) (l : row) :
  l ∈ buildings →
  ∃ b, (uID l, b) ∈ map (λ e : row * option Z, (uID e.1, e.2))
                        (sjoin (map (λ r, set_geometry
                                            (representative_point (geometry r)) r)
                                    buildings) bs).
Proof.
  intros Hl.
  destruct (sjoin_covers
              (map (λ r, set_geometry (representative_point (geometry r)) r)
                   buildings) bs
              (set_geometry (representative_point (geometry l)) l)) as [b Hb].
  { apply list_elem_of_In.
    apply (in_map (λ r, set_geometry (representative_point (geometry r)) r)).
    by apply list_elem_of_In. }
  exists b. apply list_elem_of_In, in_map_iff. eexists.
  split; [|by apply list_elem_of_In]. done.
Qed.

Lemma table_block (buildings : frame) (bs : list block_row) (u k : Z) :
  (u, Some k) ∈ map (λ e : row * option Z, (uID e.1, e.2))
                    (sjoin (map (λ r, set_geometry
                                        (representative_point (geometry r)) r)
                                buildings) bs) →
  ∃ blk, blk ∈ bs ∧ bID blk = Some k.
Proof.
  intros (l & _ & _ & H)%table_elem.
  apply sjoin_elem in H as [_ H].
  destruct (block_matches _ bs) as [|m ms] eqn:E; [done|].
  apply list_elem_of_In, in_map_iff in H as (blk & Hk & Hblk).
  exists blk. split; [|done].
  rewrite <- E in Hblk. unfold block_matches in Hblk.
  apply filter_In in Hblk as [Hblk _].
  apply list_elem_of_In, list_elem_of_omap in Hblk as (i & _ & Hi).
  by eapply list_elem_of_lookup_2.
Qed.

(** X11: [blocks] loses no building: every input building is in the
    buildings it returns, with its id, geometry and columns.  A cell is
    in the cells it returns exactly when its id is the id of some
    building.  Every block id that a returned row carries is the id of a
    returned block. *)
Theorem blocks_rows (tessellation edges buildings : frame)
    (bo co : list (row * option Z)) (bs : list block_row) :
  blocks tessellation edges buildings = Ok (bo, co, bs) →
  (∀ b, b ∈ buildings →
        ∃ rb bb, (rb, bb) ∈ bo ∧ uID rb = uID b ∧ geometry rb = geometry b
                 ∧ columns rb = columns b)
  ∧ (∀ c, c ∈ tessellation →
          uID c ∈ map uID buildings
          ↔ ∃ rc bc, (rc, bc) ∈ co ∧ uID rc = uID c ∧ geometry rc = geometry c
                     ∧ columns rc = columns c)
  ∧ (∀ rc bc, (rc, bc) ∈ co → uID rc ∈ map uID buildings)
  ∧ (∀ r k, (r, Some k) ∈ bo ∨ (r, Some k) ∈ co →
            ∃ blk, blk ∈ bs ∧ bID blk = Some k).
Proof.
  intros [-> ->]%blocks_inv.
  assert (Hcells : ∀ rc bc, (rc, bc) ∈ merge tessellation
            (map (λ e : row * option Z, (uID e.1, e.2))
               (sjoin (map (λ r, set_geometry
                                   (representative_point (geometry r)) r)
                           buildings) bs)) →
            uID rc ∈ map uID buildings).
  { intros rc bc (c & _ & Hu & _ & _ & Ht)%merge_elem.
    apply table_elem in Ht as (l & Hl & Hlu & _).
    rewrite Hu, <- Hlu. by apply list_elem_of_In, in_map, list_elem_of_In. }
  split; [|split; [|split]].
  - intros b Hb. destruct (table_covers buildings bs b Hb) as [bb Hbb].
    destruct (merge_covers buildings _ b bb Hb Hbb) as (rb & ? & ? & ? & ?).
    by exists rb, bb.
  - intros c Hc. split.
    + intros Hu. apply list_elem_of_In, in_map_iff in Hu as (l & Hlu & Hl).
      apply list_elem_of_In in Hl.
      destruct (table_covers buildings bs l Hl) as [bb Hbb].
      rewrite Hlu in Hbb.
      destruct (merge_covers tessellation _ c bb Hc Hbb) as (rc & ? & ? & ? & ?).
      by exists rc, bb.
    + intros (rc & bc & Hin & Hu & _). rewrite <- Hu. by eapply Hcells.
  - exact Hcells.
  - intros r k [(l & _ & _ & _ & _ & Ht)%merge_elem
               |(l & _ & _ & _ & _ & Ht)%merge_elem];
      by eapply table_block.
Qed.

(** *** The ids of the blocks *)

Lemma mapM_block_rows (gs : list geom) (k : nat) (bl : list block_row) :
  mapM (λ e : nat * geom,
          g ← Polygon_from_ring e.2;
          Ok {| b_ix := Z.of_nat e.1;
                bID := Some (Z.of_nat (S e.1));
                b_geometry := g |})
       (imap (λ i g, (k + i, g)) gs) = Ok bl →
  map b_ix bl = map Z.of_nat (seq k (length bl))
  ∧ Forall (λ b, bID b = Some (b_ix b + 1)%Z) bl.
Proof.
  revert k bl. induction gs as [|g gs IH]; intros k bl; simpl.
  - intros [= <-]. by split.
  - rewrite Nat.add_0_r.
    destruct (Polygon_from_ring g) as [p|]; [|done]. simpl.
    rewrite (imap_ext _ (λ i g, (S k + i, g))); last first.
    { intros i x _. simpl. f_equal. lia. }
    destruct (mapM _ _) as [bl'|] eqn:Hbl'; [|done]. simpl.
    intros [= <-]. apply IH in Hbl' as [Hix Hid]. simpl. split.
    + by rewrite Hix.
    + constructor; [|done]. simpl. f_equal. lia.
Qed.

Lemma kept_blocks_sorted (bl : list block_row) (delete : list bool) :
  StronglySorted Z.lt (map b_ix bl) →
  StronglySorted Z.lt
    (map b_ix (omap (λ e : block_row * bool, if e.2 then None else Some e.1)
                    (zip bl delete)))
  ∧ ∀ b, b ∈ omap (λ e : block_row * bool, if e.2 then None else Some e.1)
                  (zip bl delete) → b ∈ bl.
Proof.
  revert delete. induction bl as [|b bl IH]; intros delete Hs.
  - split; [constructor|]. intros b Hb. by apply elem_of_nil in Hb.
  - destruct delete as [|d delete].
    { split; [constructor|]. intros b' Hb. by apply elem_of_nil in Hb. }
    simpl in Hs. apply StronglySorted_inv in Hs as [Hs Hb].
    destruct (IH delete Hs) as [Hs' Hsub]. simpl. destruct d; simpl.
    + split; [done|]. intros b' Hb'. right. by apply Hsub.
    + split.
      * constructor; [done|]. apply Forall_forall. intros x Hx.
        apply list_elem_of_In, in_map_iff in Hx as (b' & <- & Hb').
        apply list_elem_of_In, Hsub in Hb'.
        eapply Forall_forall in Hb; [exact Hb|].
        by apply list_elem_of_In, in_map, list_elem_of_In.
      * intros b' [->|Hb']%elem_of_cons; [by left|]. right. by apply Hsub.
Qed.

Lemma seq_sorted (k n : nat) : StronglySorted Z.lt (map Z.of_nat (seq k n)).
Proof.
  revert k. induction n as [|n IH]; intros k; simpl; constructor; [apply IH|].
  apply Forall_forall. intros x Hx.
  apply list_elem_of_In, in_map_iff in Hx as (j & <- & Hj).
  apply in_seq in Hj. lia.
Qed.

Lemma NoDup_map_inj {A B} (f : A → B) (l : list A) :
  (∀ x y, f x = f y → x = y) → NoDup l → NoDup (map f l).
Proof.
  intros Hf. induction 1 as [|x l Hx Hnd IH]; simpl; constructor; [|done].
  intros Hin. apply list_elem_of_In, in_map_iff in Hin as (y & Hxy & Hy).
  apply Hf in Hxy. subst y. by apply Hx, list_elem_of_In.
Qed.

Lemma blocks_save_ids (tessellation buildings_c : frame)
    (blocks_single bs : list block_row) :
  blocks_save_of tessellation buildings_c blocks_single = Ok bs →
  StronglySorted Z.lt (map b_ix bs)
  ∧ Forall (λ b, (0 ≤ b_ix b)%Z ∧ bID b = Some (b_ix b + 1)%Z) bs.
Proof.
  unfold blocks_save_of.
  destruct (mapM _ (imap _ _)) as [bl|] eqn:Hbl; [|done].
  cbn [mbind result_bind].
  destruct (mapM _ (imap _ bl)) as [delete|]; [|done].
  cbn [mbind result_bind]. intros [= <-].
  apply (mapM_block_rows _ 0) in Hbl as [Hix Hid].
  assert (Hs : StronglySorted Z.lt (map b_ix bl)).
  { rewrite Hix. apply seq_sorted. }
  destruct (kept_blocks_sorted bl delete Hs) as [Hs' Hsub].
  split; [done|]. apply Forall_forall. intros b Hb%Hsub. split.
  - assert (Hin : b_ix b ∈ map b_ix bl).
    { by apply list_elem_of_In, in_map, list_elem_of_In. }
    rewrite Hix in Hin.
    apply list_elem_of_In, in_map_iff in Hin as (j & <- & _). lia.
  - by eapply Forall_forall in Hid.
Qed.

(** X12: the blocks that [blocks] returns are listed by increasing index
    label, and the block id of a block is its label plus one: the block
    ids are positive and no two blocks have the same one (the blocks that
    were deleted for lying within another one leave gaps). *)
Theorem blocks_ids_distinct (tessellation edges buildings : frame)
    (bo co : list (row * option Z)) (bs : list block_row) :
  blocks tessellation edges buildings = Ok (bo, co, bs) →
  StronglySorted Z.lt (map b_ix bs)
  ∧ Forall (λ b, (0 ≤ b_ix b)%Z ∧ bID b = Some (b_ix b + 1)%Z) bs
  ∧ NoDup (map bID bs).
Proof.
  unfold blocks.
  destruct (blocks_single_of tessellation edges) as [blocks_single|]; [|done].
  cbn [mbind result_bind].
  destruct (blocks_save_of _ _ blocks_single) as [blocks_save|] eqn:Hsave;
    [|done].
  cbn [mbind result_bind]. intros [= _ _ <-].
  apply blocks_save_ids in Hsave as [Hs Hid].
  split; [done|]. split; [done|].
  assert (Heq : map bID blocks_save
                = map (λ z, Some (z + 1)%Z) (map b_ix blocks_save)).
  { rewrite map_map. apply map_ext_in. intros b Hb.
    eapply Forall_forall in Hid; [|by apply list_elem_of_In]. by destruct Hid. }
  rewrite Heq. apply StronglySorted_lt_NoDup in Hs.
  apply NoDup_map_inj; [|done]. intros x y [= ?]. lia.
Qed.

(** *** The scan for nested blocks *)

Lemma py_remove_elem (x : nat) (l : list nat) :
  x ∈ l → NoDup l →
  ∃ l', py_remove x l = Ok l' ∧ ∀ y, y ∈ l' ↔ y ∈ l ∧ y ≠ x.
Proof.
  induction l as [|y l IH]; intros Hin Hnd; [by apply elem_of_nil in Hin|].
  apply NoDup_cons in Hnd as [Hy Hnd]. simpl.
  destruct (decide (y = x)) as [->|Hne].
  - exists l. split; [done|]. intros z. rewrite elem_of_cons. split.
    + intros Hz. split; [by right|]. by intros ->.
    + by intros [[->|?] ?].
  - apply elem_of_cons in Hin as [->|Hin]; [done|].
    destruct (IH Hin Hnd) as (l' & -> & Hl'). simpl.
    exists (y :: l'). split; [done|]. intros z.
    rewrite !elem_of_cons, Hl'. split.
    + intros [->|[? ?]]; [by split; [left|]|]. by split; [right|].
    + intros [[->|?] ?]; [by left|by right].
Qed.

Lemma py_remove_missing (x : nat) (l : list nat) :
  x ∉ l → py_remove x l = Raise ValueError.
Proof.
  induction l as [|y l IH]; intros Hin; [done|]. simpl.
  rewrite not_elem_of_cons in Hin. destruct Hin as [Hne Hin].
  rewrite decide_False by done. by rewrite IH.
Qed.

(** X13: in the scan that deletes nested blocks, a block whose bounding
    box meets itself is among the hits of its own query, so
    [possible_matches.remove(idx)] succeeds; the block is marked exactly
    when it lies within another block whose bounding box meets its own.
    A block whose bounding box does not meet itself makes the scan raise
    ValueError. *)
Theorem within_another_marks (blocks : list block_row) (idx : nat)
    (r : block_row) :
  blocks !! idx = Some r →
  let sindex := map (λ b, bounds (b_geometry b)) blocks in
  let own := bounds (b_geometry r) in
  (bbox_intersects own own = true →
   ∃ v, within_another blocks sindex idx r = Ok v
        ∧ (v = true ↔
           ∃ j row2, j ≠ idx ∧ blocks !! j = Some row2
                     ∧ bbox_intersects (bounds (b_geometry row2)) own = true
                     ∧ within (b_geometry r) (b_geometry row2) = true))
  ∧ (bbox_intersects own own = false →
     within_another blocks sindex idx r = Raise ValueError).
Proof.
  intros Hidx sindex own. unfold within_another. fold sindex. fold own.
  assert (Hhit : idx ∈ sindex_intersection sindex own
                 ↔ bbox_intersects own own = true).
  { rewrite sindex_intersection_spec. unfold sindex.
    rewrite lookup_map, Hidx. simpl. split.
    - by intros (b & [= <-] & ?).
    - intros ?. by exists own. }
  split.
  - intros Hown. apply Hhit in Hown.
    destruct (py_remove_elem idx _ Hown (NoDup_sindex_intersection _ _))
      as (l' & -> & Hl').
    cbn [mbind result_bind]. eexists. split; [done|].
    rewrite existsb_exists. split.
    + intros (row2 & Hin & Hw).
      apply list_elem_of_In, list_elem_of_omap in Hin as (j & Hj & Hrow2).
      apply Hl' in Hj as [Hj Hne].
      apply sindex_intersection_spec in Hj as (b & Hb & Hbb).
      unfold sindex in Hb. rewrite lookup_map, Hrow2 in Hb.
      inversion Hb; subst b. by exists j, row2.
    + intros (j & row2 & Hne & Hrow2 & Hbb & Hw).
      exists row2. split; [|done].
      apply list_elem_of_In, list_elem_of_omap. exists j. split; [|done].
      apply Hl'. split; [|done].
      apply sindex_intersection_spec. eexists. split; [|exact Hbb].
      unfold sindex. by rewrite lookup_map, Hrow2.
  - intros Hown. rewrite py_remove_missing; [done|].
    rewrite Hhit. congruence.
Qed.

End BlockFacts.

(** ** Patches and chains of touching fragments *)

Section PatchFacts.
Context `{K : GeometryKernel}.
Variable touching : geom → geom → Prop.

(** Fragment [j] is another fragment that touches fragment [i]. *)
Definition touches (fs : list geom) (i j : nat) : Prop :=
  i ≠ j ∧ ∃ a b, fs !! i = Some a ∧ fs !! j = Some b ∧ touching a b.

(** X14: with Queen contiguity weights, the loop that fills [patches]
    ends without an error, gives every fragment a patch number, and gives
    two fragments the same number exactly when a chain of touching
    fragments leads from one to the other. *)
Theorem patches_are_touching_chains (fs : list geom) :
  Queen_contract touching →
  ∃ patches,
    patches_of (Queen_neighbors fs) (length fs) = Ok patches
    ∧ (∀ i, i < length fs → is_Some (patches !! i))
    ∧ ∀ i j, i < length fs → j < length fs →
             (patches !! i = patches !! j ↔ rtc (touches fs) i j).
Proof.
  intros Hcontract.
  destruct (patches_of_components (Queen_neighbors fs) (length fs))
    as (patches & Hpatches & Hall & Hsame);
    [by apply (Queen_contiguity_graph touching)|].
  exists patches. split; [done|]. split; [done|].
  intros i j Hi Hj. rewrite (Hsame i j Hi Hj).
  destruct Hcontract as [_ Hq]. unfold reachable. split.
  - apply rtc_subrel. intros x y Hxy. by apply Hq.
  - apply rtc_subrel. intros x y Hxy. by apply Hq.
Qed.

End PatchFacts.

(** ** Properties of get_node_id *)

Lemma first_where_Ok {A} (P : A → bool) (df : list A) (x : A) :
  first_where P df = Ok x →
  x ∈ df ∧ P x = true
  ∧ ∃ k, df !! k = Some x ∧ ∀ j y, j < k → df !! j = Some y → P y = false.
Proof.
  unfold first_where. induction df as [|y df IH]; [done|]. simpl.
  destruct (P y) eqn:Hy.
  - intros [= <-]. split; [by left|]. split; [done|].
    exists 0. split; [done|]. intros j z Hj. lia.
  - intros (Hin & HP & k & Hk & Hfirst)%IH. split; [by right|].
    split; [done|]. exists (S k). split; [done|].
    intros [|j] z Hj Hz; simpl in Hz; [by inversion Hz; subst|].
    apply (Hfirst j); [lia|done].
Qed.

Lemma first_where_found {A} (P : A → bool) (df : list A) (x : A) :
  x ∈ df → P x = true → ∃ y, first_where P df = Ok y.
Proof.
  intros Hin HP. unfold first_where.
  destruct (List.filter P df) as [|y l] eqn:E; [|by eauto].
  assert (Hx : In x (List.filter P df)).
  { apply filter_In. split; [by apply list_elem_of_In|done]. }
  rewrite E in Hx. by destruct Hx.
Qed.

Lemma first_where_missing {A} (P : A → bool) (df : list A) :
  (∀ x, x ∈ df → P x = false) → first_where P df = Raise IndexError.
Proof.
  intros H. unfold first_where.
  destruct (List.filter P df) as [|y l] eqn:E; [done|].
  assert (Hy : In y (List.filter P df)) by (rewrite E; by left).
  apply filter_In in Hy as [Hy HP]. apply list_elem_of_In, H in Hy. congruence.
Qed.

Section NodeIdFacts.
Context `{K : GeometryKernel}.
Variable centroid : geom → geom.

(** What [get_node_id] answers for one object: NaN when the object has
    no edge; otherwise the start node of its edge when that is not
    farther from the centroid than the end node, and the end node when
    the end node is nearer. *)
Definition nearer_node (nodes : list node_row) (edges : list edge_row)
    (row : object_row) (answer : option Z) : Prop :=
  match o_edge row with
  | None => answer = None
  | Some eid =>
      ∃ edge start end_,
        first_where (λ e, bool_decide (edge_id e = eid)) edges = Ok edge
        ∧ first_where (λ n, bool_decide (node_id n = node_start edge)) nodes
          = Ok start
        ∧ first_where (λ n, bool_decide (node_id n = node_end edge)) nodes
          = Ok end_
        ∧ let sd := distance (centroid (o_geometry row)) (n_geometry start) in
          let ed := distance (centroid (o_geometry row)) (n_geometry end_) in
          (answer = Some (node_start edge) ∧ (sd <= ed)%Q)
          ∨ (answer = Some (node_end edge) ∧ (ed < sd)%Q)
  end.

(** The edge ids of the objects are edge ids of [edges], and the end
    nodes of the edges are nodes of [nodes]. *)
Definition references_resolve (objects : list object_row)
    (nodes : list node_row) (edges : list edge_row) : Prop :=
  (∀ row eid, row ∈ objects → o_edge row = Some eid →
              eid ∈ map edge_id edges)
  ∧ (∀ edge, edge ∈ edges →
             node_start edge ∈ map node_id nodes
             ∧ node_end edge ∈ map node_id nodes).

Lemma get_node_id_row_Ok nodes edges results_list row out :
  get_node_id_row centroid nodes edges results_list row = Ok out →
  ∃ answer, out = results_list ++ [answer]
            ∧ nearer_node nodes edges row answer.
Proof.
  unfold get_node_id_row, nearer_node. destruct (o_edge row) as [eid|].
  - intros H.
    destruct (first_where _ edges) as [edge|] eqn:He in H; [|done].
    cbn [mbind result_bind] in H.
    destruct (first_where (λ n, bool_decide (node_id n = node_start edge)) nodes)
      as [start|] eqn:Hs in H; [|done].
    cbn [mbind result_bind] in H.
    destruct (first_where (λ n, bool_decide (node_id n = node_end edge)) nodes)
      as [end_|] eqn:Hend in H; [|done].
    cbn [mbind result_bind] in H.
    destruct (Qle_bool _ _) eqn:Hle in H; simpl in H; inversion H; subst out.
    + exists (Some (node_start edge)). split; [done|].
      exists edge, start, end_. do 3 (split; [done|]).
      left. split; [done|]. by apply Qle_bool_iff.
    + exists (Some (node_end edge)). split; [done|].
      exists edge, start, end_. do 3 (split; [done|]).
      right. split; [done|]. by apply Qle_bool_false_lt.
  - intros [= <-]. by exists None.
Qed.

Lemma get_node_id_row_resolves objects nodes edges results_list row :
  references_resolve objects nodes edges → row ∈ objects →
  ∃ out, get_node_id_row centroid nodes edges results_list row = Ok out.
Proof.
  intros [Hedges Hnodes] Hrow. unfold get_node_id_row.
  destruct (o_edge row) as [eid|] eqn:Heid; [|by eauto].
  specialize (Hedges row eid Hrow Heid).
  apply list_elem_of_In, in_map_iff in Hedges as (e & He & Hin).
  apply list_elem_of_In in Hin.
  destruct (first_where_found (λ e, bool_decide (edge_id e = eid)) edges e Hin)
    as [edge Hedge]; [by apply bool_decide_eq_true|].
  rewrite Hedge. cbn [mbind result_bind].
  apply first_where_Ok in Hedge as (Hedge_in & _ & _).
  destruct (Hnodes edge Hedge_in) as [Hs Hend].
  apply list_elem_of_In, in_map_iff in Hs as (s & Hs & Hsin).
  apply list_elem_of_In, in_map_iff in Hend as (e' & He' & Hein).
  apply list_elem_of_In in Hsin, Hein.
  destruct (first_where_found
              (λ n, bool_decide (node_id n = node_start edge)) nodes s Hsin)
    as [start ->]; [by apply bool_decide_eq_true|].
  cbn [mbind result_bind].
  destruct (first_where_found
              (λ n, bool_decide (node_id n = node_end edge)) nodes e' Hein)
    as [end_ ->]; [by apply bool_decide_eq_true|].
  cbn [mbind result_bind]. destruct (negb _); eauto.
Qed.

Lemma get_node_id_loop objects nodes edges rows results_list :
  references_resolve objects nodes edges →
  (∀ row, row ∈ rows → row ∈ objects) →
  ∃ answers,
    for_each (get_node_id_row centroid nodes edges) rows results_list
    = Ok (results_list ++ answers)
    ∧ Forall2 (nearer_node nodes edges) rows answers.
Proof.
  intros Href. revert results_list.
  induction rows as [|row rows IH]; intros results_list Hsub.
  - exists []. split; [by rewrite app_nil_r|constructor].
  - destruct (get_node_id_row_resolves objects nodes edges results_list row)
      as [out Hout]; [done|apply Hsub; by left|].
    pose proof Hout as (answer & -> & Hanswer)%get_node_id_row_Ok.
    destruct (IH (results_list ++ [answer])) as (answers & Hrest & Hall).
    { intros r Hr. apply Hsub. by right. }
    exists (answer :: answers). split.
    + simpl. rewrite Hout. cbn [mbind result_bind]. rewrite Hrest.
      by rewrite <- app_assoc.
    + by constructor.
Qed.

(** X15: when every edge id of the objects is the id of an edge and the
    end nodes of every edge are nodes, [get_node_id] returns one answer
    for every object, in order: NaN for an object without an edge id, and
    otherwise the end node of its edge that is nearer to its centroid,
    the start node when both are equally near.  With repeated ids, the
    first edge and the first node with the id are the ones used. *)
Theorem get_node_id_nearest (objects : list object_row)
    (nodes : list node_row) (edges : list edge_row) :
  references_resolve objects nodes edges →
  ∃ series, get_node_id centroid objects nodes edges = Ok series
            ∧ length series = length objects
            ∧ Forall2 (nearer_node nodes edges) objects series.
Proof.
  intros Href.
  destruct (get_node_id_loop objects nodes edges objects [] Href)
    as (answers & Hrun & Hall); [done|].
  exists answers. split; [done|]. split; [|done].
  symmetry. by eapply Forall2_length.
Qed.

Lemma get_node_id_row_raises nodes edges results_list row e :
  get_node_id_row centroid nodes edges results_list row = Raise e →
  e = IndexError.
Proof.
  unfold get_node_id_row, first_where. destruct (o_edge row) as [eid|]; [|done].
  intros H.
  destruct (List.filter _ edges) as [|edge ?]; cbn in H; [by inversion H|].
  destruct (List.filter (λ n, bool_decide (node_id n = node_start edge)) nodes);
    cbn in H; [by inversion H|].
  destruct (List.filter (λ n, bool_decide (node_id n = node_end edge)) nodes);
    cbn in H; [by inversion H|].
  by destruct (negb _) in H.
Qed.

(** X16: one object whose edge id is not the id of any edge makes the
    whole call fail with IndexError (from [.iloc[0]] on an empty
    selection), whatever the other objects are; IndexError is the only
    exception of [get_node_id]. *)
Theorem get_node_id_unknown_edge (objects : list object_row)
    (nodes : list node_row) (edges : list edge_row) :
  (∀ e, get_node_id centroid objects nodes edges = Raise e → e = IndexError)
  ∧ ∀ row eid, row ∈ objects → o_edge row = Some eid →
               eid ∉ map edge_id edges →
               get_node_id centroid objects nodes edges = Raise IndexError.
Proof.
  unfold get_node_id. generalize (@nil (option Z)).
  assert (Honly : ∀ rows acc e,
            for_each (get_node_id_row centroid nodes edges) rows acc = Raise e →
            e = IndexError).
  { induction rows as [|r rows IH]; intros acc e; [done|]. simpl.
    destruct (get_node_id_row centroid nodes edges acc r) as [acc'|e'] eqn:Hr.
    - cbn [mbind result_bind]. apply IH.
    - cbn [mbind result_bind]. intros [= <-].
      by eapply get_node_id_row_raises. }
  intros acc. split; [apply Honly|].
  intros row eid Hrow Heid Hmissing.
  assert (Hraise : ∀ acc', get_node_id_row centroid nodes edges acc' row
                           = Raise IndexError).
  { intros acc'. unfold get_node_id_row. rewrite Heid.
    rewrite first_where_missing; [done|].
    intros x Hx. apply bool_decide_eq_false. intros Hxe. apply Hmissing.
    rewrite <- Hxe. by apply list_elem_of_In, in_map, list_elem_of_In. }
  revert acc. induction objects as [|r rows IH]; intros acc;
    [by apply elem_of_nil in Hrow|].
  simpl.
  destruct (get_node_id_row centroid nodes edges acc r) as [acc'|e'] eqn:Hr.
  - cbn [mbind result_bind]. apply elem_of_cons in Hrow as [->|Hrow].
    + by rewrite Hraise in Hr.
    + by apply IH.
  - cbn [mbind result_bind]. f_equal. by eapply get_node_id_row_raises.
Qed.

End NodeIdFacts.

(** ** Properties of the nearest segment *)

Module NetworkIdFacts.
Import NetworkId.

(** The point at parameter [s] of the segment from [b] to [c]. *)
Definition along_segment (seg : segment) (s : Q) : coord :=
  (s * (seg.2.1 - seg.1.1) + seg.1.1, s * (seg.2.2 - seg.1.2) + seg.1.2)%Q.

Section ClosureFacts.
Variable math_sqrt : Q → Q.
Variable float_pow2 : Q → result Q.

(** The box that [get_solution] builds around a point. *)
Definition around (MIN_SIZE : Q) (p : coord) : bbox :=
  (p.1 - MIN_SIZE, p.2 - MIN_SIZE, p.1 + MIN_SIZE, p.2 + MIN_SIZE)%Q.

(** What [get_solution] stores for a point [p] with the hits [hits]: a hit
    at the least distance, which is at most [INFTY]; or nothing when every
    hit is farther than [INFTY] (or there is no hit). *)
Definition nearest_among (p : coord) (hits : list (segment * Z))
    (v : option (segment * Z)) : Prop :=
  match v with
  | None =>
      ∀ h, h ∈ hits →
           ∃ r, get_distance math_sqrt float_pow2 p h.1 = Ok r ∧ (INFTY < r.2)%Q
  | Some h =>
      h ∈ hits
      ∧ ∃ r, get_distance math_sqrt float_pow2 p h.1 = Ok r ∧ (r.2 <= INFTY)%Q
             ∧ ∀ h', h' ∈ hits →
                     ∃ r', get_distance math_sqrt float_pow2 p h'.1 = Ok r'
                           ∧ (r.2 <= r'.2)%Q
  end.

Definition nearest_inv (p : coord) (seen : list (segment * Z))
    (st : Q * option (segment * Z)) : Prop :=
  match st.2 with
  | None =>
      st.1 = INFTY
      ∧ ∀ h, h ∈ seen →
             ∃ r, get_distance math_sqrt float_pow2 p h.1 = Ok r ∧ (INFTY < r.2)%Q
  | Some h =>
      h ∈ seen ∧ (st.1 <= INFTY)%Q
      ∧ ∃ r, get_distance math_sqrt float_pow2 p h.1 = Ok r ∧ r.2 = st.1
             ∧ ∀ h', h' ∈ seen →
                     ∃ r', get_distance math_sqrt float_pow2 p h'.1 = Ok r'
                           ∧ (st.1 <= r'.2)%Q
  end.

Lemma nearest_inv_among p hits d v :
  nearest_inv p hits (d, v) → nearest_among p hits v.
Proof.
  unfold nearest_inv, nearest_among. cbn [fst snd]. destruct v as [h|].
  - intros (Hin & Hle & r & Hr & <- & Hall). split; [done|].
    exists r. by repeat split.
  - by intros [_ H].
Qed.

Lemma nearest_step_inv p seen st h st' :
  nearest_inv p seen st →
  nearest_step math_sqrt float_pow2 p st h = Ok st' →
  nearest_inv p (seen ++ [h]) st'.
Proof.
  destruct st as [d s]. unfold nearest_step.
  destruct (get_distance math_sqrt float_pow2 p h.1) as [r|] eqn:Hr; [|done].
  cbn [mbind result_bind].
  destruct (Qle_bool r.2 d) eqn:Hle; intros Hinv [= <-].
  - apply Qle_bool_iff in Hle. unfold nearest_inv in *. cbn [fst snd] in *.
    split; [set_solver|].
    assert (Hd : (d <= INFTY)%Q).
    { destruct s; [by destruct Hinv as (_ & ? & _)|].
      destruct Hinv as [-> _]. lra. }
    split; [lra|]. exists r. split; [done|]. split; [done|].
    intros h' [Hin| ->%list_elem_of_singleton]%elem_of_app.
    + destruct s as [h0|].
      * destruct Hinv as (_ & _ & r0 & _ & _ & Hall).
        destruct (Hall h' Hin) as (r' & ? & ?). exists r'. split; [done|lra].
      * destruct Hinv as [_ Hall].
        destruct (Hall h' Hin) as (r' & ? & ?). exists r'. split; [done|lra].
    + exists r. split; [done|lra].
  - apply Qle_bool_false_lt in Hle. unfold nearest_inv in *.
    cbn [fst snd] in *. destruct s as [h0|].
    + destruct Hinv as (Hin & Hd & r0 & Hr0 & He & Hall).
      split; [set_solver|]. split; [done|]. exists r0.
      split; [done|]. split; [done|].
      intros h' [Hin'| ->%list_elem_of_singleton]%elem_of_app;
        [by apply Hall|].
      exists r. split; [done|lra].
    + destruct Hinv as [-> Hall]. split; [done|].
      intros h' [Hin'| ->%list_elem_of_singleton]%elem_of_app;
        [by apply Hall|].
      by exists r.
Qed.

Lemma nearest_loop_inv p hits seen st st' :
  nearest_inv p seen st →
  for_each (nearest_step math_sqrt float_pow2 p) hits st = Ok st' →
  nearest_inv p (seen ++ hits) st'.
Proof.
  revert seen st. induction hits as [|h hits IH]; intros seen st Hinv.
  - intros [= <-]. by rewrite app_nil_r.
  - cbn [for_each].
    destruct (nearest_step math_sqrt float_pow2 p st h) as [st1|] eqn:Hstep; [|done].
    cbn [mbind result_bind]. intros Hloop.
    replace (seen ++ h :: hits) with ((seen ++ [h]) ++ hits)
      by by rewrite <- app_assoc.
    apply (IH _ st1); [|done]. by apply (nearest_step_inv p seen st).
Qed.

Lemma coord_eqb_refl (k : coord) : coord_eqb k k = true.
Proof.
  unfold coord_eqb. apply andb_true_intro.
  split; apply Qeq_bool_iff; reflexivity.
Qed.

Lemma coord_eqb_trans (a b c : coord) :
  coord_eqb a b = true → coord_eqb b c = true → coord_eqb a c = true.
Proof.
  unfold coord_eqb. intros [H1 H2]%andb_prop [H3 H4]%andb_prop.
  apply Qeq_bool_iff in H1, H2, H3, H4. apply andb_true_intro.
  split; apply Qeq_bool_iff; lra.
Qed.

Lemma dict_set_elem {V} key (value : V) d k v :
  (k, v) ∈ dict_set key value d →
  (k, v) ∈ d ∨ (v = value ∧ coord_eqb k key = true).
Proof.
  induction d as [|[k0 v0] d IH]; cbn [dict_set].
  - intros [= -> ->]%list_elem_of_singleton. right.
    split; [done|apply coord_eqb_refl].
  - destruct (coord_eqb k0 key) eqn:E.
    + intros [[= -> ->]|Hin]%elem_of_cons; [by right|].
      left. by right.
    + intros [[= -> ->]|Hin]%elem_of_cons; [left; left|].
      destruct (IH Hin) as [?|?]; [|by right].
      left. by right.
Qed.

Lemma dict_set_has {V} key (value : V) d :
  ∃ k, (k, value) ∈ dict_set key value d ∧ coord_eqb k key = true.
Proof.
  induction d as [|[k0 v0] d (k & Hin & Hk)]; cbn [dict_set].
  - exists key. split; [left|apply coord_eqb_refl].
  - destruct (coord_eqb k0 key) eqn:E.
    + exists k0. split; [left|done].
    + exists k. split; [by right|done].
Qed.

Lemma dict_set_keeps {V} key (value : V) d k v :
  (k, v) ∈ d → ∃ v', (k, v') ∈ dict_set key value d.
Proof.
  induction d as [|[k0 v0] d IH]; cbn [dict_set].
  - by intros ?%elem_of_nil.
  - intros [[= -> ->]|Hin]%elem_of_cons.
    + destruct (coord_eqb k0 key); eexists; left.
    + destruct (coord_eqb k0 key).
      * exists v. by right.
      * destruct (IH Hin) as [v' ?]. exists v'.
        by right.
Qed.

Lemma dict_set_length_le {V} key (value : V) d :
  length (dict_set key value d) ≤ S (length d).
Proof.
  induction d as [|[k0 v0] d IH]; cbn [dict_set]; [done|].
  destruct (coord_eqb k0 key); cbn [length]; lia.
Qed.

Lemma dict_set_length_present {V} key (value : V) d k v :
  (k, v) ∈ d → coord_eqb k key = true →
  length (dict_set key value d) = length d.
Proof.
  induction d as [|[k0 v0] d IH]; cbn [dict_set].
  - by intros ?%elem_of_nil.
  - intros [[= -> ->]|Hin]%elem_of_cons Hk.
    + by rewrite Hk.
    + destruct (coord_eqb k0 key); [done|]. cbn [length].
      by rewrite IH.
Qed.

(** One round of the loop of [get_solution]. *)
Definition solution_step (MIN_SIZE : Q) (idx : list (bbox * (segment * Z)))
    (acc : list (coord * option (segment * Z))) (p : coord)
  : result (list (coord * option (segment * Z))) :=
  st ← for_each (nearest_step math_sqrt float_pow2 p)
                (hits_of idx (around MIN_SIZE p)) (INFTY, None);
  Ok (dict_set p st.2 acc).

Lemma solution_step_Ok MIN_SIZE idx acc p acc1 :
  solution_step MIN_SIZE idx acc p = Ok acc1 →
  ∃ d s, for_each (nearest_step math_sqrt float_pow2 p)
                  (hits_of idx (around MIN_SIZE p)) (INFTY, None) = Ok (d, s)
         ∧ acc1 = dict_set p s acc.
Proof.
  unfold solution_step.
  destruct (for_each (nearest_step math_sqrt float_pow2 p) _ _) as [[d s]|]; [|done].
  intros [= <-]. by exists d, s.
Qed.

Lemma get_solution_loop MIN_SIZE idx points :
  get_solution math_sqrt float_pow2 MIN_SIZE idx points
  = for_each (solution_step MIN_SIZE idx) points [].
Proof. reflexivity. Qed.

Definition solved (MIN_SIZE : Q) (idx : list (bbox * (segment * Z)))
    (points : list coord) (k : coord) (v : option (segment * Z)) : Prop :=
  ∃ p, p ∈ points ∧ coord_eqb k p = true
       ∧ nearest_among p (hits_of idx (around MIN_SIZE p)) v.

Lemma solution_loop_inv MIN_SIZE idx points seen acc res :
  (∀ p, p ∈ seen → ∃ k v, (k, v) ∈ acc ∧ coord_eqb k p = true) →
  (∀ k v, (k, v) ∈ acc → solved MIN_SIZE idx seen k v) →
  for_each (solution_step MIN_SIZE idx) points acc = Ok res →
  (∀ p, p ∈ seen ++ points → ∃ k v, (k, v) ∈ res ∧ coord_eqb k p = true)
  ∧ (∀ k v, (k, v) ∈ res → solved MIN_SIZE idx (seen ++ points) k v).
Proof.
  revert seen acc. induction points as [|p points IH]; intros seen acc H1 H2.
  - intros [= <-]. by rewrite app_nil_r.
  - cbn [for_each].
    destruct (solution_step MIN_SIZE idx acc p) as [acc1|] eqn:Hstep; [|done].
    apply solution_step_Ok in Hstep as (d & s & Hloop & ->).
    cbn [mbind result_bind]. intros Hrest.
    replace (seen ++ p :: points) with ((seen ++ [p]) ++ points)
      by by rewrite <- app_assoc.
    apply (IH _ (dict_set p s acc)); [| |done].
    + intros q [Hq| ->%list_elem_of_singleton]%elem_of_app.
      * destruct (H1 q Hq) as (k & v & Hin & Hk).
        destruct (dict_set_keeps p s acc k v Hin) as [v' Hin'].
        by exists k, v'.
      * destruct (dict_set_has p s acc) as (k & Hin & Hk). by exists k, s.
    + intros k v [Hin|[-> Hk]]%dict_set_elem.
      * destruct (H2 k v Hin) as (q & Hq & Hkq & Hn).
        exists q. split; [apply elem_of_app; by left|done].
      * exists p. split; [apply elem_of_app; right; by left|]. split; [done|].
        apply (nearest_inv_among _ _ d).
        apply (nearest_loop_inv p _ [] (INFTY, None)); [|done].
        split; [done|]. by intros h ?%elem_of_nil.
Qed.

(** X18: in the dictionary that [get_solution] returns every point has an
    entry, and the entry of a point holds a hit of the point's box that is
    nearest to it among the hits, at a distance of at most [INFTY]; it
    holds the placeholder when the box has no hit that near. *)
Theorem get_solution_nearest (MIN_SIZE : Q)
    (idx : list (bbox * (segment * Z))) (points : list coord)
    (res : list (coord * option (segment * Z))) :
  get_solution math_sqrt float_pow2 MIN_SIZE idx points = Ok res →
  (∀ p, p ∈ points → ∃ k v, (k, v) ∈ res ∧ coord_eqb k p = true)
  ∧ ∀ k v, (k, v) ∈ res →
           ∃ p, p ∈ points ∧ coord_eqb k p = true
                ∧ nearest_among p (hits_of idx (around MIN_SIZE p)) v.
Proof.
  rewrite get_solution_loop. intros Hres.
  apply (solution_loop_inv MIN_SIZE idx points [] [] res); [| |done].
  - by intros p ?%elem_of_nil.
  - by intros k v ?%elem_of_nil.
Qed.

Lemma solution_loop_length MIN_SIZE idx points acc res :
  for_each (solution_step MIN_SIZE idx) points acc = Ok res →
  length res ≤ length acc + length points
  ∧ ∀ k v, (k, v) ∈ acc → ∃ v', (k, v') ∈ res.
Proof.
  revert acc. induction points as [|p points IH]; intros acc.
  - intros [= <-]. split; [cbn [length]; lia|]. intros k v ?. by exists v.
  - cbn [for_each].
    destruct (solution_step MIN_SIZE idx acc p) as [acc1|] eqn:Hstep; [|done].
    apply solution_step_Ok in Hstep as (d & s & _ & ->).
    cbn [mbind result_bind]. intros [Hlen Hkeep]%IH.
    pose proof (dict_set_length_le p s acc). split; [cbn [length]; lia|].
    intros k v [v' Hin]%(dict_set_keeps p s). by apply (Hkeep k v').
Qed.

(** X19: the dictionary is keyed by the coordinates, so points with the
    same coordinates share one entry: when two of the points coincide the
    result has fewer entries than there are points. *)
Theorem get_solution_coinciding_points (MIN_SIZE : Q)
    (idx : list (bbox * (segment * Z))) (ps1 ps2 ps3 : list coord)
    (p q : coord) (res : list (coord * option (segment * Z))) :
  coord_eqb p q = true →
  get_solution math_sqrt float_pow2 MIN_SIZE idx (ps1 ++ p :: ps2 ++ q :: ps3) = Ok res →
  length res < length (ps1 ++ p :: ps2 ++ q :: ps3).
Proof.
  intros Hpq. rewrite get_solution_loop, for_each_app.
  destruct (for_each _ ps1 []) as [r1|] eqn:H1; [|done].
  cbn [mbind result_bind for_each].
  destruct (solution_step MIN_SIZE idx r1 p) as [r2|] eqn:H2; [|done].
  apply solution_step_Ok in H2 as (d & s & _ & ->).
  cbn [mbind result_bind]. rewrite for_each_app.
  destruct (for_each _ ps2 _) as [r3|] eqn:H3; [|done].
  cbn [mbind result_bind for_each].
  destruct (solution_step MIN_SIZE idx r3 q) as [r4|] eqn:H4; [|done].
  apply solution_step_Ok in H4 as (d' & s' & _ & ->).
  cbn [mbind result_bind]. intros H5.
  apply solution_loop_length in H1 as [L1 _].
  apply solution_loop_length in H3 as [L3 K3].
  apply solution_loop_length in H5 as [L5 _].
  destruct (dict_set_has p s r1) as (k & Hin & Hk).
  destruct (K3 k s Hin) as [v' Hin'].
  rewrite (dict_set_length_present q s' r3 k v' Hin') in L5
    by by apply (coord_eqb_trans k p q).
  pose proof (dict_set_length_le p s r1).
  rewrite !length_app in *. cbn [length] in *. rewrite length_app.
  cbn [length]. lia.
Qed.

(** A hit whose segment has two equal ends: two consecutive coordinates
    of a street that coincide. *)
Definition degenerate (h : segment * Z) : Prop :=
  (h.1.2.1 - h.1.1.1 == 0)%Q ∧ (h.1.2.2 - h.1.1.2 == 0)%Q.

(** The exceptions of the arithmetic: the division by zero, and what
    [** 2] raises. *)
Definition arithmetic_error (e : exn) : Prop :=
  e = ZeroDivisionError ∨ ∃ x, float_pow2 x = Raise e.

Lemma distance_raises a b e :
  distance math_sqrt float_pow2 a b = Raise e → arithmetic_error e.
Proof.
  unfold distance.
  destruct (float_pow2 (a.1 - b.1)%Q) as [dx2|e1] eqn:E1;
    cbn [mbind result_bind]; [|intros [= <-]; right; eauto].
  destruct (float_pow2 (a.2 - b.2)%Q) as [dy2|e2] eqn:E2;
    cbn [mbind result_bind]; [done|intros [= <-]; right; eauto].
Qed.

Lemma get_distance_raises p seg e :
  get_distance math_sqrt float_pow2 p seg = Raise e → arithmetic_error e.
Proof.
  destruct seg as [b c]. unfold get_distance, py_div.
  destruct (float_pow2 (c.1 - b.1)%Q) as [dx2|e1] eqn:E1;
    cbn [mbind result_bind]; [|intros [= <-]; right; eauto].
  destruct (float_pow2 (c.2 - b.2)%Q) as [dy2|e2] eqn:E2;
    cbn [mbind result_bind]; [|intros [= <-]; right; eauto].
  destruct (Qeq_bool (dx2 + dy2) 0); cbn [mbind result_bind];
    [intros [= <-]; by left|].
  match goal with
  | |- context [if ?c then _ else _] => destruct c
  end.
  - destruct (distance _ _ _ _) as [d|e1] eqn:Ed; cbn [mbind result_bind];
      [done|]. intros [= <-]. by apply distance_raises in Ed.
  - match goal with
    | |- context [if ?c then _ else _] => destruct c
    end;
      (destruct (distance _ _ _ _) as [d|e1] eqn:Ed; cbn [mbind result_bind];
       [done|]; intros [= <-]; by apply distance_raises in Ed).
Qed.

Lemma get_distance_degenerate p (h : segment * Z) :
  (∀ x, (x == 0)%Q → ∃ z, float_pow2 x = Ok z ∧ (z == 0)%Q) →
  degenerate h →
  get_distance math_sqrt float_pow2 p h.1 = Raise ZeroDivisionError.
Proof.
  intros Hzero [Hx Hy]. destruct h as [[b c] nid]. cbn [fst snd] in *.
  unfold get_distance, py_div.
  destruct (Hzero _ Hx) as (dx2 & -> & Hdx).
  destruct (Hzero _ Hy) as (dy2 & -> & Hdy).
  cbn [mbind result_bind].
  assert (Hsum : Qeq_bool (dx2 + dy2) 0 = true).
  { apply Qeq_bool_iff. rewrite Hdx, Hdy. reflexivity. }
  by rewrite Hsum.
Qed.

Lemma nearest_step_outcome p st (h : segment * Z) :
  match nearest_step math_sqrt float_pow2 p st h with
  | Ok _ => ∃ r, get_distance math_sqrt float_pow2 p h.1 = Ok r
  | Raise e => get_distance math_sqrt float_pow2 p h.1 = Raise e
  end.
Proof.
  destruct st as [d s]. unfold nearest_step.
  destruct (get_distance math_sqrt float_pow2 p h.1) as [r|e];
    cbn [mbind result_bind]; [|done].
  destruct (Qle_bool r.2 d); by exists r.
Qed.

Lemma nearest_loop_outcome p hits st :
  match for_each (nearest_step math_sqrt float_pow2 p) hits st with
  | Ok _ =>
      ∀ h, h ∈ hits → ∃ r, get_distance math_sqrt float_pow2 p h.1 = Ok r
  | Raise e => arithmetic_error e
  end.
Proof.
  revert st. induction hits as [|h hits IH]; intros st; cbn [for_each].
  - by intros h ?%elem_of_nil.
  - pose proof (nearest_step_outcome p st h) as Hstep.
    destruct (nearest_step math_sqrt float_pow2 p st h) as [st1|e];
      cbn [mbind result_bind]; [|by apply get_distance_raises in Hstep].
    specialize (IH st1).
    destruct (for_each (nearest_step math_sqrt float_pow2 p) hits st1)
      as [st2|e]; [|done].
    intros h' [->|Hin]%elem_of_cons; [done|by apply IH].
Qed.

Lemma solution_step_outcome MIN_SIZE idx acc p :
  match solution_step MIN_SIZE idx acc p with
  | Ok _ =>
      ∀ h, h ∈ hits_of idx (around MIN_SIZE p) →
           ∃ r, get_distance math_sqrt float_pow2 p h.1 = Ok r
  | Raise e => arithmetic_error e
  end.
Proof.
  unfold solution_step.
  pose proof (nearest_loop_outcome p (hits_of idx (around MIN_SIZE p))
                (INFTY, None)) as Hinner.
  by destruct (for_each (nearest_step math_sqrt float_pow2 p)
                 (hits_of idx (around MIN_SIZE p)) (INFTY, None)).
Qed.

Lemma solution_loop_outcome MIN_SIZE idx points acc :
  match for_each (solution_step MIN_SIZE idx) points acc with
  | Ok _ =>
      ∀ p h, p ∈ points → h ∈ hits_of idx (around MIN_SIZE p) →
             ∃ r, get_distance math_sqrt float_pow2 p h.1 = Ok r
  | Raise e => arithmetic_error e
  end.
Proof.
  revert acc. induction points as [|p points IH]; intros acc; cbn [for_each].
  - by intros p h ?%elem_of_nil.
  - pose proof (solution_step_outcome MIN_SIZE idx acc p) as Hstep.
    destruct (solution_step MIN_SIZE idx acc p) as [acc1|e];
      cbn [mbind result_bind]; [|done].
    specialize (IH acc1).
    destruct (for_each (solution_step MIN_SIZE idx) points acc1) as [res|e];
      [|done].
    intros q h [->|Hq]%elem_of_cons Hh; [by apply Hstep|by apply (IH q h)].
Qed.

(** X20: for a [min_size] that is not negative (a negative one makes the
    query box ill-formed, and the index refuses it), the only exceptions
    of [get_solution] are those of the arithmetic of [get_distance]:
    ZeroDivisionError, and what [** 2] raises (OverflowError).  The square
    of zero being zero, one segment whose two ends coincide, met by the
    box of one of the points, makes the whole call fail: no dictionary is
    returned, for any point. *)
Theorem get_solution_division_by_zero (MIN_SIZE : Q)
    (idx : list (bbox * (segment * Z))) (points : list coord) :
  (0 <= MIN_SIZE)%Q →
  (∀ x, (x == 0)%Q → ∃ z, float_pow2 x = Ok z ∧ (z == 0)%Q) →
  (∀ e, get_solution math_sqrt float_pow2 MIN_SIZE idx points = Raise e →
        e = ZeroDivisionError ∨ ∃ x, float_pow2 x = Raise e)
  ∧ ((∃ p h, p ∈ points ∧ h ∈ hits_of idx (around MIN_SIZE p)
             ∧ degenerate h) →
     ∃ e, get_solution math_sqrt float_pow2 MIN_SIZE idx points = Raise e).
Proof.
  intros _ Hzero. rewrite get_solution_loop.
  pose proof (solution_loop_outcome MIN_SIZE idx points []) as H.
  destruct (for_each (solution_step MIN_SIZE idx) points []) as [res|e].
  - split; [done|]. intros (p & h & Hp & Hh & Hdeg).
    destruct (H p h Hp Hh) as [r Hr].
    by rewrite (get_distance_degenerate p h Hzero Hdeg) in Hr.
  - split; [by intros ? [= <-]|]. intros _. by exists e.
Qed.

(** The sides of a box. *)
Definition inside (box : bbox) (q : coord) : Prop :=
  let '(minx, miny, maxx, maxy) := box in
  (minx <= q.1 <= maxx)%Q ∧ (miny <= q.2 <= maxy)%Q.

Lemma py_min_max_enclose (a c s : Q) :
  (0 <= s <= 1)%Q → (py_min a c <= s * (c - a) + a <= py_max a c)%Q.
Proof.
  intros Hs. unfold py_min, py_max.
  destruct (Qle_bool a c) eqn:E1; cbn [negb].
  - apply Qle_bool_iff in E1.
    assert (P1 : (0 <= s * (c - a))%Q) by (apply Qmult_le_0_compat; lra).
    assert (P2 : (0 <= (1 - s) * (c - a))%Q) by (apply Qmult_le_0_compat; lra).
    destruct (Qle_bool c a) eqn:E2; cbn [negb].
    + apply Qle_bool_iff in E2. lra.
    + lra.
  - apply Qle_bool_false_lt in E1.
    assert (P1 : (0 <= s * (a - c))%Q) by (apply Qmult_le_0_compat; lra).
    assert (P2 : (0 <= (1 - s) * (a - c))%Q) by (apply Qmult_le_0_compat; lra).
    rewrite (proj2 (Qle_bool_iff c a)) by lra. cbn [negb]. lra.
Qed.

(** X21: [get_rtree] puts into the index one item for every two
    consecutive coordinates of every line, under the line's id, and the box
    of an item encloses its segment. *)
Theorem get_rtree_items (lines : list (Z * list coord)) :
  length (get_rtree lines)
  = sum_list (map (λ line, length line.2 - 1) lines)
  ∧ (∀ box seg nid,
       (box, (seg, nid)) ∈ get_rtree lines ↔
       ∃ l, (nid, l) ∈ lines ∧ seg ∈ _pair l
            ∧ box = (py_min seg.1.1 seg.2.1, py_min seg.1.2 seg.2.2,
                     py_max seg.1.1 seg.2.1, py_max seg.1.2 seg.2.2))
  ∧ ∀ box seg nid s,
      (box, (seg, nid)) ∈ get_rtree lines → (0 <= s <= 1)%Q →
      inside box (along_segment seg s).
Proof.
  assert (Hitems : ∀ box seg nid,
    (box, (seg, nid)) ∈ get_rtree lines ↔
    ∃ l, (nid, l) ∈ lines ∧ seg ∈ _pair l
         ∧ box = (py_min seg.1.1 seg.2.1, py_min seg.1.2 seg.2.2,
                  py_max seg.1.1 seg.2.1, py_max seg.1.2 seg.2.2)).
  { intros box seg nid. unfold get_rtree.
    rewrite list_elem_of_In, in_flat_map. split.
    - intros ([nid' l] & Hl & Hin). apply in_map_iff in Hin.
      destruct Hin as ([[a b] [c d]] & [= <- <- <-] & Hseg).
      exists l. rewrite !list_elem_of_In. by repeat split.
    - intros (l & Hl & Hseg & ->). exists (nid, l).
      rewrite <- list_elem_of_In. split; [done|].
      apply in_map_iff. exists seg. rewrite <- list_elem_of_In.
      split; [|done]. by destruct seg as [[a b] [c d]]. }
  split; [|split; [done|]].
  - clear Hitems. unfold get_rtree.
    induction lines as [|[nid l] lines IH]; [done|].
    change (flat_map ?f ((nid, l) :: lines))
      with (f (nid, l) ++ flat_map f lines).
    cbv beta iota. rewrite length_app, length_map, _pair_length.
    cbn [map sum_list snd]. f_equal. exact IH.
  - intros box seg nid s (l & _ & _ & ->)%Hitems Hs.
    destruct seg as [[a b] [c d]]. unfold inside, along_segment.
    cbn [fst snd]. split; by apply py_min_max_enclose.
Qed.

End ClosureFacts.
End NetworkIdFacts.

(** * An executable kernel *)

(** A kernel for axis-parallel geometry over the rationals.  Areal
    operations work on bounding boxes, which is exact for rectangles with
    sides parallel to the axes; lines meet in the crossing points of
    their segments; lengths and distances are taken along the axes. *)
Module Rectilinear.

Local Open Scope Q_scope.

Definition qmin (a b : Q) : Q := if Qle_bool a b then a else b.
Definition qmax (a b : Q) : Q := if Qle_bool a b then b else a.

Fixpoint all_coords (g : geom) : list coord :=
  match g with
  | Point c => [c]
  | LineString cs => cs
  | LinearRing cs => cs
  | Polygon p => shell p
  | MultiPoint cs => cs
  | MultiLineString ls => concat ls
  | MultiPolygon ps => flat_map shell ps
  | GeometryCollection gs => flat_map all_coords gs
  end.

Definition box_of (cs : list coord) : bbox :=
  match cs with
  | [] => (0, 0, 0, 0)
  | c :: cs' =>
      fold_left (λ (b : bbox) (c : coord),
                   let '(x0, y0, x1, y1) := b in
                   (qmin x0 c.1, qmin y0 c.2, qmax x1 c.1, qmax y1 c.2))
                cs' (c.1, c.2, c.1, c.2)
  end.

Definition box (g : geom) : bbox := box_of (all_coords g).

Definition in_box (b : bbox) (c : coord) : bool :=
  let '(x0, y0, x1, y1) := b in
  Qle_bool x0 c.1 && Qle_bool c.1 x1 && Qle_bool y0 c.2 && Qle_bool c.2 y1.

(** The rectangle of a box, counter-clockwise from its lower left corner. *)
Definition rect (b : bbox) : polygon :=
  let '(x0, y0, x1, y1) := b in
  {| shell := [(x0, y0); (x1, y0); (x1, y1); (x0, y1); (x0, y0)]; holes := [] |}.

(** The common part of two boxes, when it has an interior. *)
Definition box_meet (a b : bbox) : option bbox :=
  let '(ax0, ay0, ax1, ay1) := a in
  let '(bx0, by0, bx1, by1) := b in
  let x0 := qmax ax0 bx0 in
  let y0 := qmax ay0 by0 in
  let x1 := qmin ax1 bx1 in
  let y1 := qmin ay1 by1 in
  if negb (Qle_bool x1 x0) && negb (Qle_bool y1 y0)
  then Some (x0, y0, x1, y1) else None.

Definition collect (ps : list polygon) : geom :=
  match ps with
  | [] => GeometryCollection []
  | [p] => Polygon p
  | _ => MultiPolygon ps
  end.

Definition clip_poly (b : bbox) (p : polygon) : option polygon :=
  rect <$> box_meet (box_of (shell p)) b.

(** Segments and their crossing points. *)
Definition segments (g : geom) : list (coord * coord) :=
  match g with
  | LineString cs => _pair cs
  | LinearRing cs => _pair cs
  | Polygon p => _pair (shell p) ++ flat_map _pair (holes p)
  | MultiLineString ls => flat_map _pair ls
  | MultiPolygon ps => flat_map (λ p, _pair (shell p)) ps
  | _ => []
  end.

Definition crossing (s1 s2 : coord * coord) : option coord :=
  let '((x1, y1), (x2, y2)) := s1 in
  let '((x3, y3), (x4, y4)) := s2 in
  let d := ((x2 - x1) * (y4 - y3) - (y2 - y1) * (x4 - x3))%Q in
  if Qeq_bool d 0 then None
  else
    let t := (((x3 - x1) * (y4 - y3) - (y3 - y1) * (x4 - x3)) / d)%Q in
    let u := (((x3 - x1) * (y2 - y1) - (y3 - y1) * (x2 - x1)) / d)%Q in
    if Qle_bool 0 t && Qle_bool t 1 && Qle_bool 0 u && Qle_bool u 1
    then Some (Qred (x1 + t * (x2 - x1)), Qred (y1 + t * (y2 - y1)))
    else None.

Definition add_point (found : list coord) (c : coord) : list coord :=
  if existsb (coord_eqb c) found then found else found ++ [c].

Definition crossings (a b : geom) : list coord :=
  fold_left add_point
    (flat_map (λ s1, omap (crossing s1) (segments b)) (segments a)) [].

Definition points_geom (cs : list coord) : geom :=
  match cs with
  | [] => GeometryCollection []
  | [c] => Point c
  | _ => MultiPoint cs
  end.

Definition intersection (a b : geom) : geom :=
  if bbox_intersects (box a) (box b) then
    match b with
    | Polygon _ | MultiPolygon _ =>
        match a with
        | Point c => Point c
        | Polygon p => collect (omap (clip_poly (box b)) [p])
        | MultiPolygon ps => collect (omap (clip_poly (box b)) ps)
        | _ => GeometryCollection []
        end
    | _ => points_geom (crossings a b)
    end
  else GeometryCollection [].

Definition on_segment (c : coord) (s : coord * coord) : bool :=
  let '(p, q) := s in
  Qeq_bool ((q.1 - p.1) * (c.2 - p.2) - (q.2 - p.2) * (c.1 - p.1)) 0
  && in_box (box_of [p; q]) c.

Definition intersects (a b : geom) : bool :=
  match b with
  | Point c =>
      match a with
      | Point c' => coord_eqb c c'
      | _ => existsb (on_segment c) (segments a)
      end
  | _ => negb (is_empty (intersection a b))
  end.

Definition within (a b : geom) : bool :=
  negb (is_empty a) && forallb (in_box (box b)) (all_coords a).

(** What is left of the box [a] outside a box [b] that spans it from
    side to side. *)
Definition box_minus (a b : bbox) : list polygon :=
  let '(ax0, ay0, ax1, ay1) := a in
  let '(bx0, by0, bx1, by1) := b in
  if negb (bbox_intersects a b) then [rect a]
  else if Qle_bool by0 ay0 && Qle_bool ay1 by1 then
    (if negb (Qle_bool bx0 ax0) then [rect (ax0, ay0, bx0, ay1)] else [])
    ++ (if negb (Qle_bool ax1 bx1) then [rect (bx1, ay0, ax1, ay1)] else [])
  else if Qle_bool bx0 ax0 && Qle_bool ax1 bx1 then
    (if negb (Qle_bool by0 ay0) then [rect (ax0, ay0, ax1, by0)] else [])
    ++ (if negb (Qle_bool ay1 by1) then [rect (ax0, by1, ax1, ay1)] else [])
  else [rect a].

Definition difference (a b : geom) : geom :=
  if is_empty b || negb (bbox_intersects (box a) (box b)) then a
  else match a with
       | Polygon p => collect (box_minus (box_of (shell p)) (box b))
       | MultiPolygon ps =>
           collect (flat_map (λ p, box_minus (box_of (shell p)) (box b)) ps)
       | _ => a
       end.

Definition unary_union (gs : list geom) : geom :=
  collect (flat_map (λ g, match g with
                          | Polygon p => [p]
                          | MultiPolygon ps => ps
                          | _ => []
                          end) gs).

Fixpoint map_coords (f : coord → coord) (g : geom) : geom :=
  match g with
  | Point c => Point (f c)
  | LineString cs => LineString (map f cs)
  | LinearRing cs => LinearRing (map f cs)
  | Polygon p => Polygon {| shell := map f (shell p);
                            holes := map (map f) (holes p) |}
  | MultiPoint cs => MultiPoint (map f cs)
  | MultiLineString ls => MultiLineString (map (map f) ls)
  | MultiPolygon ps =>
      MultiPolygon (map (λ p, {| shell := map f (shell p);
                                 holes := map (map f) (holes p) |}) ps)
  | GeometryCollection gs => GeometryCollection (map (map_coords f) gs)
  end.

(** With a NaN offset no coordinate of the result is a number: the
    instance has no such geometry and gives the empty collection. *)
Definition translate (g : geom) (xoff yoff : pyfloat) : geom :=
  match xoff, yoff with
  | Some xoff, Some yoff =>
      map_coords (λ c, (Qred (c.1 + xoff), Qred (c.2 + yoff))) g
  | _, _ => GeometryCollection []
  end.

(** Offsetting grows the box by the distance on every side. *)
Definition buffer (g : geom) (args : buffer_args) : geom :=
  let d := distance_arg args in
  if is_empty g then g
  else if Qeq_bool d 0 then g
  else
    let '(x0, y0, x1, y1) := box g in
    let b := (Qred (x0 - d), Qred (y0 - d), Qred (x1 + d), Qred (y1 + d)) in
    if Qle_bool b.1.2 b.1.1.1 || Qle_bool b.2 b.1.1.2
    then Polygon {| shell := []; holes := [] |}
    else Polygon (rect b).

Definition convex_hull (g : geom) : geom :=
  if is_empty g then g else Polygon (rect (box g)).

Definition boundary (g : geom) : result (option geom) :=
  match g with
  | Point _ => Ok (Some (GeometryCollection []))
  | MultiPoint _ => Ok (Some (GeometryCollection []))
  | LineString cs =>
      Ok (Some (match cs, last cs with
                | c0 :: _, Some cn => MultiPoint [c0; cn]
                | _, _ => GeometryCollection []
                end))
  | LinearRing _ => Ok (Some (MultiPoint []))
  | Polygon p =>
      Ok (Some (match holes p with
                | [] => LineString (shell p)
                | hs => MultiLineString (shell p :: hs)
                end))
  | MultiLineString _ => Ok (Some (MultiPoint []))
  | MultiPolygon ps =>
      Ok (Some (MultiLineString (flat_map (λ p, shell p :: holes p) ps)))
  | GeometryCollection _ => Raise ValueError
  end.

Definition ring_area (cs : list coord) : Q :=
  Qred (Qabs (fold_left (λ acc '((x1, y1), (x2, y2)),
                           (acc + (x1 * y2 - x2 * y1))%Q) (_pair cs) 0) / 2).

Definition polygon_area (p : polygon) : Q :=
  Qred (fold_left (λ acc h, (acc - ring_area h)%Q) (holes p) (ring_area (shell p))).

Definition area (g : geom) : Q :=
  match g with
  | Polygon p => polygon_area p
  | MultiPolygon ps => Qred (fold_left (λ acc p, (acc + polygon_area p)%Q) ps 0)
  | _ => 0
  end.

Definition along (p q : coord) : Q :=
  Qred (Qabs (q.1 - p.1) + Qabs (q.2 - p.2)).

Definition length_of (g : geom) : Q :=
  Qred (fold_left (λ acc '(p, q), (acc + along p q)%Q) (segments g) 0).

Definition distance (a b : geom) : Q :=
  match flat_map (λ p, map (along p) (all_coords b)) (all_coords a) with
  | [] => 0
  | d :: ds => fold_left qmin ds d
  end.

Definition representative_point (g : geom) : geom :=
  let '(x0, y0, x1, y1) := box g in
  Point (Qred ((x0 + x1) / 2), Qred ((y0 + y1) / 2)).

Definition exterior (g : geom) : geom :=
  match g with
  | Polygon p => LinearRing (shell p)
  | _ => GeometryCollection []
  end.

(** No vertex is added: every segment is taken to be short enough. *)
Definition ogr_segmentize (g : geom) (segment : Q) : option geom := Some g.

(** The Voronoi diagram of points of the integer lattice, every region
    cut to the unit square around its point. *)
Definition Voronoi (points : list coord) : voronoi_diagram :=
  {| point_region := seq 0%nat (length points);
     regions := imap (λ i _, let k := (4 * Z.of_nat i)%Z in
                             [k; (k + 1)%Z; (k + 2)%Z; (k + 3)%Z]) points;
     vertices := flat_map (λ '(x, y),
                             [(Qred (x - (1 # 2)), Qred (y - (1 # 2)));
                              (Qred (x + (1 # 2)), Qred (y - (1 # 2)));
                              (Qred (x + (1 # 2)), Qred (y + (1 # 2)));
                              (Qred (x - (1 # 2)), Qred (y + (1 # 2)))]) points |}.

(** Queen contiguity: two fragments are neighbours when they have a
    vertex in common. *)
Definition share_vertex (a b : geom) : bool :=
  existsb (λ c, existsb (coord_eqb c) (all_coords b)) (all_coords a).

Definition Queen_neighbors (fs : list geom) : gmap nat (list nat) :=
  map_seq 0%nat (imap (λ i a,
                     List.filter (λ j, match fs !! j with
                                       | Some b => negb (Nat.eqb i j)
                                                   && share_vertex a b
                                       | None => false
                                       end)
                                 (seq 0%nat (length fs))) fs).

(** Angles are represented by their tangent, and a direction is rounded
    to the nearer axis. *)
Definition math_atan (x : Q) : Q := x.
Definition math_cos (x : Q) : Q := if Qle_bool x 1 then 1 else 0.
Definition math_sin (x : Q) : Q := if Qle_bool x 1 then 0 else 1.

(** The instance computes [a - b + 0.000001] without rounding. *)
Definition float_skew (a b : Q) : Q := a - b + (1 # 1000000).

Definition kernel : GeometryKernel :=
  Build_GeometryKernel box boundary translate buffer convex_hull area
    length_of distance intersection difference unary_union intersects within
    representative_point exterior ogr_segmentize Voronoi Queen_neighbors
    math_cos math_sin math_atan float_skew.

End Rectilinear.

Module RectilinearFacts.
Import Rectilinear.

Lemma intersection_boxes (a b : geom) :
  is_empty (intersection a b) = false →
  bbox_intersects (box a) (box b) = true.
Proof.
  unfold intersection. by destruct (bbox_intersects (box a) (box b)).
Qed.

Lemma kernel_bbox_sound : bbox_sound (K:=kernel).
Proof. exact intersection_boxes. Qed.

Lemma Qle_bool_refl (x : Q) : Qle_bool x x = true.
Proof. apply Qle_bool_iff, Qle_refl. Qed.

Lemma Qle_bool_flip (x y : Q) : Qle_bool x y = false → Qle_bool y x = true.
Proof.
  intros H. apply Qle_bool_iff.
  destruct (Qlt_le_dec x y) as [Hlt|Hle]; [|done].
  apply Qlt_le_weak, Qle_bool_iff in Hlt. congruence.
Qed.

Lemma qmax_absorb (a l : Q) : qmax (qmax a l) l = qmax a l.
Proof.
  unfold qmax. destruct (Qle_bool a l) eqn:E.
  - by rewrite Qle_bool_refl.
  - by rewrite E.
Qed.

Lemma qmin_absorb (a l : Q) : qmin (qmin a l) l = qmin a l.
Proof.
  unfold qmin. destruct (Qle_bool a l) eqn:E.
  - by rewrite E.
  - by rewrite Qle_bool_refl.
Qed.

Lemma qmax_ge (a l : Q) : (l <= qmax a l)%Q.
Proof.
  unfold qmax. destruct (Qle_bool a l) eqn:E; [apply Qle_refl|].
  by apply Qle_bool_iff, Qle_bool_flip.
Qed.

Lemma qmin_le (a l : Q) : (qmin a l <= l)%Q.
Proof.
  unfold qmin. destruct (Qle_bool a l) eqn:E; [|apply Qle_refl].
  by apply Qle_bool_iff.
Qed.

Lemma box_of_rect (x0 y0 x1 y1 : Q) :
  Qle_bool x1 x0 = false → Qle_bool y1 y0 = false →
  box_of (shell (rect (x0, y0, x1, y1))) = (x0, y0, x1, y1).
Proof.
  intros Hx Hy. pose proof (Qle_bool_flip _ _ Hx) as Hx'.
  pose proof (Qle_bool_flip _ _ Hy) as Hy'.
  unfold box_of, rect, qmin, qmax. simpl.
  repeat (progress (rewrite ?Hx, ?Hy, ?Hx', ?Hy', ?Qle_bool_refl); cbv iota).
  done.
Qed.

Lemma box_meet_Some (a l i : bbox) :
  box_meet a l = Some i →
  Qle_bool i.1.2 i.1.1.1 = false ∧ Qle_bool i.2 i.1.1.2 = false
  ∧ box_meet i l = Some i ∧ bbox_intersects i l = true.
Proof.
  destruct a as [[[ax0 ay0] ax1] ay1], l as [[[lx0 ly0] lx1] ly1].
  unfold box_meet.
  destruct (Qle_bool (qmin ax1 lx1) (qmax ax0 lx0)) eqn:Ex; [done|].
  destruct (Qle_bool (qmin ay1 ly1) (qmax ay0 ly0)) eqn:Ey; [done|].
  simpl. intros [= <-]. simpl. split; [done|]. split; [done|]. split.
  - by rewrite !qmax_absorb, !qmin_absorb, Ex, Ey.
  - apply Qle_bool_flip, Qle_bool_iff in Ex, Ey.
    pose proof (qmax_ge ax0 lx0). pose proof (qmin_le ax1 lx1).
    pose proof (qmax_ge ay0 ly0). pose proof (qmin_le ay1 ly1).
    rewrite !andb_true_iff, !Qle_bool_iff. repeat split; lra.
Qed.

Lemma rect_absorbed (a : bbox) (i : bbox) (pl : polygon) :
  box_meet a (box_of (shell pl)) = Some i →
  intersection (Polygon (rect i)) (Polygon pl) = Polygon (rect i).
Proof.
  intros (Hx & Hy & Hmeet & Hguard)%box_meet_Some.
  destruct i as [[[x0 y0] x1] y1]. cbn [fst snd] in Hx, Hy.
  pose proof (box_of_rect _ _ _ _ Hx Hy) as Hbox.
  assert (Hclip : clip_poly (box_of (shell pl)) (rect (x0, y0, x1, y1))
                  = Some (rect (x0, y0, x1, y1))).
  { unfold clip_poly. by rewrite Hbox, Hmeet. }
  unfold intersection, box. cbn [all_coords omap list_omap].
  by rewrite Hbox, Hguard, Hclip.
Qed.

Lemma collect_piece (qs : list polygon) (r : geom) :
  clip_piece (collect qs) r → ∃ q, q ∈ qs ∧ r = Polygon q.
Proof.
  destruct qs as [|q [|q' qs]]; simpl.
  - intros [_ H]. by apply elem_of_nil in H.
  - intros ->. exists q. split; [by left|done].
  - done.
Qed.

Lemma intersection_absorbing (pl : polygon) (g r : geom) :
  clip_piece (intersection g (Polygon pl)) r →
  intersection r (Polygon pl) = r.
Proof.
  assert (Hclipped : ∀ ps,
    clip_piece (collect (omap (clip_poly (box (Polygon pl))) ps)) r →
    intersection r (Polygon pl) = r).
  { intros ps (q & Hq & ->)%collect_piece.
    apply list_elem_of_omap in Hq as (p & _ & Hq). unfold clip_poly in Hq.
    destruct (box_meet _ _) as [i|] eqn:Hi; [|done].
    inversion Hq; subst q. by eapply rect_absorbed. }
  assert (Hnone : clip_piece (GeometryCollection []) r →
                  intersection r (Polygon pl) = r).
  { intros [_ H]. by apply elem_of_nil in H. }
  unfold intersection at 1.
  destruct (bbox_intersects (box g) (box (Polygon pl))) eqn:Hguard; [|done].
  destruct g; try done.
  - simpl. intros ->. unfold intersection. by rewrite Hguard.
  - apply Hclipped.
  - apply Hclipped.
Qed.

Lemma kernel_clip_absorbing (pl : polygon) :
  clip_absorbing (K:=kernel) (Polygon pl).
Proof. exact (intersection_absorbing pl). Qed.

Lemma coord_eqb_sym (c d : coord) : coord_eqb c d = coord_eqb d c.
Proof.
  unfold coord_eqb. f_equal; apply eq_true_iff_eq;
    rewrite !Qeq_bool_iff; split; intros H; by symmetry.
Qed.

Lemma share_vertex_sym (a b : geom) :
  share_vertex a b = true → share_vertex b a = true.
Proof.
  unfold share_vertex. rewrite !existsb_exists.
  intros (c & Hc & (d & Hd & Hcd)%existsb_exists).
  exists d. split; [done|]. apply existsb_exists. exists c. split; [done|].
  by rewrite coord_eqb_sym.
Qed.

Lemma Queen_neighbors_spec (fs : list geom) (i : nat) :
  (is_Some (Queen_neighbors fs !! i) ↔ i < length fs) ∧
  ∀ j, adjacent (Queen_neighbors fs) i j
       ↔ i ≠ j ∧ ∃ a b, fs !! i = Some a ∧ fs !! j = Some b
                        ∧ share_vertex a b = true.
Proof.
  unfold Queen_neighbors. split.
  - rewrite lookup_map_seq_0, list_lookup_imap, fmap_is_Some.
    apply lookup_lt_is_Some.
  - intros j. unfold adjacent.
    rewrite lookup_map_seq_0, list_lookup_imap. split.
    + intros (weights & Hw & Hj).
      destruct (fs !! i) as [a|] eqn:Ha; [|done].
      simpl in Hw. inversion Hw; subst weights.
      apply list_elem_of_In, filter_In in Hj as [_ Hj].
      destruct (fs !! j) as [b|] eqn:Hb; [|done].
      apply andb_true_iff in Hj as [Hne Hs].
      split; [|by eauto].
      intros ->. by rewrite Nat.eqb_refl in Hne.
    + intros (Hne & a & b & Ha & Hb & Hs). rewrite Ha. simpl.
      eexists. split; [done|].
      apply list_elem_of_In, filter_In. split.
      * apply in_seq. apply lookup_lt_Some in Hb. lia.
      * rewrite Hb, Hs. apply Nat.eqb_neq in Hne. by rewrite Hne.
Qed.

Lemma kernel_Queen_contract :
  Queen_contract (K:=kernel) (λ a b, share_vertex a b = true).
Proof. split; [apply share_vertex_sym|exact Queen_neighbors_spec]. Qed.

End RectilinearFacts.

(** * The functions on concrete inputs *)

Module Examples.
Import RectilinearFacts.

#[local] Existing Instance Rectilinear.kernel.

Local Open Scope Q_scope.

Definition square (x0 y0 x1 y1 : Q) : geom := Polygon (Rectilinear.rect (x0, y0, x1, y1)).

Definition entity (idx uid : Z) (g : geom) : row :=
  {| ix := idx; uID := uid; geometry := g; columns := [] |}.

Ltac pick := apply list_elem_of_In; simpl; repeat (first [left; reflexivity | right]).

(** ** Tessellation of two buildings *)

Definition footprints : frame :=
  [entity 10 1 (square 0 0 2 2); entity 11 2 (square 4 0 6 2)].

Definition study_area : geom := square (-2) (-2) 8 4.

Definition no_corner_ring : frame → Q → row → option geom := λ _ _ _, None.

Definition footprint_cells : frame :=
  Eval vm_compute in
    match tessellation no_corner_ring footprints study_area
                       0 (1 # 2) false 2 with
    | Ok cells => cells
    | Raise _ => []
    end.

Lemma tessellation_one_cell_per_id_witness :
  ∃ centre regions_gdf,
    tessellation_regions footprints study_area 0 (1 # 2)
    = Ok (centre, regions_gdf) ∧
    NoDup (map uID footprint_cells) ∧
    ∀ u, u ∈ map uID footprint_cells ↔ u ∈ map uID regions_gdf.
Proof.
  apply (tessellation_one_cell_per_id no_corner_ring footprints
           study_area 0 (1 # 2) false 2 footprint_cells).
  vm_compute. reflexivity.
Defined.

(** ** Cutting by a limit *)

Definition plot0 : row :=
  entity 0 1 (MultiPolygon [Rectilinear.rect (0, 0, 4, 1); Rectilinear.rect (0, 2, 6, 4)]).

Definition plots : frame := [plot0; entity 1 2 (square 4 0 8 4)].

Definition limit : geom := square 2 (-1) 10 5.

Definition chords : list geom :=
  Eval vm_compute in
    match _split_lines limit 100 with
    | Ok geometry_cut => geometry_cut
    | Raise _ => []
    end.

Definition cut_plots : frame :=
  Eval vm_compute in
    match _cut plots limit with
    | Ok cells => cells
    | Raise _ => []
    end.

Lemma plots_crossing : crosses_boundary chords plot0.
Proof.
  exists (LineString [(2, 5); (2, -1)]). split; [pick|].
  split; vm_compute; reflexivity.
Qed.

Lemma cut_idempotent_witness : _cut cut_plots limit = Ok cut_plots.
Proof.
  apply (cut_idempotent plots cut_plots limit).
  - apply kernel_clip_absorbing.
  - apply (bool_decide_unpack _). vm_compute. reflexivity.
  - apply (bool_decide_unpack _). vm_compute. reflexivity.
  - vm_compute. reflexivity.
Defined.

(** ** Seeds *)

Definition site : row := entity 0 1 (Point (0, 0)).
Definition footprint : row := entity 1 2 (square 0 0 2 2).

Lemma point_array_rejects_whole_call_witness :
  ∃ pre first post e,
    [footprint; site; footprint] = pre ++ first :: post
    ∧ Forall boundary_accepted pre
    ∧ ¬ boundary_accepted first
    ∧ rejected_with first e
    ∧ _point_array [footprint; site; footprint] = Raise e.
Proof.
  apply (point_array_rejects_whole_call [footprint; site; footprint] site).
  - pick.
  - vm_compute. intros H. exact H.
Defined.

(** The valid footprint gets no seeds when another footprint is rejected. *)
Lemma point_array_keeps_no_seed :
  ¬ ∃ points ids, _point_array [site; footprint] = Ok (points, ids).
Proof. intros (points & ids & H). vm_compute in H. discriminate. Qed.

(** The erosion is not a rounded offset. *)
Lemma erosion_not_rounded :
  ¬ (CAP_STYLE_of (cap_style (erosion_args 1)) = Some cap_round
     ∧ JOIN_STYLE_of (join_style (erosion_args 1)) = Some join_round).
Proof. intros [H _]. vm_compute in H. discriminate. Qed.

Lemma cut_clip_resolution_witness :
  ∃ r', cut_plots !! 0%nat = Some r' ∧
        ix r' = ix plot0 ∧ uID r' = uID plot0 ∧ columns r' = columns plot0 ∧
        replaced_by_clip limit plot0 r'.
Proof.
  apply (cut_clip_resolution plots cut_plots limit chords 0 plot0).
  - apply (bool_decide_unpack _). vm_compute. reflexivity.
  - apply (bool_decide_unpack _). vm_compute. reflexivity.
  - vm_compute. reflexivity.
  - vm_compute. reflexivity.
  - reflexivity.
  - apply plots_crossing.
Defined.

(** ** Snapping *)

Definition streets : frame :=
  [entity 0 100 (LineString [(0, 0); (4, 0)]);
   entity 1 101 (LineString [(10, -5); (10, 5)])].

Definition house : row := entity 0 1 (square 6 (-1) 8 1).

Definition cell_frame : frame := [entity 0 1 (square (-20) (-20) 20 20)].

(** The store holds the edges at 0, the buildings at 1 and the
    tessellation at 2. *)
Definition store : gmap nat frame :=
  {[ 0%nat := streets; 1%nat := [house]; 2%nat := cell_frame ]}.

Definition street_env : snap_env :=
  {| network := 0; buildings := 1;
     sindex := sindex_of streets; bindex := sindex_of [house];
     tessellation_boundary := None |}.

(** The first street is being extended from its end [(4, 0)]. *)
Definition at_first_street : snap_state :=
  {| heap := store; l_coords := [(0, 0); (4, 0)] |}.

Lemma extension_discarded_on_building_witness :
  heap (extend_line street_env 10 0 at_first_street).1 = heap at_first_street.
Proof.
  apply (extension_discarded_on_building street_env 10 0 at_first_street
           (extend_line street_env 10 0 at_first_street).1
           (extend_line street_env 10 0 at_first_street).2 [house] house).
  - apply kernel_bbox_sound.
  - vm_compute. reflexivity.
  - reflexivity.
  - left. apply surjective_pairing.
  - pick.
  - vm_compute. reflexivity.
Defined.

Definition snap_input : snap_state := {| heap := store; l_coords := [] |}.

Lemma snap_network_frame_effect_witness :
  let run := snap_street_network_edge 0 1 2 10 30 snap_input in
  (∀ ref, ref ∈ dom (heap snap_input) →
          heap run.1 !! ref = heap snap_input !! ref)
  ∧ (∀ net, run.2 = Ok net →
       (net ∉ dom (heap snap_input)) ∧
       ∃ edges_df network_df,
         heap snap_input !! 0%nat = Some edges_df ∧
         heap run.1 !! 0%nat = Some edges_df ∧
         heap run.1 !! net = Some network_df ∧
         Forall2 same_attributes edges_df network_df ∧
         (NoDup (map ix edges_df) → Forall2 extended edges_df network_df)).
Proof.
  apply (snap_network_frame_effect 0 1 2 10 30 snap_input).
  apply surjective_pairing.
Defined.

(** Two edges with the same index label, a building away from both and
    one cell around them.  The first edge is too far from everything to be
    extended; the end [(16, 10)] of the second one is within the
    tolerance of the boundary of the cell. *)
Definition twins : frame :=
  [entity 0 100 (LineString [(0, 0); (4, 0)]);
   entity 0 101 (LineString [(10, 10); (16, 10)])].

Definition cottage : row := entity 0 1 (square 6 3 8 5).

Definition twin_input : snap_state :=
  {| heap := {[ 0%nat := twins; 1%nat := [cottage]; 2%nat := cell_frame ]};
     l_coords := [] |}.

(** With a repeated label the write [network.loc[idx, 'geometry'] = ...]
    reaches both edges: the edge from [(0, 0)] to [(4, 0)] ends with the
    extended line of the other edge. *)
Lemma snap_repeated_label_overwrites :
  ¬ (∀ s' net,
       snap_street_network_edge 0 1 2 1 5 twin_input = (s', Ok net) →
       ∃ edges_df network_df,
         heap twin_input !! 0%nat = Some edges_df
         ∧ heap s' !! net = Some network_df
         ∧ Forall2 extended edges_df network_df).
Proof.
  intros H.
  destruct (snap_street_network_edge 0 1 2 1 5 twin_input) as [s' res] eqn:E.
  assert (Hres : res = Ok 3%nat) by (by vm_compute in E; injection E as _ <-).
  assert (Hnet : heap s' !! 3%nat
                 = Some [entity 0 100
                           (LineString [(10, 10); (16, 10); (20, 10)]);
                         entity 0 101
                           (LineString [(10, 10); (16, 10); (20, 10)])]).
  { vm_compute in E. injection E as <- _. vm_compute. reflexivity. }
  subst res.
  destruct (H s' 3%nat eq_refl) as (edges_df & network_df & He & Hn & Hext).
  rewrite Hnet in Hn. injection Hn as <-.
  vm_compute in He. injection He as <-.
  apply Forall2_cons_1 in Hext as [[Hsame|(cs & l & Hcs & Hl & Hg)] _].
  - discriminate Hsame.
  - injection Hcs as <-. injection Hg as <-.
    assert (Hin : (0, 0) ∈ [(10, 10); (16, 10); (20, 10)]).
    { destruct Hl as (pre & post & _ & _ & [-> | ->]).
      - apply elem_of_app. right. by left.
      - apply elem_of_reverse, elem_of_app. right. by left. }
    repeat (apply elem_of_cons in Hin as [Hin|Hin]; [discriminate Hin|]).
    by apply elem_of_nil in Hin.
Qed.

(** A street that crosses the ray of another one three times. *)
Definition crossed : row := entity 0 100 (LineString [(18, 0); (14, 0)]).
Definition meander : row :=
  entity 1 101 (LineString [(6, -1); (6, 1); (9, 1); (9, -1); (12, -1); (12, 1)]).

(** One building, far from both streets. *)
Definition barn : row := entity 0 1 (square 30 30 32 32).

Definition meander_env : snap_env :=
  {| network := 0; buildings := 1;
     sindex := sindex_of [crossed; meander]; bindex := sindex_of [barn];
     tessellation_boundary := None |}.

Definition at_crossed : snap_state :=
  {| heap := {[ 0%nat := [crossed; meander]; 1%nat := [barn] ]};
     l_coords := [(18, 0); (14, 0)] |}.

(** C6: the street [crossed] ends at [(14, 0)]; its ray of length 10
    meets the street [meander] in the three points [(6, 0)], [(9, 0)] and
    [(12, 0)], of which [(12, 0)] is the nearest to the end.
    [extend_line] looks at the members 0 and 1 of the MultiPoint only and
    extends the street to [(9, 0)]. *)
Theorem extend_line_misses_nearest :
  extrapolate [(18, 0); (14, 0)] 10 = Ok (LineString [(14, 0); (4, 0)])
  ∧ intersection (geometry meander) (LineString [(14, 0); (4, 0)])
    = MultiPoint [(6, 0); (9, 0); (12, 0)]
  ∧ heap (extend_line meander_env 10 0 at_crossed).1 !! 0%nat
    = Some [set_geometry (LineString [(18, 0); (14, 0); (9, 0)]) crossed;
            meander]
  ∧ (distance (Point (12, 0)) (Point (14, 0))
     < distance (Point (9, 0)) (Point (14, 0)))%Q.
Proof. vm_compute. repeat split. Qed.

(** ** Blocks *)

Definition fragments : list geom :=
  [square 0 0 1 1; square 1 1 2 2; square 5 5 6 6].

Lemma block_partition_order_invariant_witness :
  ∃ patches patches',
    patches_of (Queen_neighbors fragments) (length fragments) = Ok patches ∧
    patches_of (Queen_neighbors (reorder fragments [2; 0; 1]%nat))
               (length (reorder fragments [2; 0; 1]%nat)) = Ok patches' ∧
    ∀ p q i j, [2; 0; 1]%nat !! p = Some i → [2; 0; 1]%nat !! q = Some j →
               (patches' !! p = patches' !! q ↔ patches !! i = patches !! j).
Proof.
  apply (block_partition_order_invariant
           (λ a b, Rectilinear.share_vertex a b = true) fragments [2; 0; 1]%nat).
  - apply kernel_Queen_contract.
  - simpl. apply (Permutation_cons_append [0; 1]%nat 2%nat).
Defined.

Definition cells2 : frame :=
  [entity 0 1 (square 0 0 4 4); entity 1 2 (square 6 0 10 4)].
Definition roads : frame := [entity 0 100 (LineString [(5, -1); (5, 5)])].
Definition houses2 : frame :=
  [entity 0 1 (square 1 1 3 3); entity 1 2 (square 7 1 9 3)].

Definition joined :
    list (row * option Z) * list (row * option Z) * list block_row :=
  Eval vm_compute in
    match blocks cells2 roads houses2 with
    | Ok out => out
    | Raise _ => ([], [], [])
    end.

Lemma blocks_shared_block_id_witness :
  blocks cells2 roads houses2 = Ok joined
  ∧ ∀ rb bb rc bc,
      (rb, bb) ∈ joined.1.1 → (rc, bc) ∈ joined.1.2 → uID rb = uID rc →
      bb = bc.
Proof.
  split; [vm_compute; reflexivity|].
  apply (blocks_shared_block_id cells2 roads houses2
           joined.1.1 joined.1.2 joined.2).
  - vm_compute. reflexivity.
  - apply (bool_decide_unpack _). vm_compute. reflexivity.
  - intros r Hr i1 i2 b1 b2 H1 H2 Hi1 Hi2.
    assert (Hr' : r = entity 0 1 (square 1 1 3 3)
                  ∨ r = entity 1 2 (square 7 1 9 3)).
    { apply elem_of_cons in Hr as [->|Hr]; [by left|].
      apply list_elem_of_singleton in Hr. by right. }
    vm_compute in H1, H2.
    destruct i1 as [|[|i1]], i2 as [|[|i2]]; try reflexivity;
      try discriminate; exfalso;
      injection H1 as <-; injection H2 as <-;
      destruct Hr' as [-> | ->]; vm_compute in Hi1, Hi2; discriminate.
Defined.

(** Two cells on the two sides of a street, a third cell apart, and a
    third building that stands across the street: its representative
    point [(10, 5)] lies on the boundary that the two blocks share. *)
Definition cells3 : frame :=
  [entity 0 1 (square 0 0 10 10); entity 1 2 (square 10 0 20 10);
   entity 2 3 (square 30 0 40 10)].
Definition street3 : frame := [entity 0 100 (LineString [(10, -5); (10, 15)])].
Definition houses3 : frame :=
  [entity 0 1 (square 4 4 6 6); entity 1 2 (square 14 4 16 6);
   entity 2 3 (square 9 4 11 6)].

(** The join keeps both blocks for building 3, and cell 3 takes both from
    the same table: a row of building 3 with block 1 and a row of cell 3
    with block 3. *)
Lemma blocks_block_id_differs :
  ¬ (∀ bo co bs, blocks cells3 street3 houses3 = Ok (bo, co, bs) →
       ∀ rb bb rc bc, (rb, bb) ∈ bo → (rc, bc) ∈ co →
                      uID rb = uID rc → bb = bc).
Proof.
  intros H.
  destruct (blocks cells3 street3 houses3) as [[[bo co] bs]|] eqn:E;
    [|by vm_compute in E].
  specialize (H bo co bs eq_refl).
  vm_compute in E. injection E as Hbo Hco Hbs.
  assert (Hb : (entity 2 3 (square 9 4 11 6), Some 1%Z) ∈ bo) by (subst bo; pick).
  assert (Hc : (entity 3 3 (square 30 0 40 10), Some 3%Z) ∈ co) by (subst co; pick).
  discriminate (H _ _ _ _ Hb Hc eq_refl).
Qed.

End Examples.

(** * The further properties on concrete inputs *)

Module FurtherExamples.
Import RectilinearFacts.

#[local] Existing Instance Rectilinear.kernel.

Local Open Scope Q_scope.

Ltac members H :=
  repeat (apply elem_of_cons in H as [->|H]); [..|by apply elem_of_nil in H].

(** ** Seeds and regions *)

Definition footprint_seeds : list coord * list Z :=
  Eval vm_compute in
    match _point_array Examples.footprints with
    | Ok seeds => seeds
    | Raise _ => ([], [])
    end.

Lemma point_array_seeds_witness :
  footprint_seeds.1 = flat_map boundary_seeds Examples.footprints
  ∧ footprint_seeds.2
    = flat_map (λ r, replicate (length (boundary_seeds r)) (uID r))
               Examples.footprints
  ∧ length footprint_seeds.1 = length footprint_seeds.2.
Proof.
  apply (point_array_seeds Examples.footprints
           footprint_seeds.1 footprint_seeds.2).
  vm_compute. reflexivity.
Defined.

Definition footprint_regions : frame :=
  Eval vm_compute in
    match _regions (Voronoi footprint_seeds.1) footprint_seeds.2 with
    | Ok regions_gdf => regions_gdf
    | Raise _ => []
    end.

Lemma regions_rows_witness :
  length footprint_regions = 10%nat
  ∧ ∀ r, r ∈ footprint_regions →
         uID r ≠ (-1)%Z ∧ uID r ∈ footprint_seeds.2
         ∧ (∃ p, geometry r = Polygon p)
         ∧ (length_of (geometry r) < 1000000)%Q.
Proof.
  split; [reflexivity|].
  apply (regions_rows (Voronoi footprint_seeds.1) footprint_seeds.2
           footprint_regions).
  vm_compute. reflexivity.
Defined.

(** ** The limit and the cut *)

Definition limit_ring : list coord :=
  [(2, -1); (10, -1); (10, 5); (2, 5); (2, -1)].

Lemma split_lines_chords_witness :
  ∃ segments,
    _split_lines Examples.limit 100 = Ok segments
    ∧ length segments = (length limit_ring - 1)%nat
    ∧ ∀ k a b,
        limit_ring !! k = Some a → limit_ring !! S k = Some b →
        segments !! k = Some (LineString [a; b]).
Proof.
  apply (split_lines_chords Examples.limit 100 limit_ring).
  vm_compute. reflexivity.
Defined.

(** A limit that is a line: its boundary is the two ends. *)
Definition kerb : geom := LineString [(0, 0); (3, 0)].

Lemma cut_by_lineless_limit_witness :
  _cut Examples.plots kerb = Ok Examples.plots.
Proof.
  apply (cut_by_lineless_limit Examples.plots kerb
           (MultiPoint [(0, 0); (3, 0)])).
  - vm_compute. reflexivity.
  - vm_compute. discriminate.
  - vm_compute. discriminate.
Defined.

Lemma cut_keeps_rows_witness :
  length Examples.cut_plots = length Examples.plots
  ∧ map ix Examples.cut_plots = map ix Examples.plots
  ∧ map uID Examples.cut_plots = map uID Examples.plots
  ∧ map columns Examples.cut_plots = map columns Examples.plots.
Proof.
  apply (cut_keeps_rows Examples.plots Examples.cut_plots Examples.limit).
  vm_compute. reflexivity.
Defined.

Definition plot1 : row := Examples.entity 1 2 (Examples.square 4 0 8 4).

Lemma plot1_apart : ¬ crosses_boundary Examples.chords plot1.
Proof.
  intros (poly & Hin & Hb & _). unfold Examples.chords in Hin.
  members Hin; vm_compute in Hb; discriminate.
Qed.

Lemma cut_leaves_other_cells_witness :
  Examples.cut_plots !! 1%nat = Some plot1.
Proof.
  apply (cut_leaves_other_cells Examples.plots Examples.cut_plots
           Examples.limit Examples.chords 1 plot1).
  - apply (bool_decide_unpack _). vm_compute. reflexivity.
  - apply (bool_decide_unpack _). vm_compute. reflexivity.
  - vm_compute. reflexivity.
  - vm_compute. reflexivity.
  - reflexivity.
  - apply plot1_apart.
Defined.

(** ** The result of tessellation *)

Lemma tessellation_cells_of_buildings_witness :
  StronglySorted Z.lt (map uID Examples.footprint_cells)
  ∧ map ix Examples.footprint_cells
    = map Z.of_nat (seq 0 (length Examples.footprint_cells))
  ∧ ∀ u, u ∈ map uID Examples.footprint_cells →
         u ≠ (-1)%Z ∧ u ∈ map uID Examples.footprints.
Proof.
  apply (tessellation_cells_of_buildings Examples.no_corner_ring
           Examples.footprints Examples.study_area 0 (1 # 2) false 2
           Examples.footprint_cells).
  vm_compute. reflexivity.
Defined.

Lemma check_result_reports_collapsed_witness :
  ((∃ diff, Collapsed diff
            ∈ _check_result Examples.footprint_cells Examples.footprints)
   ↔ ∃ u, u ∈ map uID Examples.footprints
          ∧ u ∉ map uID Examples.footprint_cells)
  ∧ ∀ diff, Collapsed diff
            ∈ _check_result Examples.footprint_cells Examples.footprints →
            ∀ u, u ∈ diff ↔ u ∈ map uID Examples.footprints
                            ∧ u ∉ map uID Examples.footprint_cells.
Proof.
  apply (check_result_reports_collapsed Examples.no_corner_ring
           Examples.footprints Examples.study_area 0 (1 # 2) false 2
           Examples.footprint_cells).
  - vm_compute. reflexivity.
  - apply (bool_decide_unpack _). vm_compute. reflexivity.
Defined.

(** ** Snapping *)

(** With a tolerance of 1 the ray of the first street meets nothing. *)
Lemma extend_line_False_changes_nothing_witness :
  (extend_line Examples.street_env 1 0 Examples.at_first_street).1
  = Examples.at_first_street.
Proof.
  apply (extend_line_False_changes_nothing Examples.street_env 1 0
           Examples.at_first_street).
  rewrite (surjective_pairing
             (extend_line Examples.street_env 1 0 Examples.at_first_street))
    at 1.
  f_equal.
Defined.

Lemma new_point_nearest_witness :
  ∃ m, [(6, 0); (9, 0); (12, 0)] !! m = Some (12, 0) ∧
       ((1 < length [(6, 0); (9, 0); (12, 0)])%nat →
        ∃ endpoint, last [(18, 0); (14, 0)] = Some endpoint ∧
          (∀ q, q ∈ [(6, 0); (9, 0); (12, 0)] →
                (distance (Point (12, 0)) (Point endpoint)
                 <= distance (Point q) (Point endpoint))%Q) ∧
          (∀ j q, (j < m)%nat → [(6, 0); (9, 0); (12, 0)] !! j = Some q →
                  (distance (Point (12, 0)) (Point endpoint)
                   < distance (Point q) (Point endpoint))%Q)).
Proof.
  apply (new_point_nearest [(6, 0); (9, 0); (12, 0)] [(18, 0); (14, 0)]
           (12, 0)).
  vm_compute. reflexivity.
Defined.

(** ** Blocks *)

Lemma blocks_rows_witness :
  (∀ b, b ∈ Examples.houses2 →
        ∃ rb bb, (rb, bb) ∈ Examples.joined.1.1 ∧ uID rb = uID b
                 ∧ geometry rb = geometry b ∧ columns rb = columns b)
  ∧ (∀ c, c ∈ Examples.cells2 →
          uID c ∈ map uID Examples.houses2
          ↔ ∃ rc bc, (rc, bc) ∈ Examples.joined.1.2 ∧ uID rc = uID c
                     ∧ geometry rc = geometry c ∧ columns rc = columns c)
  ∧ (∀ rc bc, (rc, bc) ∈ Examples.joined.1.2 →
              uID rc ∈ map uID Examples.houses2)
  ∧ (∀ r k, (r, Some k) ∈ Examples.joined.1.1
            ∨ (r, Some k) ∈ Examples.joined.1.2 →
            ∃ blk, blk ∈ Examples.joined.2 ∧ bID blk = Some k).
Proof.
  apply (blocks_rows Examples.cells2 Examples.roads Examples.houses2
           Examples.joined.1.1 Examples.joined.1.2 Examples.joined.2).
  vm_compute. reflexivity.
Defined.

Lemma blocks_ids_distinct_witness :
  StronglySorted Z.lt (map b_ix Examples.joined.2)
  ∧ Forall (λ b, (0 ≤ b_ix b)%Z ∧ bID b = Some (b_ix b + 1)%Z)
           Examples.joined.2
  ∧ NoDup (map bID Examples.joined.2).
Proof.
  apply (blocks_ids_distinct Examples.cells2 Examples.roads Examples.houses2
           Examples.joined.1.1 Examples.joined.1.2 Examples.joined.2).
  vm_compute. reflexivity.
Defined.

(** A block inside another one. *)
Definition nested : list block_row :=
  [ {| b_ix := 0; bID := None; b_geometry := Examples.square 0 0 10 10 |};
    {| b_ix := 1; bID := None; b_geometry := Examples.square 2 2 4 4 |} ].

Definition inner_block : block_row :=
  {| b_ix := 1; bID := None; b_geometry := Examples.square 2 2 4 4 |}.

Lemma within_another_marks_witness :
  let sindex := map (λ b, bounds (b_geometry b)) nested in
  let own := bounds (b_geometry inner_block) in
  (bbox_intersects own own = true →
   ∃ v, within_another nested sindex 1 inner_block = Ok v
        ∧ (v = true ↔
           ∃ j row2, j ≠ 1%nat ∧ nested !! j = Some row2
                     ∧ bbox_intersects (bounds (b_geometry row2)) own = true
                     ∧ within (b_geometry inner_block) (b_geometry row2)
                       = true))
  ∧ (bbox_intersects own own = false →
     within_another nested sindex 1 inner_block = Raise ValueError).
Proof.
  apply (within_another_marks nested 1 inner_block). reflexivity.
Defined.

Lemma patches_are_touching_chains_witness :
  ∃ patches,
    patches_of (Queen_neighbors Examples.fragments)
               (length Examples.fragments) = Ok patches
    ∧ (∀ i, (i < length Examples.fragments)%nat → is_Some (patches !! i))
    ∧ ∀ i j, (i < length Examples.fragments)%nat →
             (j < length Examples.fragments)%nat →
             (patches !! i = patches !! j
              ↔ rtc (touches (λ a b, Rectilinear.share_vertex a b = true)
                             Examples.fragments) i j).
Proof.
  apply (patches_are_touching_chains
           (λ a b, Rectilinear.share_vertex a b = true) Examples.fragments).
  apply kernel_Queen_contract.
Defined.

(** ** get_node_id *)

(** Three nodes, two edges between them, and three buildings: one near
    the first edge, one near the second, one without an edge.  For a
    rectangle the centre of the bounding box is the centroid. *)
Definition crossroads : list node_row :=
  [mkNode 1 (Point (0, 0)); mkNode 2 (Point (10, 0)); mkNode 3 (Point (10, 10))].

Definition lanes : list edge_row := [mkEdge 100 1 2; mkEdge 101 2 3].

Definition homes : list object_row :=
  [mkObject (Examples.square 1 1 3 3) (Some 100%Z);
   mkObject (Examples.square 12 7 14 9) (Some 101%Z);
   mkObject (Examples.square 50 50 51 51) None].

Lemma homes_resolve : references_resolve homes crossroads lanes.
Proof.
  split.
  - intros row eid Hrow He. unfold homes in Hrow.
    members Hrow; simpl in He; inversion He; Examples.pick.
  - intros edge Hedge. unfold lanes in Hedge.
    members Hedge; split; Examples.pick.
Qed.

Lemma get_node_id_nearest_witness :
  ∃ series,
    get_node_id Rectilinear.representative_point homes crossroads lanes
    = Ok series
    ∧ length series = length homes
    ∧ Forall2 (nearer_node Rectilinear.representative_point crossroads lanes)
              homes series.
Proof.
  apply (get_node_id_nearest Rectilinear.representative_point
           homes crossroads lanes).
  apply homes_resolve.
Defined.

(** ** get_network_id *)

(** The square root of the squares of the integers, which is all that
    the distances below need, and squares without rounding, overflow or
    underflow. *)
Definition sqrt_of_square (x : Q) : Q :=
  inject_Z (Z.sqrt (Qnum x / Zpos (Qden x))).

Definition exact_pow2 (x : Q) : result Q := Ok (x * x).

Lemma exact_pow2_zero (x : Q) :
  (x == 0)%Q → ∃ z, exact_pow2 x = Ok z ∧ (z == 0)%Q.
Proof. intros Hx. exists (x * x). split; [done|]. rewrite Hx. reflexivity. Qed.

Definition avenues : list (Z * list coord) :=
  [(100%Z, [(0, 0); (10, 0)]); (101%Z, [(0, 10); (10, 10)])].

Definition nearest_avenue : list (coord * option (NetworkId.segment * Z)) :=
  Eval vm_compute in
    match NetworkId.get_solution sqrt_of_square exact_pow2 100
            (NetworkId.get_rtree avenues) [(3, 4)] with
    | Ok res => res
    | Raise _ => []
    end.

Lemma get_solution_nearest_witness :
  nearest_avenue = [((3, 4), Some (((0, 0), (10, 0)), 100%Z))]
  ∧ (∀ p, p ∈ [(3, 4)] →
          ∃ k v, (k, v) ∈ nearest_avenue ∧ coord_eqb k p = true)
  ∧ ∀ k v, (k, v) ∈ nearest_avenue →
           ∃ p, p ∈ [(3, 4)] ∧ coord_eqb k p = true
                ∧ NetworkIdFacts.nearest_among sqrt_of_square exact_pow2 p
                    (NetworkId.hits_of (NetworkId.get_rtree avenues)
                                       (NetworkIdFacts.around 100 p)) v.
Proof.
  split; [reflexivity|].
  apply (NetworkIdFacts.get_solution_nearest sqrt_of_square exact_pow2 100
           (NetworkId.get_rtree avenues) [(3, 4)] nearest_avenue).
  vm_compute. reflexivity.
Defined.

(** Two buildings with the same centroid. *)
Lemma get_solution_coinciding_points_witness :
  (length nearest_avenue < length ([] ++ (3, 4) :: [] ++ (3, 4) :: []))%nat.
Proof.
  apply (NetworkIdFacts.get_solution_coinciding_points sqrt_of_square
           exact_pow2 100 (NetworkId.get_rtree avenues) [] [] [] (3, 4) (3, 4)
           nearest_avenue).
  - reflexivity.
  - vm_compute. reflexivity.
Defined.

(** A street with a repeated vertex. *)
Definition stutter : list (Z * list coord) :=
  [(100%Z, [(0, 0); (10, 0); (10, 0); (20, 0)])].

Lemma get_solution_division_by_zero_witness :
  NetworkId.get_solution sqrt_of_square exact_pow2 100
    (NetworkId.get_rtree stutter) [(3, 4)] = Raise ZeroDivisionError
  ∧ (∀ e, NetworkId.get_solution sqrt_of_square exact_pow2 100
            (NetworkId.get_rtree stutter) [(3, 4)] = Raise e →
          e = ZeroDivisionError ∨ ∃ x, exact_pow2 x = Raise e)
  ∧ ((∃ p h, p ∈ [(3, 4)]
             ∧ h ∈ NetworkId.hits_of (NetworkId.get_rtree stutter)
                                     (NetworkIdFacts.around 100 p)
             ∧ NetworkIdFacts.degenerate h) →
     ∃ e, NetworkId.get_solution sqrt_of_square exact_pow2 100
            (NetworkId.get_rtree stutter) [(3, 4)] = Raise e).
Proof.
  split; [vm_compute; reflexivity|].
  apply (NetworkIdFacts.get_solution_division_by_zero sqrt_of_square
           exact_pow2 100 (NetworkId.get_rtree stutter) [(3, 4)]).
  - done.
  - apply exact_pow2_zero.
Defined.

End FurtherExamples.
